(** * Retirement calculator: the numeric engine of [web/src/App.jsx]

    The development embeds the engine of the calculator (corpus sizing,
    bridge funding, the contribution waterfall and the two balance
    simulators) and states the properties of its specification over it.

    Conventions of the embedding.

    - A JavaScript number is an exact rational ([Q]): overflow and signed
      zeros are not represented, and rounding error is represented where
      it decides a result: in the waterfall, whose percentages go through
      [Math.ceil], the products and quotients are rounded by [fl]
      ([Rounding]).  The rounding of the machine is [binary64], the
      instance the properties use unless they say otherwise; a property
      that assumes [fl x = x] for every [x] is about exact arithmetic.
    - Where the source can divide by a quantity that is zero on ordinary
      inputs (step 4 of the waterfall divides by [grossPay]), or reads a
      text without [parseNumber] (step 3 reads [four01kLimit]), the values
      are taken in [JS.num], which adds [Infinity], [-Infinity] and [NaN]
      to the rationals.  Elsewhere a quotient is [Qdiv], whose value at a
      zero divisor is 0: the properties either keep the quotient as the
      source writes it on both sides of an equation or assume the divisor
      is not 0 (the discount factor [1 + rPost] of the corpus).
    - A field of the form is [option Q], what [parseNumber] makes of its
      text: [None] when it takes the fallback (the empty string, or a text
      that is not a finite number), [Some q] when it reads the number [q].
      The four ages are inputs of type [number], whose text is empty or a
      numeral: for them [None] is the empty string, and the coercion of
      the field itself ([Number]) is defined on that type.  The field
      [four01kLimit], a free text that step 3 reads by coercion, keeps its
      text ([text]) with both readings ([parsed], [ToNumber]).
    - [Math.pow b e] is exact when the exponent [e] is a whole number.  For
      a fractional exponent its value is in general irrational; the
      development is parametric in those values ([FracPow]).
    - A [for] loop is a recursive function on a fuel argument that tests
      the guard of the source at every iteration; the fuel given by the
      caller is the number of iterations the guard allows. *)

From Stdlib Require Import QArith Qround Qminmax Qabs Qpower.
From Stdlib Require Import ZArith List Bool Lia Lqa.
Import ListNotations.

Local Open Scope Q_scope.

(** ** Numbers *)

(** [a < b] and [a <= b] as JavaScript tests. *)
Definition Qltb (a b : Q) : bool := negb (Qle_bool b a).
Definition Qleb (a b : Q) : bool := Qle_bool a b.

Infix "<?" := Qltb (at level 70, no associativity) : Q_scope.
Infix "<=?" := Qleb (at level 70, no associativity) : Q_scope.
Infix "=?" := Qeq_bool (at level 70, no associativity) : Q_scope.

(** The loop counters [t], [i] of the source as numbers. *)
Definition of_nat (t : nat) : Q := inject_Z (Z.of_nat t).

(** [Math.ceil]. *)
Definition Math_ceil (x : Q) : Q := inject_Z (Qceiling x).

(** Values of [Math.pow] at fractional exponents. *)
Class FracPow := pow_frac : Q -> Q -> Q.

Definition is_whole (e : Q) : bool := inject_Z (Qfloor e) =? e.

(** [Math.pow b e].  The engine raises to the counters of its loops, to
    differences of ages floored at 0 and to [yearsToRetire]: a whole
    exponent is never negative there. *)
Definition Math_pow `{FracPow} (b e : Q) : Q :=
  if is_whole e then Qpower b (Qfloor e) else pow_frac b e.

(** ** Floating point *)

(** The exponent of a number other than 0: the [e] with
    [2^e <= |x| < 2^(e+1)]. *)
Definition exponent (x : Q) : Z :=
  let e := (Z.log2 (Z.abs (Qnum x)) - Z.log2 (Z.pos (Qden x)))%Z in
  if Qle_bool (2 ^ e) (Qabs x) then e else (e - 1)%Z.

(** The nearest whole number, a tie going to the even one. *)
Definition nearest_even (y : Q) : Z :=
  let f := Qfloor y in
  match Qcompare (y - inject_Z f) (1 # 2) with
  | Lt => f
  | Gt => (f + 1)%Z
  | Eq => if Z.even f then f else (f + 1)%Z
  end.

(** The number of the machine nearest to [x]: 53 significant bits, a tie
    going to the even significand (IEEE 754 binary64, the [Number] of
    JavaScript).  The range of the exponent is not represented: no
    overflow, no subnormal numbers. *)
Definition double (x : Q) : Q :=
  if Qeq_bool x 0 then 0
  else
    let ulp := 2 ^ (exponent x - 52) in
    inject_Z (nearest_even (x / ulp)) * ulp.

(** The unit roundoff of [double], [2^-53], and the tolerance the
    properties grant to an amount that went through several roundings,
    [2^-50]. *)
Definition unit_roundoff : Q := 1 # 9007199254740992.
Definition tolerance : Q := 1 # 1125899906842624.

(** The rounding of the result of a product or of a quotient. *)
Class Rounding := fl : Q -> Q.

(** The rounding of the source. *)
Definition binary64 : Rounding := double.
Existing Instance binary64.

(** ** JavaScript numbers with the non-finite values *)

Module JS.

(** A finite number, [Infinity] ([Inf false]), [-Infinity] ([Inf true])
    or [NaN].  A zero is the positive zero. *)
Inductive num := Fin (q : Q) | Inf (negative : bool) | NaN.

Definition add (a b : num) : num :=
  match a, b with
  | NaN, _ | _, NaN => NaN
  | Fin x, Fin y => Fin (x + y)
  | Inf sa, Inf sb => if Bool.eqb sa sb then Inf sa else NaN
  | Inf sa, Fin _ => Inf sa
  | Fin _, Inf sb => Inf sb
  end.

Definition neg (a : num) : num :=
  match a with
  | Fin x => Fin (- x)
  | Inf sa => Inf (negb sa)
  | NaN => NaN
  end.

Definition sub (a b : num) : num := add a (neg b).

Definition mul (a b : num) : num :=
  match a, b with
  | NaN, _ | _, NaN => NaN
  | Fin x, Fin y => Fin (x * y)
  | Inf sa, Inf sb => Inf (xorb sa sb)
  | Inf sa, Fin y => if y =? 0 then NaN else Inf (xorb sa (y <? 0))
  | Fin x, Inf sb => if x =? 0 then NaN else Inf (xorb (x <? 0) sb)
  end.

Definition div (a b : num) : num :=
  match a, b with
  | NaN, _ | _, NaN => NaN
  | Fin x, Fin y =>
      if y =? 0 then (if x =? 0 then NaN else Inf (x <? 0)) else Fin (x / y)
  | Fin _, Inf _ => Fin 0
  | Inf sa, Fin y => Inf (xorb sa (y <? 0))
  | Inf _, Inf _ => NaN
  end.

(** [Math.ceil]. *)
Definition ceil (a : num) : num :=
  match a with
  | Fin x => Fin (Math_ceil x)
  | _ => a
  end.

(** [Math.min], [Math.max]. *)
Definition min (a b : num) : num :=
  match a, b with
  | NaN, _ | _, NaN => NaN
  | Fin x, Fin y => Fin (Qmin x y)
  | Inf true, _ | _, Inf true => Inf true
  | Inf false, c | c, Inf false => c
  end.

Definition max (a b : num) : num :=
  match a, b with
  | NaN, _ | _, NaN => NaN
  | Fin x, Fin y => Fin (Qmax x y)
  | Inf false, _ | _, Inf false => Inf false
  | Inf true, c | c, Inf true => c
  end.

(** [a > b]. *)
Definition gtb (a b : num) : bool :=
  match a, b with
  | NaN, _ | _, NaN => false
  | Fin x, Fin y => y <? x
  | Inf sa, Inf sb => negb sa && sb
  | Inf sa, Fin _ => negb sa
  | Fin _, Inf sb => sb
  end.

(** [a < b]. *)
Definition ltb (a b : num) : bool := gtb b a.

(** [a != b]. *)
Definition neqb (a b : num) : bool :=
  match a, b with
  | NaN, _ | _, NaN => true
  | Fin x, Fin y => negb (x =? y)
  | Inf sa, Inf sb => xorb sa sb
  | _, _ => true
  end.

(** [a || 0]: 0 and [NaN] are falsy. *)
Definition or0 (a : num) : num :=
  match a with
  | NaN => Fin 0
  | Fin x => if x =? 0 then Fin 0 else a
  | Inf _ => a
  end.

(** The result of a product or of a quotient, rounded. *)
Definition rounded `{Rounding} (a : num) : num :=
  match a with
  | Fin x => Fin (fl x)
  | _ => a
  end.

(** Two numbers with the same value. *)
Definition eqv (a b : num) : Prop :=
  match a, b with
  | Fin x, Fin y => x == y
  | Inf sa, Inf sb => sa = sb
  | NaN, NaN => True
  | _, _ => False
  end.

End JS.

(** ** Text fields *)

(** [parseNumber(v, fallback = 0)], lines 3-7. *)
Definition parseNumber (v : option Q) (fallback : Q) : Q :=
  match v with
  | None => fallback
  | Some n => n
  end.

(** A field of an input of type [number], used directly in arithmetic or
    in a comparison, is converted by [ToNumber]: the empty string becomes
    0, a numeral its number. *)
Definition Number (v : option Q) : Q :=
  match v with
  | None => 0
  | Some n => n
  end.

(** The text of a free field, by what [Number(...)] makes of it, as it is
    and with the characters [,] and [$] removed (line 5). *)
Inductive text :=
| Blank                        (* the empty string *)
| Numeral (q : Q)              (* a finite number, without [,] or [$] *)
| Formatted (q : Q)            (* a finite number written with [,] or [$] *)
| Infinite (negative : bool)   (* [Infinity], [-Infinity] *)
| Junk.                        (* any other text *)

(** [Number(String(v).replace(/[,\$]/g, ''))] when [v] is not empty and
    the number is finite, lines 4-6. *)
Definition parsed (v : text) : option Q :=
  match v with
  | Numeral q | Formatted q => Some q
  | Blank | Infinite _ | Junk => None
  end.

(** The text used directly in arithmetic: [ToNumber]. *)
Definition ToNumber (v : text) : JS.num :=
  match v with
  | Blank => JS.Fin 0
  | Numeral q => JS.Fin q
  | Infinite negative => JS.Inf negative
  | Formatted _ | Junk => JS.NaN
  end.

(** ** Loops *)

(** Number of iterations of [for (let t = 0; t < N; t++)]. *)
Definition iterations (N : Q) : nat := Z.to_nat (Qceiling N).

(** [for (...; t < N; t++) acc = body t acc] from the counter [t] on, at
    most [fuel] iterations. *)
Fixpoint for_lt {A : Type} (fuel : nat) (t : nat) (N : Q)
    (body : nat -> A -> A) (acc : A) : A :=
  match fuel with
  | O => acc
  | S fuel' =>
      if of_nat t <? N
      then for_lt fuel' (S t) N body (body t acc)
      else acc
  end.

(** [for (...; age < targetAge; age++) acc = body age acc] from [age]
    on, at most [fuel] iterations. *)
Fixpoint for_age {A : Type} (fuel : nat) (age : Q) (targetAge : Q)
    (body : Q -> A -> A) (acc : A) : A :=
  match fuel with
  | O => acc
  | S fuel' =>
      if age <? targetAge
      then for_age fuel' (age + 1) targetAge body (body age acc)
      else acc
  end.

(** [Math.min] of four arguments. *)
Definition Math_min4 (a b c d : Q) : Q := Qmin (Qmin (Qmin a b) c) d.

(** ** [calculate], lines 35-78 *)

(** The object returned by [calculate]. *)
Module Result.
Record t := {
  targetCorpus : Q;
  annual : Q;
  lumpNeeded : option Q   (* [None]: the object has no such property *)
}.
End Result.

Section Calculate.
Context `{FracPow}.

Variables (currentAssets yearsToRetire yearsInRetirement withdrawal : Q).
Variables (rPre rPost g pensionAnnual ssAnnual ssOffset fixedIncomeInflation : Q).

(** Body of the loop of lines 43-57: [pv += netWithdrawal / ...]. *)
Definition calculate_body (t : nat) (pv : Q) : Q :=
  let baseWithdrawal := withdrawal * Math_pow (1 + g) (of_nat t) in
  let pensionAdj := pensionAnnual * Math_pow (1 + fixedIncomeInflation) (of_nat t) in
  let ssAdj :=
    if ssOffset <=? of_nat t
    then ssAnnual * Math_pow (1 + fixedIncomeInflation) (of_nat t - ssOffset)
    else 0 in
  let netWithdrawal := Qmax 0 (baseWithdrawal - pensionAdj - ssAdj) in
  pv + netWithdrawal / Math_pow (1 + rPost) (of_nat t + 1).

Definition calculate : Result.t :=
  let N := yearsInRetirement in
  if N <=? 0
  then {| Result.targetCorpus := 0; Result.annual := 0; Result.lumpNeeded := None |}
  else
    let pv := for_lt (iterations N) 0 N calculate_body 0 in
    let targetCorpus := pv in
    let n := yearsToRetire in
    let fvAssets := currentAssets * Math_pow (1 + rPre) n in
    let neededFv := Qmax 0 (targetCorpus - fvAssets) in
    if n =? 0 then
      let lumpNeeded := Qmax 0 (targetCorpus - currentAssets) in
      {| Result.targetCorpus := targetCorpus; Result.annual := 0;
         Result.lumpNeeded := Some lumpNeeded |}
    else
      let annual :=
        if 0 <? rPre then
          let annuityFactor := (Math_pow (1 + rPre) n - 1) / rPre in
          neededFv / annuityFactor
        else neededFv / n in
      {| Result.targetCorpus := targetCorpus; Result.annual := annual;
         Result.lumpNeeded := None |}.

End Calculate.

(** ** The state of the form *)

(** The text fields read by the engine ([usePersistentState], lines 83-107).
    [monthlyFixedIncome] only feeds [fixedIncomeAnnual], which nothing
    reads, and is left out. *)
Record Fields := {
  currentAge : option Q;
  retirementAccounts : option Q;
  nonRetirement : option Q;
  retirementAge : option Q;
  lastAge : option Q;
  penaltyFreeAge : option Q;
  withdrawal : option Q;
  monthlyPension : option Q;
  ssStartAge : option Q;
  monthlySocialSecurity : option Q;
  fixedIncomeInflation : option Q;
  inflation : option Q;
  rPre : option Q;
  rPost : option Q;
  iraLimit : option Q;
  four01kLimit : text;
  salary : option Q;
  bonus : option Q;
  employerMatchPct : option Q
}.

(** ** The component [App], lines 80-400 *)

(** The body of the component up to [simulateToAge], as definitions over
    the state [s] of the form.  A variable the source assigns more than
    once has one definition for each value the properties need.  Left
    out: [employee401k] and [employerMatch] (never read), the percentages
    computed for display and the rendering. *)

Module App.

(** [{ ret, nonret }], returned by the [projectBalances...] functions. *)
Record Projected := { ret : Q; nonret : Q }.

(** [{ retBal, nonretBal }], returned by [simulateToAge]. *)
Record Totals := { retBal : Q; nonretBal : Q }.

(** The variables assigned by step 1 of the waterfall. *)
Record MatchStep := {
  emp401kDollarForMatch : Q;
  emp401kPctForMatch : Q;
  employerMatchDollarApplied : Q;
  remainingNeed : Q
}.

(** The variables assigned by step 4 of the waterfall. *)
Record Rounded := {
  recommended401kDollar : JS.num;
  recommendedIra : JS.num
}.

(** [{ ret, nonret }] as [projectBalancesWithRecommendations] returns it:
    its arguments are outputs of the waterfall. *)
Module WithRec.
Record t := { ret : JS.num; nonret : JS.num }.
End WithRec.

Section Body.
Context `{FracPow} `{Rounding}.
Variable s : Fields.

(** Lines 110-134. *)
Definition curAgeNum := parseNumber (currentAge s) 40.
Definition retirementAgeNum := parseNumber (retirementAge s) 65.
Definition lastAgeNum := parseNumber (lastAge s) 95.
Definition penaltyFreeAgeNum := parseNumber (penaltyFreeAge s) (119 # 2).
Definition withdrawalVal := parseNumber (withdrawal s) 50000.
Definition monthlyPensionVal := parseNumber (monthlyPension s) 0.
Definition ssStartAgeNum := parseNumber (ssStartAge s) retirementAgeNum.
Definition monthlySocialSecurityVal := parseNumber (monthlySocialSecurity s) 0.
Definition fixedIncomeInflationPct := parseNumber (fixedIncomeInflation s) 0 / 100.
Definition pensionAnnual := monthlyPensionVal * 12.
Definition ssAnnual := monthlySocialSecurityVal * 12.
Definition ssOffset := Qmax 0 (ssStartAgeNum - retirementAgeNum).
Definition inflationPct := parseNumber (inflation s) 2 / 100.
Definition rPrePct := parseNumber (rPre s) 6 / 100.
Definition rPostPct := parseNumber (rPost s) 4 / 100.
Definition employerMatchPctNum := parseNumber (employerMatchPct s) 3.

Definition currentAssets :=
  parseNumber (retirementAccounts s) 0 + parseNumber (nonRetirement s) 0.

Definition yearsToRetire := Qmax 0 (retirementAgeNum - curAgeNum).
Definition yearsInRetirement := Qmax 0 (lastAgeNum - retirementAgeNum + 1).

(** Lines 136-148. *)
Definition calculated : Result.t :=
  calculate currentAssets yearsToRetire yearsInRetirement withdrawalVal
    rPrePct rPostPct inflationPct pensionAnnual ssAnnual ssOffset
    fixedIncomeInflationPct.

Definition targetCorpus := Result.targetCorpus calculated.
Definition annual := Result.annual calculated.
Definition lumpNeeded := Result.lumpNeeded calculated.

(** Lines 153-154. *)
Definition annualRetirementContrib : Q := 0.
Definition annualNonRetContrib : Q := 0.

(** [projectBalancesToRetirement], lines 157-167. *)
Definition projectBalancesToRetirement : Projected :=
  let n := yearsToRetire in
  let rate := rPrePct in
  for_lt (iterations n) 0 n
    (fun _ b =>
       {| ret := ret b * (1 + rate) + annualRetirementContrib;
          nonret := nonret b * (1 + rate) + annualNonRetContrib |})
    {| ret := parseNumber (retirementAccounts s) 0;
       nonret := parseNumber (nonRetirement s) 0 |}.

Definition projRetAtRet := ret projectBalancesToRetirement.
Definition projNonretAtRet := nonret projectBalancesToRetirement.

(** Lines 201-234: the early-withdrawal need.  The source writes the loop
    twice, once in each branch of the test on [rPostVal - g]. *)
Definition earlyYears := Qmax 0 (penaltyFreeAgeNum - retirementAgeNum).
Definition rPostVal := rPostPct.
Definition g := inflationPct.

(** Lines 210-219. *)
Definition pvEarly_body (t : nat) (pvEarly : Q) : Q :=
  let baseWithdrawal := withdrawalVal * Math_pow (1 + g) (of_nat t) in
  let pensionAdj := pensionAnnual * Math_pow (1 + fixedIncomeInflationPct) (of_nat t) in
  let ssAdj :=
    if ssOffset <=? of_nat t
    then ssAnnual * Math_pow (1 + fixedIncomeInflationPct) (of_nat t - ssOffset)
    else 0 in
  let net := Qmax 0 (baseWithdrawal - pensionAdj - ssAdj) in
  pvEarly + net / Math_pow (1 + rPostVal) (of_nat t + 1).

(** Lines 224-231. *)
Definition fallback_body (t : nat) (pv : Q) : Q :=
  let baseWithdrawal := withdrawalVal * Math_pow (1 + g) (of_nat t) in
  let pensionAdj := pensionAnnual * Math_pow (1 + fixedIncomeInflationPct) (of_nat t) in
  let ssAdj :=
    if ssOffset <=? of_nat t
    then ssAnnual * Math_pow (1 + fixedIncomeInflationPct) (of_nat t - ssOffset)
    else 0 in
  let net := Qmax 0 (baseWithdrawal - pensionAdj - ssAdj) in
  pv + net / Math_pow (1 + rPostVal) (of_nat t + 1).

(** The branch of lines 206-220 ([q] is computed and never read). *)
Definition earlyNeeded_main : Q :=
  for_lt (iterations earlyYears) 0 earlyYears pvEarly_body 0.

(** The branch of lines 221-233. *)
Definition earlyNeeded_fallback : Q :=
  for_lt (iterations earlyYears) 0 earlyYears fallback_body 0.

Definition earlyNeeded : Q :=
  if 0 <? earlyYears then
    if (1 # 1000000000000) <? Qabs (rPostVal - g)
    then earlyNeeded_main
    else earlyNeeded_fallback
  else 0.

(** Line 236. *)
Definition shortfallNonretAtRet := Qmax 0 (earlyNeeded - projNonretAtRet).

(** Lines 239-251: [neededNonretAnnual] as first assigned. *)
Definition neededNonretAnnual_bridge : Q :=
  let n := yearsToRetire in
  let rpre := rPrePct in
  if 0 <? shortfallNonretAtRet then
    if n =? 0 then shortfallNonretAtRet
    else if 0 <? rpre then
      let annFactor := (Math_pow (1 + rpre) n - 1) / rpre in
      shortfallNonretAtRet / annFactor
    else shortfallNonretAtRet / n
  else 0.

(** Line 256. *)
Definition remainingTotalAtRet :=
  Qmax 0 (targetCorpus - (projRetAtRet + projNonretAtRet + shortfallNonretAtRet)).

(** Lines 259-269. *)
Definition additionalRetAnnual : Q :=
  let n := yearsToRetire in
  let rpre := rPrePct in
  if 0 <? remainingTotalAtRet then
    if n =? 0 then remainingTotalAtRet
    else if 0 <? rpre then
      let annFactor := (Math_pow (1 + rpre) n - 1) / rpre in
      remainingTotalAtRet / annFactor
    else remainingTotalAtRet / n
  else 0.

(** *** The waterfall, lines 277-343 *)

(** The products and quotients of lines 281, 290, 293, 295, 315 and 317
    are rounded ([fl]): two of them end in [Math.ceil].  The halving of
    line 289 is exact in binary, and the sums and differences are left
    exact. *)

Definition grossPay := parseNumber (salary s) 0 + parseNumber (bonus s) 0.
Definition employerMatchCap := fl (grossPay * fl (employerMatchPctNum / 100)).
Definition employeeCapDollar := Qmax 0 (parseNumber (parsed (four01kLimit s)) 0).

(** Step 1, lines 278-301: the four variables the block assigns. *)
Definition step1 : MatchStep :=
  let remainingNeed := additionalRetAnnual in
  if (0 <? grossPay) && (0 <? employerMatchCap) && (0 <? remainingNeed) then
    let emp401kDollarForMatch :=
      Math_min4 grossPay employeeCapDollar employerMatchCap (remainingNeed / 2) in
    let emp401kPctForMatch := fl (fl (emp401kDollarForMatch / grossPay) * 100) in
    let '(emp401kDollarForMatch, emp401kPctForMatch) :=
      if emp401kDollarForMatch <? employeeCapDollar then
        let emp401kPctForMatch := Math_ceil emp401kPctForMatch in
        let emp401kDollarForMatch :=
          Qmin (fl (grossPay * fl (emp401kPctForMatch / 100))) employeeCapDollar in
        if emp401kDollarForMatch =? employeeCapDollar
        then (emp401kDollarForMatch, fl (fl (emp401kDollarForMatch / grossPay) * 100))
        else (emp401kDollarForMatch, emp401kPctForMatch)
      else (emp401kDollarForMatch, emp401kPctForMatch) in
    let employerMatchDollarApplied := Qmin employerMatchCap emp401kDollarForMatch in
    let remainingNeed :=
      Qmax 0 (remainingNeed - (emp401kDollarForMatch + employerMatchDollarApplied)) in
    {| emp401kDollarForMatch := emp401kDollarForMatch;
       emp401kPctForMatch := emp401kPctForMatch;
       employerMatchDollarApplied := employerMatchDollarApplied;
       remainingNeed := remainingNeed |}
  else
    {| emp401kDollarForMatch := 0; emp401kPctForMatch := 0;
       employerMatchDollarApplied := 0; remainingNeed := remainingNeed |}.

(** Step 2, lines 304-305. *)
Definition recommendedIra_step2 : Q :=
  Qmin (parseNumber (iraLimit s) 7500) (remainingNeed step1).
Definition remainingNeed_step2 : Q :=
  Qmax 0 (remainingNeed step1 - recommendedIra_step2).

(** Step 3, lines 308-309.  The subtraction reads the text of
    [four01kLimit] itself, not [employeeCapDollar]. *)
Definition emp401kDollarExtraRec : JS.num :=
  JS.min (JS.Fin remainingNeed_step2)
         (JS.sub (ToNumber (four01kLimit s)) (JS.Fin (emp401kDollarForMatch step1))).
Definition remainingNeed_step3 : JS.num :=
  JS.max (JS.Fin 0) (JS.sub (JS.Fin remainingNeed_step2) emp401kDollarExtraRec).

(** Step 4, lines 312-321: [recommended401kDollar] and [recommendedIra]
    after the second rounding. *)
Definition recommended401kDollar_sum : JS.num :=
  JS.add (JS.Fin (emp401kDollarForMatch step1)) emp401kDollarExtraRec.

Definition step4 : Rounded :=
  let recommended401kDollar := recommended401kDollar_sum in
  if JS.ltb recommended401kDollar (JS.Fin employeeCapDollar)
     && JS.gtb recommended401kDollar (JS.Fin 0) then
    let oldVal := recommended401kDollar in
    let recommendedPct :=
      JS.rounded
        (JS.mul (JS.rounded (JS.div recommended401kDollar (JS.Fin grossPay)))
                (JS.Fin 100)) in
    let recommendedPct := JS.ceil recommendedPct in
    let recommended401kDollar :=
      JS.min (JS.Fin employeeCapDollar)
             (JS.rounded
                (JS.mul (JS.Fin grossPay)
                        (JS.rounded (JS.div recommendedPct (JS.Fin 100))))) in
    if JS.neqb recommended401kDollar oldVal then
      {| recommended401kDollar := recommended401kDollar;
         recommendedIra :=
           JS.max (JS.Fin 0)
                  (JS.sub (JS.Fin recommendedIra_step2)
                          (JS.sub recommended401kDollar oldVal)) |}
    else
      {| recommended401kDollar := recommended401kDollar;
         recommendedIra := JS.Fin recommendedIra_step2 |}
  else
    {| recommended401kDollar := recommended401kDollar;
       recommendedIra := JS.Fin recommendedIra_step2 |}.

(** Lines 322-326. *)
Definition rec401kDollarUsed : JS.num := recommended401kDollar step4.
Definition recommendedEmployerMatchDollar : Q := employerMatchDollarApplied step1.
Definition recEmployerMatchDollarUsed : JS.num :=
  JS.min (JS.Fin employerMatchCap) rec401kDollarUsed.

(** Lines 329-334. *)
Definition deltaEmployee : JS.num := JS.sub rec401kDollarUsed (recommended401kDollar step4).
Definition deltaMatch : JS.num :=
  JS.sub recEmployerMatchDollarUsed (JS.Fin recommendedEmployerMatchDollar).
Definition totalDeltaRet : JS.num := JS.max (JS.Fin 0) (JS.add deltaEmployee deltaMatch).

Definition neededNonretAnnual_credited : JS.num :=
  if JS.gtb totalDeltaRet (JS.Fin 0)
  then JS.max (JS.Fin 0) (JS.sub (JS.or0 (JS.Fin neededNonretAnnual_bridge)) totalDeltaRet)
  else JS.Fin neededNonretAnnual_bridge.

(** Lines 339-343: [neededNonretAnnual] as the component finally uses it. *)
Definition neededNonretAnnual : JS.num :=
  if JS.gtb remainingNeed_step3 (JS.Fin 0)
  then JS.add (JS.or0 neededNonretAnnual_credited) remainingNeed_step3
  else neededNonretAnnual_credited.

(** *** [simulateToAge], lines 355-398 *)

(** The value given to [toWithdraw] at line 382, from lines 373-381. *)
Definition simulateToAge_toWithdraw (age : Q) : Q :=
  let g := inflationPct in
  let yearsSinceRet := age - retirementAgeNum in
  let baseWithdrawal := withdrawalVal * Math_pow (1 + g) (Qmax 0 yearsSinceRet) in
  let pensionAdjLocal :=
    pensionAnnual * Math_pow (1 + fixedIncomeInflationPct) (Qmax 0 yearsSinceRet) in
  let ageSinceSS := age - ssStartAgeNum in
  let ssAdjLocal :=
    if ssStartAgeNum <=? age
    then ssAnnual * Math_pow (1 + fixedIncomeInflationPct) (Qmax 0 ageSinceSS)
    else 0 in
  Qmax 0 (baseWithdrawal - pensionAdjLocal - ssAdjLocal).

(** One iteration of the loop, lines 362-395.  Line 362 compares the age
    with [retirementAgeNum]; line 367 compares it with the field
    [retirementAge]. *)
Definition simulateToAge_body (additionalNonRetAnnual : Q) (age : Q) (b : Totals)
    : Totals :=
  let ratePre := rPrePct in
  let ratePost := rPostPct in
  let rate := if age <? retirementAgeNum then ratePre else ratePost in
  let retBal := retBal b * (1 + rate) in
  let nonretBal := nonretBal b * (1 + rate) in
  if age <? Number (retirementAge s) then
    {| retBal := retBal + annualRetirementContrib;
       nonretBal := nonretBal + (annualNonRetContrib + additionalNonRetAnnual) |}
  else
    let toWithdraw := simulateToAge_toWithdraw age in
    let '(nonretBal, toWithdraw) :=
      if toWithdraw <=? nonretBal
      then (nonretBal - toWithdraw, 0)
      else (0, toWithdraw - nonretBal) in
    let retBal := if 0 <? toWithdraw then Qmax 0 (retBal - toWithdraw) else retBal in
    {| retBal := retBal; nonretBal := nonretBal |}.

Definition simulateToAge (targetAge : Q) (additionalNonRetAnnual : Q) : Totals :=
  for_age (iterations (targetAge - curAgeNum)) curAgeNum targetAge
    (simulateToAge_body additionalNonRetAnnual)
    {| retBal := parseNumber (retirementAccounts s) 0;
       nonretBal := parseNumber (nonRetirement s) 0 |}.

(** *** The other projections, lines 172-196 and 347-352 *)

(** [projectBalancesWithAdditionalNonRet], lines 172-182. *)
Definition projectBalancesWithAdditionalNonRet (additionalNonRetAnnual : Q) : Projected :=
  let n := yearsToRetire in
  let rate := rPrePct in
  for_lt (iterations n) 0 n
    (fun _ b =>
       {| ret := ret b * (1 + rate) + annualRetirementContrib;
          nonret := nonret b * (1 + rate) + (annualNonRetContrib + additionalNonRetAnnual) |})
    {| ret := parseNumber (retirementAccounts s) 0;
       nonret := parseNumber (nonRetirement s) 0 |}.




(** The number under "Needed annual savings", line 544. *)
Definition neededAnnualSavingsShown : JS.num :=
  JS.add (JS.add (JS.add (JS.or0 neededNonretAnnual) (JS.or0 (recommendedIra step4)))
                 (JS.or0 rec401kDollarUsed))
         (JS.or0 recEmployerMatchDollarUsed).

End Body.
End App.

(** ** The component [TimelineChart], lines 584-632 *)

(** [simulatePoints], which produces the snapshots the chart draws, and
    [simulateToAgeLocal], a second copy of the loop of [simulateToAge]
    over the props. *)

Module TimelineChart.

(** The props read by [simulatePoints] and drawn by the chart. *)
Record Props := {
  currentAge : Q;
  lastAge : Q;
  retirementAge : Q;
  penaltyFreeAge : Q;
  initialRet : Q;
  initialNonRet : Q;
  withdrawal : Q;
  inflation : Q;
  rPre : Q;
  rPost : Q;
  pensionAnnual : Q;
  ssAnnual : Q;
  ssStartAge : Q;
  fixedIncomeInflation : Q
}.

(** An element of [pts]: [{ age, retBal, nonretBal }]. *)
Record Point := { age : Q; retBal : Q; nonretBal : Q }.

(** The two contribution props, read by [simulateToAgeLocal]. *)
Record Contribs := { annualRetContrib : Q; annualNonRetContrib : Q }.

(** [{ retBal, nonretBal }], returned by [simulateToAgeLocal]. *)
Record Totals := { totalRetBal : Q; totalNonretBal : Q }.

Section Body.
Context `{FracPow}.
Variable p : Props.

(** Lines 585-586. *)
Definition endAge := Qmax (Qmax (lastAge p) (penaltyFreeAge p)) (retirementAge p).
Definition years := Qmax 0 (endAge - currentAge p).

Section SimulatePoints.
Variables (annualRetContribLocal annualNonRetContribLocal : Q).

(** The value given to [toWithdraw] at line 617, from lines 609-616. *)
Definition simulatePoints_toWithdraw (age : Q) : Q :=
  let yearsSinceRet := age - retirementAge p in
  let baseW := withdrawal p * Math_pow (1 + inflation p) (Qmax 0 yearsSinceRet) in
  let pensionAdj :=
    pensionAnnual p * Math_pow (1 + fixedIncomeInflation p) (Qmax 0 yearsSinceRet) in
  let ssAdj :=
    if ssStartAge p <=? age then
      let sinceSS := age - ssStartAge p in
      ssAnnual p * Math_pow (1 + fixedIncomeInflation p) (Qmax 0 sinceSS)
    else 0 in
  Qmax 0 (baseW - pensionAdj - ssAdj).

(** Lines 602-629: the balances after the year that starts at [age]. *)
Definition simulatePoints_year (age : Q) (retBal nonretBal : Q) : Q * Q :=
  let rate := if age <? retirementAge p then rPre p else rPost p in
  let retBal := retBal * (1 + rate) in
  let nonretBal := nonretBal * (1 + rate) in
  if age <? retirementAge p then
    (retBal + annualRetContribLocal, nonretBal + annualNonRetContribLocal)
  else
    let toWithdraw := simulatePoints_toWithdraw age in
    let '(nonretBal, toWithdraw) :=
      if toWithdraw <=? nonretBal
      then (nonretBal - toWithdraw, 0)
      else (0, toWithdraw - nonretBal) in
    let retBal := if 0 <? toWithdraw then Qmax 0 (retBal - toWithdraw) else retBal in
    (retBal, nonretBal).

(** The loop of lines 598-630; [pts.push] appends. *)
Fixpoint simulatePoints_loop (fuel : nat) (i : nat) (pts : list Point)
    (retBal nonretBal : Q) : list Point :=
  match fuel with
  | O => pts
  | S fuel' =>
      if of_nat i <=? years then
        let age := currentAge p + of_nat i in
        let pts := pts ++ [{| age := age; retBal := retBal; nonretBal := nonretBal |}] in
        if of_nat i =? years then pts
        else
          let '(retBal, nonretBal) := simulatePoints_year age retBal nonretBal in
          simulatePoints_loop fuel' (S i) pts retBal nonretBal
      else pts
  end.

(** [simulatePoints(annualRetContribLocal, annualNonRetContribLocal)]. *)
Definition simulatePoints : list Point :=
  simulatePoints_loop (S (Z.to_nat (Qfloor years))) 0 [] (initialRet p) (initialNonRet p).

End SimulatePoints.

(** *** [simulateToAgeLocal], lines 638-675 *)

Section SimulateToAgeLocal.
Variable c : Contribs.

(** One iteration of the loop, lines 644-672. *)
Definition simulateToAgeLocal_body (age : Q) (b : Totals) : Totals :=
  let ratePre := rPre p in
  let ratePost := rPost p in
  let rate := if age <? retirementAge p then ratePre else ratePost in
  let retBal := totalRetBal b * (1 + rate) in
  let nonretBal := totalNonretBal b * (1 + rate) in
  if age <? retirementAge p then
    {| totalRetBal := retBal + annualRetContrib c;
       totalNonretBal := nonretBal + annualNonRetContrib c |}
  else
    let yearsSinceRet := age - retirementAge p in
    let baseW := withdrawal p * Math_pow (1 + inflation p) (Qmax 0 yearsSinceRet) in
    let pensionAdj :=
      pensionAnnual p * Math_pow (1 + fixedIncomeInflation p) (Qmax 0 yearsSinceRet) in
    let ssAdj :=
      if ssStartAge p <=? age then
        let sinceSS := age - ssStartAge p in
        ssAnnual p * Math_pow (1 + fixedIncomeInflation p) (Qmax 0 sinceSS)
      else 0 in
    let toWithdraw := Qmax 0 (baseW - pensionAdj - ssAdj) in
    let '(nonretBal, toWithdraw) :=
      if toWithdraw <=? nonretBal
      then (nonretBal - toWithdraw, 0)
      else (0, toWithdraw - nonretBal) in
    let retBal := if 0 <? toWithdraw then Qmax 0 (retBal - toWithdraw) else retBal in
    {| totalRetBal := retBal; totalNonretBal := nonretBal |}.

Definition simulateToAgeLocal (targetAge : Q) : Totals :=
  for_age (iterations (targetAge - currentAge p)) (currentAge p) targetAge
    simulateToAgeLocal_body
    {| totalRetBal := initialRet p; totalNonretBal := initialNonRet p |}.

End SimulateToAgeLocal.

End Body.
End TimelineChart.

(** The props [App] passes to the chart, lines 556-576, for the props
    that are numbers whatever the waterfall returned. *)
Definition chartProps `{FracPow} (s : Fields) : TimelineChart.Props := {|
  TimelineChart.currentAge := App.curAgeNum s;
  TimelineChart.lastAge := App.lastAgeNum s;
  TimelineChart.retirementAge := App.retirementAgeNum s;
  TimelineChart.penaltyFreeAge := App.penaltyFreeAgeNum s;
  TimelineChart.initialRet := parseNumber (retirementAccounts s) 0;
  TimelineChart.initialNonRet := parseNumber (nonRetirement s) 0;
  TimelineChart.withdrawal := App.withdrawalVal s;
  TimelineChart.inflation := App.inflationPct s;
  TimelineChart.rPre := App.rPrePct s;
  TimelineChart.rPost := App.rPostPct s;
  TimelineChart.pensionAnnual := App.pensionAnnual s;
  TimelineChart.ssAnnual := App.ssAnnual s;
  TimelineChart.ssStartAge := App.ssStartAgeNum s;
  TimelineChart.fixedIncomeInflation := App.fixedIncomeInflationPct s
|}.

(** The contributions the chart simulates with, and its snapshots. *)
Module ChartCall.
Section Call.
Context `{FracPow} `{Rounding}.
Variable s : Fields.

(** The prop [annualNonRetContrib], line 564. *)
Definition annualNonRetContrib : JS.num :=
  JS.add (JS.Fin App.annualNonRetContrib) (App.neededNonretAnnual s).

(** Line 634, over the props of lines 569-571. *)
Definition recAnnualRetContrib : JS.num :=
  JS.add (JS.add (JS.or0 (App.rec401kDollarUsed s))
                 (JS.or0 (App.recEmployerMatchDollarUsed s)))
         (JS.or0 (App.recommendedIra (App.step4 s))).

(** [points], line 635, for contributions that are numbers. *)
Definition points : option (list TimelineChart.Point) :=
  match recAnnualRetContrib, annualNonRetContrib with
  | JS.Fin annualRet, JS.Fin annualNonRet =>
      Some (TimelineChart.simulatePoints (chartProps s) annualRet annualNonRet)
  | _, _ => None
  end.

End Call.
End ChartCall.

(** ** The geometry of the chart, lines 679-799 *)

(** The index of the snapshot under the pointer, the horizontal position
    of a snapshot and the vertical axis.  The width of the chart is the
    state [width] of the component.  The fallback of [chooseStep] takes a
    logarithm; the development is parametric in its value ([Log10Step]).
    Left out: the strings of the paths and of the labels. *)

Module ChartGeometry.

(** Lines 754-755. *)
Definition height : Q := 260.
Definition pad : Q := 40.

(** [Math.round]: the nearest whole number, a half rounded up. *)
Definition Math_round (v : Q) : Q := inject_Z (Qfloor (v + (1 # 2))).

(** [a >= b] and [a <= b]. *)
Definition geb (a b : JS.num) : bool :=
  match a, b with
  | JS.NaN, _ | _, JS.NaN => false
  | JS.Fin x, JS.Fin y => y <=? x
  | JS.Inf sa, JS.Inf sb => negb sa || sb
  | JS.Inf sa, JS.Fin _ => negb sa
  | JS.Fin _, JS.Inf sb => sb
  end.

Definition leb (a b : JS.num) : bool := geb b a.

(** [!a]: 0 and [NaN] are falsy. *)
Definition falsy (a : JS.num) : bool :=
  match a with
  | JS.NaN => true
  | JS.Fin x => x =? 0
  | JS.Inf _ => false
  end.

(** [a || 1]. *)
Definition or1 (a : JS.num) : JS.num := if falsy a then JS.Fin 1 else a.

(** [Math.max(...l)]: [-Infinity] for no argument. *)
Definition Math_max_spread (l : list JS.num) : JS.num := fold_left JS.max l (JS.Inf true).

(** Value of [Math.pow(10, Math.floor(Math.log10(max / 4 || 1)))],
    line 788. *)
Class Log10Step := fallbackStep : JS.num -> JS.num.

Section Geometry.
Context `{Log10Step}.

(** The state [width] and [years], line 586. *)
Variables (width years : Q).

(** Lines 683-685 and 725-727: [idx], for the pointer at [mx] and
    [points.length = n]. *)
Definition pointerIndex (mx : Q) (n : nat) : Q :=
  let plotW := Qmax 320 width - pad * 2 in
  let ratio := Qmin 1 (Qmax 0 ((mx - pad) / plotW)) in
  Math_round (ratio * (of_nat n - 1)).

(** Lines 797-798. *)
Definition plotWidth : Q := Qmax 320 width - pad * 2.
Definition x (i : Q) : Q := pad + i / Qmax 1 years * plotWidth.

(** Line 783. *)
Definition candidates : list Q :=
  [100000000; 50000000; 10000000; 5000000; 1000000; 500000; 250000; 100000;
   50000; 25000; 10000; 5000; 1000; 500; 100].

(** Lines 784-789: the loop over the candidates left, then the
    fallback. *)
Fixpoint chooseStep_loop (max : JS.num) (l : list Q) : JS.num :=
  match l with
  | [] => fallbackStep max
  | s :: l' =>
      let ticks := JS.ceil (JS.div max (JS.Fin s)) in
      if geb ticks (JS.Fin 3) && leb ticks (JS.Fin 8)
      then JS.Fin s
      else chooseStep_loop max l'
  end.

(** [chooseStep], lines 781-790. *)
Definition chooseStep (max : JS.num) : JS.num :=
  if falsy max || leb max (JS.Fin 0) then JS.Fin 100000
  else chooseStep_loop max candidates.

Variable points : list TimelineChart.Point.

(** Line 778. *)
Definition maxVal : JS.num :=
  or1 (Math_max_spread
         (map (fun p => JS.Fin (TimelineChart.retBal p + TimelineChart.nonretBal p)) points)).

(** Lines 791-792. *)
Definition step : JS.num := chooseStep maxVal.
Definition yMaxRounded : JS.num := JS.mul (JS.ceil (JS.div maxVal step)) step.

(** Line 799. *)
Definition y (v : Q) : JS.num :=
  JS.sub (JS.Fin (height - pad))
    (JS.mul (JS.div (JS.Fin v) yMaxRounded) (JS.Fin (height - pad * 2))).

End Geometry.

End ChartGeometry.

(** ** The formulas of the specification *)

Module Spec.
Section Series.
Context `{FracPow}.

(** The sum of [f 0], ..., [f (n - 1)]. *)
Fixpoint sum_upto (n : nat) (f : nat -> Q) : Q :=
  match n with
  | O => 0
  | S k => sum_upto k f + f k
  end.

Variables (withdrawal0 g pensionAnnual ssAnnual ssOffsetYears fixedIncomeGrowthRate : Q).

(** The withdrawal year of the discounted withdrawal series. *)
Definition base (t : nat) : Q := withdrawal0 * (1 + g) ^ Z.of_nat t.
Definition pension (t : nat) : Q :=
  pensionAnnual * (1 + fixedIncomeGrowthRate) ^ Z.of_nat t.
Definition ss (t : nat) : Q :=
  if ssOffsetYears <=? of_nat t
  then ssAnnual * Math_pow (1 + fixedIncomeGrowthRate) (of_nat t - ssOffsetYears)
  else 0.
Definition net (t : nat) : Q := Qmax 0 (base t - pension t - ss t).

(** Present value at the discount rate [r] of the years [t < N]. *)
Definition presentValue (N r : Q) : Q :=
  sum_upto (iterations N) (fun t => net t / (1 + r) ^ (Z.of_nat t + 1)).

End Series.

(** Step 1 of the allocation in the words of the specification, over the
    real numbers. *)
Section MatchCapture.
Variables (grossPay L401k matchPct remainingNeed : Q).

Definition employerMatchCap : Q := grossPay * matchPct.
Definition tentative : Q :=
  Qmin (Qmin (Qmin grossPay L401k) employerMatchCap) (remainingNeed / 2).

(** The next whole percent: the least whole number not below [pct]. *)
Definition nextWholePercent (pct : Q) : Q := inject_Z (Qceiling pct).

Definition employeeAmount : Q :=
  if tentative <? L401k
  then Qmin (grossPay * (nextWholePercent (tentative / grossPay * 100) / 100)) L401k
  else tentative.
Definition employerMatchApplied : Q := Qmin employerMatchCap employeeAmount.
Definition remainingAfter : Q :=
  Qmax 0 (remainingNeed - (employeeAmount + employerMatchApplied)).

End MatchCapture.

(** A snapshot of the chart with no negative balance. *)
Definition nonneg_point (pt : TimelineChart.Point) : Prop :=
  0 <= TimelineChart.retBal pt /\ 0 <= TimelineChart.nonretBal pt.

End Spec.

(** ** Concrete inputs *)

(** The initial state of the form (the second arguments of
    [usePersistentState], lines 83-107). *)
Definition defaults : Fields := {|
  currentAge := Some 40;
  retirementAccounts := None;
  nonRetirement := None;
  retirementAge := Some 65;
  lastAge := Some 95;
  penaltyFreeAge := Some (119 # 2);
  withdrawal := Some 50000;
  monthlyPension := Some 0;
  ssStartAge := Some 67;
  monthlySocialSecurity := Some 0;
  fixedIncomeInflation := Some 0;
  inflation := Some 2;
  rPre := Some 6;
  rPost := Some 4;
  iraLimit := Some 7500;
  four01kLimit := Numeral 24500;
  salary := Some 80000;
  bonus := Some 0;
  employerMatchPct := Some 3
|}.

(** A choice of the values of [Math.pow] at fractional exponents, for the
    runs below: none of them raises a number to a fractional power. *)
Definition no_frac : FracPow := fun _ _ => 0.

(** A choice of the fallback step of the chart, for the runs below: none
    of them reaches the fallback. *)
Definition unit_step : ChartGeometry.Log10Step := fun _ => JS.Fin 1.

(** Retirement at the penalty-free age, 65, five years from now, with
    20000 in the non-retirement account and the default rates. *)
Definition retire_at_penalty_free : Fields := {|
  currentAge := Some 60;
  retirementAccounts := None;
  nonRetirement := Some 20000;
  retirementAge := Some 65;
  lastAge := Some 95;
  penaltyFreeAge := Some 65;
  withdrawal := Some 50000;
  monthlyPension := Some 0;
  ssStartAge := Some 67;
  monthlySocialSecurity := Some 0;
  fixedIncomeInflation := Some 0;
  inflation := Some 2;
  rPre := Some 6;
  rPost := Some 4;
  iraLimit := Some 7500;
  four01kLimit := Numeral 24500;
  salary := Some 80000;
  bonus := Some 0;
  employerMatchPct := Some 3
|}.

(** One year before a retirement at the penalty-free age, with 100000 in
    the non-retirement account and a pre-retirement return of -200%. *)
Definition return_below_minus_100 : Fields := {|
  currentAge := Some 64;
  retirementAccounts := None;
  nonRetirement := Some 100000;
  retirementAge := Some 65;
  lastAge := Some 95;
  penaltyFreeAge := Some 65;
  withdrawal := Some 50000;
  monthlyPension := Some 0;
  ssStartAge := Some 67;
  monthlySocialSecurity := Some 0;
  fixedIncomeInflation := Some 0;
  inflation := Some 2;
  rPre := Some (- (200));
  rPost := Some 4;
  iraLimit := Some 7500;
  four01kLimit := Numeral 24500;
  salary := Some 80000;
  bonus := Some 0;
  employerMatchPct := Some 3
|}.

(** Five years before retirement, a five-year horizon, every rate at 0
    and the salary field left empty. *)
Definition salary_cleared : Fields := {|
  currentAge := Some 60;
  retirementAccounts := None;
  nonRetirement := None;
  retirementAge := Some 65;
  lastAge := Some 69;
  penaltyFreeAge := Some (119 # 2);
  withdrawal := Some 25000;
  monthlyPension := Some 0;
  ssStartAge := Some 67;
  monthlySocialSecurity := Some 0;
  fixedIncomeInflation := Some 0;
  inflation := Some 0;
  rPre := Some 0;
  rPost := Some 0;
  iraLimit := Some 7500;
  four01kLimit := Numeral 24500;
  salary := None;
  bonus := Some 0;
  employerMatchPct := Some 3
|}.

(** Retirement at 58, before the penalty-free age of 59.5, five years
    from now, a five-year horizon and every rate at 0. *)
Definition early_retirement : Fields := {|
  currentAge := Some 53;
  retirementAccounts := None;
  nonRetirement := None;
  retirementAge := Some 58;
  lastAge := Some 62;
  penaltyFreeAge := Some (119 # 2);
  withdrawal := Some 50000;
  monthlyPension := Some 0;
  ssStartAge := Some 67;
  monthlySocialSecurity := Some 0;
  fixedIncomeInflation := Some 0;
  inflation := Some 0;
  rPre := Some 0;
  rPost := Some 0;
  iraLimit := Some 7500;
  four01kLimit := Numeral 24500;
  salary := Some 80000;
  bonus := Some 0;
  employerMatchPct := Some 3
|}.

(** [early_retirement] with an employer match of 7 percent. *)
Definition match_seven : Fields := {|
  currentAge := Some 53;
  retirementAccounts := None;
  nonRetirement := None;
  retirementAge := Some 58;
  lastAge := Some 62;
  penaltyFreeAge := Some (119 # 2);
  withdrawal := Some 50000;
  monthlyPension := Some 0;
  ssStartAge := Some 67;
  monthlySocialSecurity := Some 0;
  fixedIncomeInflation := Some 0;
  inflation := Some 0;
  rPre := Some 0;
  rPost := Some 0;
  iraLimit := Some 7500;
  four01kLimit := Numeral 24500;
  salary := Some 80000;
  bonus := Some 0;
  employerMatchPct := Some 7
|}.

(** One year to retirement and two withdrawals of [13622.000000000002],
    no bridge: the additional retirement saving is their sum; half of it is
    35 percent of the pay of 38920 and a little more, as little as the
    doubles can tell. *)
Definition half_need_above_whole_percent : Fields := {|
  currentAge := Some 57;
  retirementAccounts := None;
  nonRetirement := None;
  retirementAge := Some 58;
  lastAge := Some 59;
  penaltyFreeAge := Some 55;
  withdrawal := Some (7488773696782337 # 549755813888);
  monthlyPension := Some 0;
  ssStartAge := Some 67;
  monthlySocialSecurity := Some 0;
  fixedIncomeInflation := Some 0;
  inflation := Some 0;
  rPre := Some 0;
  rPost := Some 0;
  iraLimit := Some 7500;
  four01kLimit := Numeral 24500;
  salary := Some 38920;
  bonus := Some 0;
  employerMatchPct := Some 50
|}.

(** The funds are to last until 60, before the retirement age of 65: the
    horizon is empty. *)
Definition past_horizon : Fields := {|
  currentAge := Some 65;
  retirementAccounts := Some 1000;
  nonRetirement := None;
  retirementAge := Some 65;
  lastAge := Some 60;
  penaltyFreeAge := Some (119 # 2);
  withdrawal := Some 50000;
  monthlyPension := Some 0;
  ssStartAge := Some 67;
  monthlySocialSecurity := Some 0;
  fixedIncomeInflation := Some 0;
  inflation := Some 2;
  rPre := Some 6;
  rPost := Some 4;
  iraLimit := Some 7500;
  four01kLimit := Numeral 24500;
  salary := Some 80000;
  bonus := Some 0;
  employerMatchPct := Some 3
|}.

(** Already retired at 65 with 100000 in the non-retirement account, a
    social-security benefit of 1000 a month that started at 62 and grows
    by 10% a year, every other rate at 0. *)
Definition ss_before_retirement : Fields := {|
  currentAge := Some 65;
  retirementAccounts := None;
  nonRetirement := Some 100000;
  retirementAge := Some 65;
  lastAge := Some 74;
  penaltyFreeAge := Some (119 # 2);
  withdrawal := Some 50000;
  monthlyPension := Some 0;
  ssStartAge := Some 62;
  monthlySocialSecurity := Some 1000;
  fixedIncomeInflation := Some 10;
  inflation := Some 0;
  rPre := Some 0;
  rPost := Some 0;
  iraLimit := Some 7500;
  four01kLimit := Numeral 24500;
  salary := Some 80000;
  bonus := Some 0;
  employerMatchPct := Some 3
|}.

(** Aged 40 with 100000 in the non-retirement account, every rate at 0
    and the retirement-age field left empty (its placeholder reads 65). *)
Definition retirement_age_cleared : Fields := {|
  currentAge := Some 40;
  retirementAccounts := None;
  nonRetirement := Some 100000;
  retirementAge := None;
  lastAge := Some 95;
  penaltyFreeAge := Some (119 # 2);
  withdrawal := Some 50000;
  monthlyPension := Some 0;
  ssStartAge := Some 67;
  monthlySocialSecurity := Some 0;
  fixedIncomeInflation := Some 0;
  inflation := Some 0;
  rPre := Some 0;
  rPost := Some 0;
  iraLimit := Some 7500;
  four01kLimit := Numeral 24500;
  salary := Some 80000;
  bonus := Some 0;
  employerMatchPct := Some 3
|}.

(** The props of the chart for [early_retirement]. *)
Definition early_retirement_chart : TimelineChart.Props := {|
  TimelineChart.currentAge := 53;
  TimelineChart.lastAge := 62;
  TimelineChart.retirementAge := 58;
  TimelineChart.penaltyFreeAge := 119 # 2;
  TimelineChart.initialRet := 0;
  TimelineChart.initialNonRet := 0;
  TimelineChart.withdrawal := 50000;
  TimelineChart.inflation := 0;
  TimelineChart.rPre := 0;
  TimelineChart.rPost := 0;
  TimelineChart.pensionAnnual := 0;
  TimelineChart.ssAnnual := 0;
  TimelineChart.ssStartAge := 67;
  TimelineChart.fixedIncomeInflation := 0
|}.

(** A chart that starts one year before retirement with 100000 in each
    account and a pre-retirement return of -200%. *)
Definition return_below_minus_100_chart : TimelineChart.Props := {|
  TimelineChart.currentAge := 64;
  TimelineChart.lastAge := 66;
  TimelineChart.retirementAge := 65;
  TimelineChart.penaltyFreeAge := 65;
  TimelineChart.initialRet := 100000;
  TimelineChart.initialNonRet := 100000;
  TimelineChart.withdrawal := 50000;
  TimelineChart.inflation := 2 / 100;
  TimelineChart.rPre := - (2);
  TimelineChart.rPost := 4 / 100;
  TimelineChart.pensionAnnual := 0;
  TimelineChart.ssAnnual := 0;
  TimelineChart.ssStartAge := 67;
  TimelineChart.fixedIncomeInflation := 0
|}.

(** As [salary_cleared], with a 401(k) limit of 10000: the need left after
    the individual account fills the limit. *)
Definition salary_cleared_at_limit : Fields := {|
  currentAge := Some 60;
  retirementAccounts := None;
  nonRetirement := None;
  retirementAge := Some 65;
  lastAge := Some 69;
  penaltyFreeAge := Some (119 # 2);
  withdrawal := Some 25000;
  monthlyPension := Some 0;
  ssStartAge := Some 67;
  monthlySocialSecurity := Some 0;
  fixedIncomeInflation := Some 0;
  inflation := Some 0;
  rPre := Some 0;
  rPost := Some 0;
  iraLimit := Some 7500;
  four01kLimit := Numeral 10000;
  salary := None;
  bonus := Some 0;
  employerMatchPct := Some 3
|}.

(** * Properties *)

(** ** Tests and numbers *)

(** Replaces every minimum and maximum by a number with its two cases. *)
Ltac cases_minmax :=
  repeat match goal with
  | |- context [Qmin ?a ?b] =>
      let Hs := fresh "Hs" in let m := fresh "m" in
      pose proof (Q.min_spec a b) as Hs; set (m := Qmin a b) in *; clearbody m;
      destruct Hs as [[? ?]|[? ?]]
  | |- context [Qmax ?a ?b] =>
      let Hs := fresh "Hs" in let m := fresh "m" in
      pose proof (Q.max_spec a b) as Hs; set (m := Qmax a b) in *; clearbody m;
      destruct Hs as [[? ?]|[? ?]]
  | H : context [Qmin ?a ?b] |- _ =>
      let Hs := fresh "Hs" in let m := fresh "m" in
      pose proof (Q.min_spec a b) as Hs; set (m := Qmin a b) in *; clearbody m;
      destruct Hs as [[? ?]|[? ?]]
  | H : context [Qmax ?a ?b] |- _ =>
      let Hs := fresh "Hs" in let m := fresh "m" in
      pose proof (Q.max_spec a b) as Hs; set (m := Qmax a b) in *; clearbody m;
      destruct Hs as [[? ?]|[? ?]]
  end.

Lemma Qltb_lt (a b : Q) : (a <? b) = true <-> a < b.
Proof.
  unfold Qltb. rewrite negb_true_iff, <- not_true_iff_false, Qle_bool_iff.
  split; [apply Qnot_le_lt | apply Qlt_not_le].
Qed.

Lemma Qltb_ge (a b : Q) : (a <? b) = false <-> b <= a.
Proof.
  unfold Qltb. rewrite negb_false_iff, Qle_bool_iff. reflexivity.
Qed.

Lemma Qleb_le (a b : Q) : (a <=? b) = true <-> a <= b.
Proof. unfold Qleb. apply Qle_bool_iff. Qed.

Lemma Qleb_gt (a b : Q) : (a <=? b) = false <-> b < a.
Proof.
  unfold Qleb. rewrite <- not_true_iff_false, Qle_bool_iff.
  split; [apply Qnot_le_lt | apply Qlt_not_le].
Qed.

Lemma of_nat_S (t : nat) : of_nat (S t) == of_nat t + 1.
Proof.
  unfold of_nat. rewrite Nat2Z.inj_succ, <- Z.add_1_r, inject_Z_plus. reflexivity.
Qed.

Lemma of_nat_nonneg (t : nat) : 0 <= of_nat t.
Proof.
  unfold of_nat. change 0 with (inject_Z 0). rewrite <- Zle_Qle. lia.
Qed.

Section PowWhole.
Context `{FracPow}.

Lemma Math_pow_whole (b : Q) (z : Z) : Math_pow b (inject_Z z) = b ^ z.
Proof.
  unfold Math_pow, is_whole. rewrite Qfloor_Z.
  now rewrite (proj2 (Qeq_bool_iff _ _) (Qeq_refl _)).
Qed.

Lemma Math_pow_of_nat (b : Q) (t : nat) : Math_pow b (of_nat t) = b ^ Z.of_nat t.
Proof. apply Math_pow_whole. Qed.

Lemma Math_pow_of_nat_succ (b : Q) (t : nat) :
  Math_pow b (of_nat t + 1) = b ^ (Z.of_nat t + 1).
Proof.
  unfold Math_pow, is_whole, of_nat.
  assert (E : Qfloor (inject_Z (Z.of_nat t) + 1) = (Z.of_nat t + 1)%Z).
  { unfold Qfloor, inject_Z, Qplus; simpl. rewrite Z.div_1_r. lia. }
  rewrite E.
  assert (W : (inject_Z (Z.of_nat t + 1) =? inject_Z (Z.of_nat t) + 1) = true).
  { apply Qeq_bool_iff. rewrite inject_Z_plus. reflexivity. }
  now rewrite W.
Qed.

End PowWhole.

(** ** Floating point *)

(** [double] on a few numbers: 0.07 and 0.07 * 100 are not the numbers
    their numerals suggest. *)
Example double_values :
  double 1 == 1 /\ double 100 == 100 /\ double (1 # 2) == 1 # 2
  /\ double (7 / 100) == 1261007895663739 # 18014398509481984
  /\ double (double (7 / 100) * 100) == 7 + (1 # 1125899906842624)
  /\ double (3 / 100) == 1080863910568919 # 36028797018963968
  /\ double (double (3 / 100) * 100) == 3.
Proof. vm_compute. repeat split. Qed.

Lemma nearest_even_error (y : Q) : Qabs (inject_Z (nearest_even y) - y) <= 1 # 2.
Proof.
  unfold nearest_even.
  pose proof (Qfloor_le y) as Hl. pose proof (Qlt_floor y) as Hu.
  rewrite inject_Z_plus in Hu. change (inject_Z 1) with 1 in Hu.
  set (f := Qfloor y) in *. clearbody f.
  apply Qabs_Qle_condition.
  destruct (Qcompare (y - inject_Z f) (1 # 2)) eqn:E.
  - apply Qeq_alt in E. destruct (Z.even f).
    + split; lra.
    + rewrite inject_Z_plus. change (inject_Z 1) with 1. split; lra.
  - apply Qlt_alt in E. split; lra.
  - apply Qgt_alt in E. rewrite inject_Z_plus. change (inject_Z 1) with 1. split; lra.
Qed.

Lemma nearest_even_nonneg (y : Q) : 0 <= y -> (0 <= nearest_even y)%Z.
Proof.
  intros Hy. unfold nearest_even.
  assert (Hf : (0 <= Qfloor y)%Z).
  { change 0%Z with (Qfloor 0). now apply Qfloor_resp_le. }
  destruct (Qcompare _ _); [destruct (Z.even _)| |]; lia.
Qed.

(** The exponent is not above the number. *)
Lemma exponent_le (x : Q) : ~ x == 0 -> 2 ^ exponent x <= Qabs x.
Proof.
  intros Hx. unfold exponent.
  set (ln := Z.log2 (Z.abs (Qnum x))). set (ld := Z.log2 (Z.pos (Qden x))).
  destruct (Qle_bool (2 ^ (ln - ld)) (Qabs x)) eqn:E.
  - now apply Qle_bool_iff.
  - assert (Hn : (0 < Z.abs (Qnum x))%Z).
    { destruct x as [n d]. unfold Qeq in Hx. simpl in *. lia. }
    destruct (Z.log2_spec _ Hn) as [Hn1 _]. fold ln in Hn1.
    destruct (Z.log2_spec (Z.pos (Qden x)) ltac:(lia)) as [_ Hd2]. fold ld in Hd2.
    assert (Hln : (0 <= ln)%Z) by apply Z.log2_nonneg.
    assert (Hld : (0 <= ld)%Z) by apply Z.log2_nonneg.
    replace (ln - ld - 1)%Z with (ln - (ld + 1))%Z by lia.
    rewrite Qpower_minus by discriminate.
    change 2 with (inject_Z 2).
    rewrite <- !Zpower_Qpower by lia.
    replace (Z.succ ld) with (ld + 1)%Z in Hd2 by lia.
    set (A := (2 ^ ln)%Z) in *. set (B := (2 ^ (ld + 1))%Z) in *.
    assert (HB : (0 < B)%Z) by (subst B; apply Z.pow_pos_nonneg; lia).
    clearbody A B.
    apply Qle_shift_div_r.
    + change 0 with (inject_Z 0). rewrite <- Zlt_Qlt. exact HB.
    + destruct x as [n d]. unfold Qle, Qabs, Qmult, inject_Z. simpl in *. nia.
Qed.

(** The number is below the next power of two. *)
Lemma exponent_lt (x : Q) : ~ x == 0 -> Qabs x < 2 ^ (exponent x + 1).
Proof.
  intros Hx. unfold exponent.
  set (ln := Z.log2 (Z.abs (Qnum x))). set (ld := Z.log2 (Z.pos (Qden x))).
  destruct (Qle_bool (2 ^ (ln - ld)) (Qabs x)) eqn:E.
  - assert (Hn : (0 < Z.abs (Qnum x))%Z).
    { destruct x as [n d]. unfold Qeq in Hx. simpl in *. lia. }
    destruct (Z.log2_spec _ Hn) as [_ Hn2]. fold ln in Hn2.
    destruct (Z.log2_spec (Z.pos (Qden x)) ltac:(lia)) as [Hd1 _]. fold ld in Hd1.
    assert (Hln : (0 <= ln)%Z) by apply Z.log2_nonneg.
    assert (Hld : (0 <= ld)%Z) by apply Z.log2_nonneg.
    replace (ln - ld + 1)%Z with (ln + 1 - ld)%Z by lia.
    rewrite Qpower_minus by discriminate.
    change 2 with (inject_Z 2).
    rewrite <- !Zpower_Qpower by lia.
    replace (Z.succ ln) with (ln + 1)%Z in Hn2 by lia.
    set (A := (2 ^ (ln + 1))%Z) in *. set (B := (2 ^ ld)%Z) in *.
    assert (HB : (0 < B)%Z) by (subst B; apply Z.pow_pos_nonneg; lia).
    clearbody A B.
    apply Qlt_shift_div_l.
    + change 0 with (inject_Z 0). rewrite <- Zlt_Qlt. exact HB.
    + destruct x as [n d]. unfold Qlt, Qabs, Qmult, inject_Z. simpl in *. nia.
  - replace (ln - ld - 1 + 1)%Z with (ln - ld)%Z by lia.
    apply Qnot_le_lt. intros H. apply Qle_bool_iff in H. congruence.
Qed.

(** The relative error of [double] is at most the unit roundoff. *)
Lemma double_error (x : Q) : Qabs (double x - x) <= Qabs x * unit_roundoff.
Proof.
  unfold double, unit_roundoff. destruct (Qeq_bool x 0) eqn:E0.
  - apply Qeq_bool_iff in E0. rewrite E0. discriminate.
  - assert (Hx : ~ x == 0) by (intros E; apply Qeq_bool_iff in E; congruence).
    pose proof (exponent_le x Hx) as He.
    set (e := exponent x) in *. clearbody e.
    assert (Hu : 2 ^ (e - 52) == 2 ^ e * (1 # 4503599627370496)).
    { unfold Z.sub. rewrite Qpower_plus by discriminate. reflexivity. }
    assert (Hp : 0 < 2 ^ e) by (apply Qpower_0_lt; reflexivity).
    set (u := 2 ^ (e - 52)) in *.
    assert (Hu0 : 0 < u) by (rewrite Hu; lra).
    pose proof (nearest_even_error (x / u)) as Hn.
    set (m := inject_Z (nearest_even (x / u))) in *. clearbody m.
    assert (Ex : m * u - x == (m - x / u) * u) by (field; lra).
    rewrite Ex, Qabs_Qmult, (Qabs_pos u) by lra.
    assert (H1 : Qabs (m - x / u) * u <= (1 # 2) * u).
    { apply Qmult_le_compat_r; lra. }
    clearbody u. set (p := 2 ^ e) in *. clearbody p.
    set (a := Qabs x) in *. clearbody a. lra.
Qed.

Lemma double_nonneg (x : Q) : 0 <= x -> 0 <= double x.
Proof.
  intros Hx. unfold double. destruct (Qeq_bool x 0); [apply Qle_refl|].
  assert (Hu : 0 < 2 ^ (exponent x - 52)) by (apply Qpower_0_lt; reflexivity).
  set (u := 2 ^ (exponent x - 52)) in *. clearbody u.
  apply Qmult_le_0_compat; [|lra].
  change 0 with (inject_Z 0). rewrite <- Zle_Qle.
  apply nearest_even_nonneg. apply Qle_shift_div_l; lra.
Qed.

Lemma double_zero (x : Q) : x == 0 -> double x = 0.
Proof. intros E. unfold double. apply Qeq_bool_iff in E. now rewrite E. Qed.

(** The rounding of the source on a number that is not negative. *)
Lemma binary64_accurate (x : Q) :
  0 <= x ->
  0 <= fl x /\ x * (1 - unit_roundoff) <= fl x /\ fl x <= x * (1 + unit_roundoff).
Proof.
  intros Hx. change (fl x) with (double x).
  pose proof (double_error x) as He. pose proof (double_nonneg x Hx) as Hn.
  rewrite (Qabs_pos x) in He by exact Hx.
  apply Qabs_Qle_condition in He. unfold unit_roundoff in *. repeat split; lra.
Qed.

(** ** Loops *)

Lemma iterations_guard (N : Q) (t : nat) : (t < iterations N)%nat -> of_nat t < N.
Proof.
  unfold iterations, of_nat. intros Ht.
  apply Qle_lt_trans with (inject_Z (Qceiling N - 1)).
  - rewrite <- Zle_Qle. lia.
  - apply Qceiling_lt.
Qed.

Lemma iterations_exit (N : Q) : N <= of_nat (iterations N).
Proof.
  unfold iterations, of_nat.
  apply Qle_trans with (inject_Z (Qceiling N)).
  - apply Qle_ceiling.
  - rewrite <- Zle_Qle. lia.
Qed.

(** A whole bound [n] allows the counters [0], ..., [n - 1]. *)
Lemma iterations_whole (n : nat) : iterations (of_nat n) = n.
Proof.
  unfold iterations, of_nat. rewrite Qceiling_Z. apply Nat2Z.id.
Qed.

(** Within its fuel the loop is the left fold of its body over the
    counters it visits. *)
Lemma for_lt_fold {A : Type} (N : Q) (body : nat -> A -> A) :
  forall fuel t acc,
    (t + fuel <= iterations N)%nat ->
    for_lt fuel t N body acc = fold_left (fun a i => body i a) (seq t fuel) acc.
Proof.
  induction fuel as [|fuel IH]; intros t acc Hb; simpl.
  - reflexivity.
  - rewrite (proj2 (Qltb_lt _ _)) by (apply iterations_guard; lia).
    apply IH. lia.
Qed.

Lemma for_lt_iterations {A : Type} (N : Q) (body : nat -> A -> A) (acc : A) :
  for_lt (iterations N) 0 N body acc
  = fold_left (fun a i => body i a) (seq 0 (iterations N)) acc.
Proof. apply for_lt_fold. lia. Qed.

(** The loop leaves by its guard: more fuel changes nothing. *)
Lemma for_lt_exit {A : Type} (N : Q) (body : nat -> A -> A) :
  forall fuel t acc, (iterations N <= t)%nat -> for_lt fuel t N body acc = acc.
Proof.
  intros [|fuel] t acc Ht; simpl; [reflexivity|].
  rewrite (proj2 (Qltb_ge _ _)); [reflexivity|].
  apply Qle_trans with (of_nat (iterations N)); [apply iterations_exit|].
  unfold of_nat. rewrite <- Zle_Qle. lia.
Qed.

Lemma for_lt_fuel {A : Type} (N : Q) (body : nat -> A -> A) :
  forall fuel extra t acc,
    (t + fuel = iterations N)%nat ->
    for_lt (fuel + extra) t N body acc = for_lt fuel t N body acc.
Proof.
  induction fuel as [|fuel IH]; intros extra t acc Hb; simpl.
  - apply for_lt_exit. lia.
  - destruct (of_nat t <? N); [|reflexivity]. apply IH. lia.
Qed.

Lemma fold_sum_upto (term : nat -> Q) (body : nat -> Q -> Q) :
  (forall t pv, body t pv = pv + term t) ->
  forall n, fold_left (fun a i => body i a) (seq 0 n) 0 = Spec.sum_upto n term.
Proof.
  intros Hbody. induction n as [|n IH].
  - reflexivity.
  - rewrite seq_S, fold_left_app. simpl. rewrite IH. apply Hbody.
Qed.

(** ** The corpus sizer *)

(** The initial state of the form: 25 years to retirement, a horizon of
    31 years, no early years, a pay of 80000 matched up to 2400. *)
Example defaults_parsed :
  App.yearsToRetire defaults == 25
  /\ App.yearsInRetirement defaults == 31
  /\ App.earlyYears defaults == 0
  /\ App.ssOffset defaults == 2
  /\ App.grossPay defaults == 80000
  /\ App.employerMatchCap defaults == 2400
  /\ App.employeeCapDollar defaults == 24500.
Proof. repeat split. Qed.

Section Corpus.
Context `{FracPow}.

Lemma calculate_body_term (w g p ssA off f r : Q) (t : nat) (pv : Q) :
  calculate_body w r g p ssA off f t pv
  = pv + Spec.net w g p ssA off f t / (1 + r) ^ (Z.of_nat t + 1).
Proof.
  unfold calculate_body, Spec.net, Spec.base, Spec.pension, Spec.ss.
  now rewrite !Math_pow_of_nat, Math_pow_of_nat_succ.
Qed.

Lemma calculate_targetCorpus (a n N w rPre r g p ssA off f : Q) :
  0 < N ->
  Result.targetCorpus (calculate a n N w rPre r g p ssA off f)
  = Spec.presentValue w g p ssA off f N r.
Proof.
  intros HN. unfold calculate.
  rewrite (proj2 (Qleb_gt _ _) HN).
  assert (E : for_lt (iterations N) 0 N (calculate_body w r g p ssA off f) 0
              = Spec.presentValue w g p ssA off f N r).
  { rewrite for_lt_iterations. unfold Spec.presentValue.
    apply fold_sum_upto. intros. apply calculate_body_term. }
  destruct (n =? 0); simpl; exact E.
Qed.

Lemma calculate_no_horizon (a n N w rPre r g p ssA off f : Q) :
  N <= 0 ->
  calculate a n N w rPre r g p ssA off f
  = {| Result.targetCorpus := 0; Result.annual := 0; Result.lumpNeeded := None |}.
Proof.
  intros HN. unfold calculate. now rewrite (proj2 (Qleb_le _ _) HN).
Qed.

End Corpus.

(** C1.  With the horizon [N = max(0, lastAge - retirementAge + 1)]: when
    [N > 0] the target corpus returned by the corpus sizer is the sum, over
    the years [t = 0, 1, ...] below [N] (for a whole [N], the years
    [0], ..., [N - 1]: [iterations_whole]), of
    [max(0, withdrawal0*(1+g)^t - pensionAnnual*(1+f)^t - ss(t))]
    divided by [(1+rPost)^(t+1)], where [ss(t)] is
    [ssAnnual*(1+f)^(t-ssOffset)] from [t >= ssOffset] on and 0 before;
    when [N <= 0] the target corpus is 0. *)
Theorem C1_target_corpus_is_present_value `{FracPow} (s : Fields) :
  let N := Qmax 0 (App.lastAgeNum s - App.retirementAgeNum s + 1) in
  (0 < N ->
   App.targetCorpus s
   = Spec.sum_upto (iterations N)
       (fun t =>
          Qmax 0 (App.withdrawalVal s * (1 + App.inflationPct s) ^ Z.of_nat t
                  - App.pensionAnnual s * (1 + App.fixedIncomeInflationPct s) ^ Z.of_nat t
                  - (if App.ssOffset s <=? of_nat t
                     then App.ssAnnual s
                          * Math_pow (1 + App.fixedIncomeInflationPct s)
                                     (of_nat t - App.ssOffset s)
                     else 0))
          / (1 + App.rPostPct s) ^ (Z.of_nat t + 1)))
  /\ (N <= 0 -> App.targetCorpus s = 0).
Proof.
  intros N. split; intros HN.
  - unfold App.targetCorpus, App.calculated.
    rewrite calculate_targetCorpus by exact HN. reflexivity.
  - unfold App.targetCorpus, App.calculated.
    rewrite calculate_no_horizon by exact HN. reflexivity.
Qed.

Lemma C1_witness :
  (0 < Qmax 0 (App.lastAgeNum early_retirement - App.retirementAgeNum early_retirement + 1)
   /\ @App.targetCorpus no_frac early_retirement == 250000)
  /\ (Qmax 0 (App.lastAgeNum past_horizon - App.retirementAgeNum past_horizon + 1) <= 0
      /\ @App.targetCorpus no_frac past_horizon = 0).
Proof.
  split; (split; [vm_compute; first [reflexivity | discriminate]|]).
  - rewrite (proj1 (@C1_target_corpus_is_present_value no_frac early_retirement) eq_refl).
    vm_compute. reflexivity.
  - apply (proj2 (@C1_target_corpus_is_present_value no_frac past_horizon)).
    discriminate.
Defined.

(** ** The annuity solver *)

Lemma Qdiv_div (a b c : Q) : a / (b / c) == a * c / b.
Proof.
  unfold Qdiv. rewrite Qinv_mult_distr, Qinv_involutive. ring.
Qed.

(** C2 (amended).  For every input with a horizon [N > 0], with
    [FV = max(0, targetCorpus - currentAssets*(1+rPre)^n)]: when [n = 0]
    the result has a required annual saving of 0 and a lump-sum shortfall
    [max(0, targetCorpus - currentAssets)]; when [n > 0] and [rPre > 0]
    the annual saving is [FV * rPre / ((1+rPre)^n - 1)]; when [n > 0] and
    [rPre <= 0] it is [FV / n]. *)
Theorem C2_annuity_solver `{FracPow}
    (currentAssets n N w rPre r g p ssA off f : Q) :
  0 < N ->
  let res := calculate currentAssets n N w rPre r g p ssA off f in
  let FV := Qmax 0 (Result.targetCorpus res - currentAssets * Math_pow (1 + rPre) n) in
  (n == 0 ->
   Result.annual res = 0
   /\ Result.lumpNeeded res = Some (Qmax 0 (Result.targetCorpus res - currentAssets)))
  /\ (0 < n -> 0 < rPre ->
      Result.annual res == FV * rPre / (Math_pow (1 + rPre) n - 1))
  /\ (0 < n -> rPre <= 0 -> Result.annual res = FV / n).
Proof.
  intros HN res FV. subst res FV. unfold calculate.
  rewrite (proj2 (Qleb_gt _ _) HN).
  destruct (n =? 0) eqn:En; simpl.
  - apply Qeq_bool_iff in En. repeat split.
    + intros Hn _. rewrite En in Hn. discriminate Hn.
    + intros Hn _. rewrite En in Hn. discriminate Hn.
  - assert (Hne : ~ n == 0) by (intros E; apply Qeq_bool_iff in E; congruence).
    split; [intros E; contradiction|]. split.
    + intros _ Hr. rewrite (proj2 (Qltb_lt _ _) Hr). apply Qdiv_div.
    + intros _ Hr. rewrite (proj2 (Qltb_ge _ _) Hr). reflexivity.
Qed.

Lemma C2_witness :
  (0 < 3 /\ 0 == 0
   /\ Result.annual (@calculate no_frac 1000 0 3 50000 (6 / 100) 0 0 0 0 2 0) = 0
   /\ exists lump,
        Result.lumpNeeded (@calculate no_frac 1000 0 3 50000 (6 / 100) 0 0 0 0 2 0)
        = Some lump /\ lump == 149000)
  /\ (0 < 2 /\ 0 < 2 /\ 0 < 6 / 100
      /\ Result.annual (@calculate no_frac 1000 2 2 50000 (6 / 100) 0 0 0 0 2 0)
         == Qmax 0 (100000 - 1000 * (1 + 6 / 100) ^ 2) * (6 / 100) / ((1 + 6 / 100) ^ 2 - 1))
  /\ (0 < 2 /\ 0 < 2 /\ 0 <= 0
      /\ Result.annual (@calculate no_frac 1000 2 2 50000 0 0 0 0 0 2 0) == 49500).
Proof.
  split; [|split].
  - split; [reflexivity|]. split; [reflexivity|].
    destruct (proj1 (@C2_annuity_solver no_frac 1000 0 3 50000 (6 / 100) 0 0 0 0 2 0 eq_refl)
                eq_refl) as [Ea El].
    split; [exact Ea|]. eexists. split; [exact El|]. vm_compute. reflexivity.
  - split; [reflexivity|]. split; [reflexivity|]. split; [reflexivity|].
    rewrite (proj1 (proj2 (@C2_annuity_solver no_frac 1000 2 2 50000 (6 / 100) 0 0 0 0 2 0
                             eq_refl)) eq_refl eq_refl).
    vm_compute. reflexivity.
  - split; [reflexivity|]. split; [reflexivity|]. split; [discriminate|].
    rewrite (proj2 (proj2 (@C2_annuity_solver no_frac 1000 2 2 50000 0 0 0 0 0 2 0 eq_refl))
               eq_refl (Qle_refl 0)).
    vm_compute. reflexivity.
Defined.

(** C2 as stated fails when the horizon is empty: with [N = 0] and
    [n = 0] the object returned has no lump-sum shortfall. *)
Lemma C2_counterexample :
  let res := @calculate no_frac 1000 0 0 50000 (6 / 100) (4 / 100) (2 / 100) 0 0 2 0 in
  ~ (Result.annual res = 0
     /\ Result.lumpNeeded res = Some (Qmax 0 (Result.targetCorpus res - 1000))).
Proof.
  intros res [_ E]. discriminate E.
Qed.

(** ** Monotonicity of the corpus *)

Lemma sum_upto_le (f f' : nat -> Q) :
  (forall t, f t <= f' t) -> forall n, Spec.sum_upto n f <= Spec.sum_upto n f'.
Proof.
  intros Hle. induction n as [|n IH]; simpl.
  - apply Qle_refl.
  - apply Qplus_le_compat; [exact IH | apply Hle].
Qed.

Lemma Qdiv_le_compat_pos (a b d : Q) : 0 < d -> a <= b -> a / d <= b / d.
Proof.
  intros Hd Hab. unfold Qdiv. apply Qmult_le_compat_r; [exact Hab|].
  apply Qlt_le_weak, Qinv_lt_0_compat, Hd.
Qed.

Section Monotone.
Context `{FracPow}.

Lemma net_le_withdrawal (w1 w2 g p ssA off f : Q) (t : nat) :
  0 <= 1 + g -> w1 <= w2 ->
  Spec.net w1 g p ssA off f t <= Spec.net w2 g p ssA off f t.
Proof.
  intros Hg Hw. unfold Spec.net, Spec.base.
  apply Q.max_le_compat_l.
  apply Qplus_le_compat; [|apply Qle_refl].
  apply Qplus_le_compat; [|apply Qle_refl].
  apply Qmult_le_compat_r; [exact Hw | apply Qpower_0_le, Hg].
Qed.

Lemma net_le_pension (w g p1 p2 ssA off f : Q) (t : nat) :
  0 <= 1 + f -> p1 <= p2 ->
  Spec.net w g p2 ssA off f t <= Spec.net w g p1 ssA off f t.
Proof.
  intros Hf Hp. unfold Spec.net, Spec.pension.
  apply Q.max_le_compat_l.
  apply Qplus_le_compat; [|apply Qle_refl].
  apply Qplus_le_compat; [apply Qle_refl|].
  apply Qopp_le_compat.
  apply Qmult_le_compat_r; [exact Hp | apply Qpower_0_le, Hf].
Qed.

Lemma presentValue_le (net1 net2 : nat -> Q) (N r : Q) :
  0 < 1 + r -> (forall t, net1 t <= net2 t) ->
  Spec.sum_upto (iterations N) (fun t => net1 t / (1 + r) ^ (Z.of_nat t + 1))
  <= Spec.sum_upto (iterations N) (fun t => net2 t / (1 + r) ^ (Z.of_nat t + 1)).
Proof.
  intros Hr Hnet. apply sum_upto_le. intros t.
  apply Qdiv_le_compat_pos; [apply Qpower_0_lt, Hr | apply Hnet].
Qed.

End Monotone.

(** C8 (amended).  When the discount factor [1 + rPost] is positive:
    with a growth factor [1 + g >= 0], increasing [withdrawal0] never
    decreases the target corpus; with a fixed-income growth factor
    [1 + fixedIncomeInflation >= 0], increasing [pensionAnnual] never
    increases it.  The rates themselves may be negative. *)
Theorem C8_corpus_monotone `{FracPow} (a n N rPre r g ssA off f : Q) :
  0 < 1 + r ->
  (forall w1 w2 p, 0 <= 1 + g -> w1 <= w2 ->
     Result.targetCorpus (calculate a n N w1 rPre r g p ssA off f)
     <= Result.targetCorpus (calculate a n N w2 rPre r g p ssA off f))
  /\ (forall w p1 p2, 0 <= 1 + f -> p1 <= p2 ->
        Result.targetCorpus (calculate a n N w rPre r g p2 ssA off f)
        <= Result.targetCorpus (calculate a n N w rPre r g p1 ssA off f)).
Proof.
  intros Hr.
  destruct (Qlt_le_dec 0 N) as [HN|HN].
  - split; intros; rewrite !calculate_targetCorpus by exact HN;
      unfold Spec.presentValue; apply presentValue_le; try exact Hr; intros t.
    + now apply net_le_withdrawal.
    + now apply net_le_pension.
  - split; intros; rewrite !calculate_no_horizon by exact HN; apply Qle_refl.
Qed.

Lemma C8_witness :
  0 < 1 + - (1 # 2)
  /\ Result.targetCorpus
       (@calculate no_frac 0 25 31 40000 (6 / 100) (- (1 # 2)) (- (1 # 10)) 12000 0 2 (- (1 # 20)))
     <= Result.targetCorpus
          (@calculate no_frac 0 25 31 50000 (6 / 100) (- (1 # 2)) (- (1 # 10)) 12000 0 2 (- (1 # 20)))
  /\ Result.targetCorpus
       (@calculate no_frac 0 25 31 50000 (6 / 100) (- (1 # 2)) (- (1 # 10)) 24000 0 2 (- (1 # 20)))
     <= Result.targetCorpus
          (@calculate no_frac 0 25 31 50000 (6 / 100) (- (1 # 2)) (- (1 # 10)) 12000 0 2 (- (1 # 20))).
Proof.
  split; [reflexivity|].
  split.
  - apply (proj1 (@C8_corpus_monotone no_frac 0 25 31 (6 / 100) (- (1 # 2)) (- (1 # 10)) 0 2
                    (- (1 # 20)) eq_refl)); discriminate.
  - apply (proj2 (@C8_corpus_monotone no_frac 0 25 31 (6 / 100) (- (1 # 2)) (- (1 # 10)) 0 2
                    (- (1 # 20)) eq_refl)); discriminate.
Defined.

(** C8 as stated fails for a discount rate below -100%: at
    [rPost = -2] a one-year horizon discounts by [(1 + rPost)^1 = -1], so
    a larger withdrawal gives a smaller corpus and a larger pension a
    larger one.  It also fails for a fixed-income growth below -100%: at
    [fixedIncomeInflation = -2] the pension of the second year is
    [-pensionAnnual], so with a withdrawal of 1000 a larger pension gives
    a larger corpus. *)
Lemma C8_counterexample :
  ~ (Result.targetCorpus (@calculate no_frac 0 0 1 50000 (6 / 100) (- (2)) (2 / 100) 0 0 0 0)
     <= Result.targetCorpus (@calculate no_frac 0 0 1 60000 (6 / 100) (- (2)) (2 / 100) 0 0 0 0))
  /\ ~ (Result.targetCorpus (@calculate no_frac 0 0 1 50000 (6 / 100) (- (2)) (2 / 100) 12000 0 0 0)
        <= Result.targetCorpus (@calculate no_frac 0 0 1 50000 (6 / 100) (- (2)) (2 / 100) 0 0 0 0))
  /\ ~ (Result.targetCorpus
          (@calculate no_frac 0 0 2 1000 (6 / 100) (4 / 100) (2 / 100) 24000 0 0 (- (2)))
        <= Result.targetCorpus
             (@calculate no_frac 0 0 2 1000 (6 / 100) (4 / 100) (2 / 100) 12000 0 0 (- (2)))).
Proof.
  split; [|split]; intros Hle; vm_compute in Hle; apply Hle; reflexivity.
Qed.

(** ** Bridge funding *)

Lemma iterations_nonpos (N : Q) : N <= 0 -> iterations N = 0%nat.
Proof.
  intros HN. unfold iterations.
  apply Qceiling_resp_le in HN. change (Qceiling 0) with 0%Z in HN. lia.
Qed.

Lemma for_lt_invariant {A : Type} (P : A -> Prop) (N : Q) (body : nat -> A -> A) :
  (forall t a, P a -> P (body t a)) ->
  forall fuel t acc, P acc -> P (for_lt fuel t N body acc).
Proof.
  intros Hbody. induction fuel as [|fuel IH]; intros t acc Hacc; simpl.
  - exact Hacc.
  - destruct (of_nat t <? N); [apply IH, Hbody, Hacc | exact Hacc].
Qed.

Section Bridge.
Context `{FracPow}.
Variable s : Fields.

Lemma pvEarly_body_term (t : nat) (pv : Q) :
  App.pvEarly_body s t pv
  = pv + Spec.net (App.withdrawalVal s) (App.inflationPct s) (App.pensionAnnual s)
           (App.ssAnnual s) (App.ssOffset s) (App.fixedIncomeInflationPct s) t
         / (1 + App.rPostPct s) ^ (Z.of_nat t + 1).
Proof.
  unfold App.pvEarly_body, App.g, App.rPostVal,
    Spec.net, Spec.base, Spec.pension, Spec.ss.
  now rewrite !Math_pow_of_nat, Math_pow_of_nat_succ.
Qed.

Lemma fallback_body_term (t : nat) (pv : Q) :
  App.fallback_body s t pv
  = pv + Spec.net (App.withdrawalVal s) (App.inflationPct s) (App.pensionAnnual s)
           (App.ssAnnual s) (App.ssOffset s) (App.fixedIncomeInflationPct s) t
         / (1 + App.rPostPct s) ^ (Z.of_nat t + 1).
Proof.
  unfold App.fallback_body, App.g, App.rPostVal,
    Spec.net, Spec.base, Spec.pension, Spec.ss.
  now rewrite !Math_pow_of_nat, Math_pow_of_nat_succ.
Qed.

Lemma earlyNeeded_main_series :
  App.earlyNeeded_main s
  = Spec.presentValue (App.withdrawalVal s) (App.inflationPct s) (App.pensionAnnual s)
      (App.ssAnnual s) (App.ssOffset s) (App.fixedIncomeInflationPct s)
      (App.earlyYears s) (App.rPostPct s).
Proof.
  unfold App.earlyNeeded_main. rewrite for_lt_iterations.
  apply fold_sum_upto. apply pvEarly_body_term.
Qed.

Lemma earlyNeeded_fallback_series :
  App.earlyNeeded_fallback s
  = Spec.presentValue (App.withdrawalVal s) (App.inflationPct s) (App.pensionAnnual s)
      (App.ssAnnual s) (App.ssOffset s) (App.fixedIncomeInflationPct s)
      (App.earlyYears s) (App.rPostPct s).
Proof.
  unfold App.earlyNeeded_fallback. rewrite for_lt_iterations.
  apply fold_sum_upto. apply fallback_body_term.
Qed.

(** The projected non-retirement balance is non-negative when the balance
    is and the pre-retirement return is at least -100%. *)
Lemma projNonretAtRet_nonneg :
  0 <= parseNumber (nonRetirement s) 0 -> 0 <= 1 + App.rPrePct s ->
  0 <= App.projNonretAtRet s.
Proof.
  intros Hb Hr. unfold App.projNonretAtRet, App.projectBalancesToRetirement.
  apply (for_lt_invariant (fun b => 0 <= App.nonret b)); [|exact Hb].
  intros t a Ha. simpl. unfold App.annualNonRetContrib.
  rewrite Qplus_0_r. apply Qmult_le_0_compat; assumption.
Qed.

End Bridge.

(** C10.  The two branches of the early-bridge computation (the one
    taken when [|rPost - g| > 1e-12] and the fallback sum) compute the same
    value, and [earlyNeeded] is the discounted withdrawal series over the
    early window whichever branch runs. *)
Theorem C10_early_need_branch_independent `{FracPow} (s : Fields) :
  App.earlyNeeded_main s = App.earlyNeeded_fallback s
  /\ App.earlyNeeded s
     = Spec.presentValue (App.withdrawalVal s) (App.inflationPct s) (App.pensionAnnual s)
         (App.ssAnnual s) (App.ssOffset s) (App.fixedIncomeInflationPct s)
         (App.earlyYears s) (App.rPostPct s).
Proof.
  split.
  - now rewrite earlyNeeded_main_series, earlyNeeded_fallback_series.
  - unfold App.earlyNeeded.
    destruct (0 <? App.earlyYears s) eqn:Ey.
    + destruct (_ <? Qabs _);
        [apply earlyNeeded_main_series | apply earlyNeeded_fallback_series].
    + apply Qltb_ge in Ey. unfold Spec.presentValue.
      now rewrite (iterations_nonpos _ Ey).
Qed.

(** C9 (amended).  For every input with the retirement age equal to the
    penalty-free age and a non-negative projected non-retirement balance
    at retirement, the bridge funding need is 0: [earlyYears] is 0,
    [earlyNeeded] is 0, the non-retirement shortfall at retirement is 0
    and the annual bridge saving computed from that shortfall is 0. *)
Theorem C9_no_bridge_at_penalty_free_age `{FracPow} (s : Fields) :
  App.retirementAgeNum s == App.penaltyFreeAgeNum s ->
  0 <= App.projNonretAtRet s ->
  App.earlyYears s == 0
  /\ App.earlyNeeded s = 0
  /\ App.shortfallNonretAtRet s == 0
  /\ App.neededNonretAnnual_bridge s = 0.
Proof.
  intros Hage Hproj.
  assert (Hy : App.earlyYears s == 0).
  { unfold App.earlyYears. apply Q.max_l. rewrite Hage. lra. }
  assert (He : App.earlyNeeded s = 0).
  { unfold App.earlyNeeded.
    rewrite (proj2 (Qltb_ge 0 (App.earlyYears s))); [reflexivity|].
    rewrite Hy. apply Qle_refl. }
  assert (Hs : App.shortfallNonretAtRet s == 0).
  { unfold App.shortfallNonretAtRet. rewrite He. apply Q.max_l. lra. }
  repeat split; try assumption.
  unfold App.neededNonretAnnual_bridge.
  rewrite (proj2 (Qltb_ge 0 (App.shortfallNonretAtRet s))); [reflexivity|].
  rewrite Hs. apply Qle_refl.
Qed.

Lemma C9_witness :
  App.retirementAgeNum retire_at_penalty_free == App.penaltyFreeAgeNum retire_at_penalty_free
  /\ 0 <= App.projNonretAtRet retire_at_penalty_free
  /\ App.earlyYears retire_at_penalty_free == 0
  /\ @App.earlyNeeded no_frac retire_at_penalty_free = 0
  /\ @App.shortfallNonretAtRet no_frac retire_at_penalty_free == 0
  /\ @App.neededNonretAnnual_bridge no_frac retire_at_penalty_free = 0.
Proof.
  split; [reflexivity|]. split; [vm_compute; discriminate|].
  apply (@C9_no_bridge_at_penalty_free_age no_frac retire_at_penalty_free).
  - reflexivity.
  - vm_compute; discriminate.
Defined.

(** C9 as stated fails for a pre-retirement return below -100%: the
    projected non-retirement balance is then negative and the shortfall
    against an early need of 0 is positive. *)
Lemma C9_counterexample :
  App.retirementAgeNum return_below_minus_100 == App.penaltyFreeAgeNum return_below_minus_100
  /\ App.projNonretAtRet return_below_minus_100 == - (100000)
  /\ ~ (@App.shortfallNonretAtRet no_frac return_below_minus_100 == 0)
  /\ ~ (@App.neededNonretAnnual_bridge no_frac return_below_minus_100 == 0).
Proof.
  split; [reflexivity|]. split; [reflexivity|].
  split; intros E; vm_compute in E; discriminate E.
Qed.

(** ** The waterfall *)

(** In exact arithmetic step 1, under its guard, computes the amounts of
    the specification. *)
Lemma step1_exact `{FracPow} `{Rounding} (s : Fields) :
  (forall x, fl x = x) ->
  0 < App.grossPay s -> 0 < App.employerMatchCap s -> 0 < App.additionalRetAnnual s ->
  let matchPct := App.employerMatchPctNum s / 100 in
  App.employerMatchCap s = Spec.employerMatchCap (App.grossPay s) matchPct
  /\ App.emp401kDollarForMatch (App.step1 s)
     = Spec.employeeAmount (App.grossPay s) (App.employeeCapDollar s) matchPct
         (App.additionalRetAnnual s)
  /\ App.employerMatchDollarApplied (App.step1 s)
     = Spec.employerMatchApplied (App.grossPay s) (App.employeeCapDollar s) matchPct
         (App.additionalRetAnnual s)
  /\ App.remainingNeed (App.step1 s)
     = Spec.remainingAfter (App.grossPay s) (App.employeeCapDollar s) matchPct
         (App.additionalRetAnnual s).
Proof.
  intros Hex Hpay Hcap Hneed matchPct. subst matchPct.
  assert (Ec : App.employerMatchCap s
               = Spec.employerMatchCap (App.grossPay s) (App.employerMatchPctNum s / 100)).
  { unfold App.employerMatchCap, Spec.employerMatchCap. now rewrite !Hex. }
  split; [exact Ec|].
  unfold Spec.remainingAfter, Spec.employerMatchApplied, Spec.employeeAmount,
    Spec.tentative, Spec.nextWholePercent.
  rewrite <- Ec.
  unfold App.step1, Math_min4, Math_ceil.
  rewrite (proj2 (Qltb_lt _ _) Hpay), (proj2 (Qltb_lt _ _) Hneed),
    (proj2 (Qltb_lt _ _) Hcap).
  simpl andb. cbv iota. rewrite !Hex.
  destruct (_ <? App.employeeCapDollar s).
  - destruct (_ =? App.employeeCapDollar s); simpl; repeat split.
  - simpl. repeat split.
Qed.

(** C3.  Step 1 is to take the minimum of the pay, the limit, the
    employer match cap and half the need, and to round its percentage of
    the pay up to the next whole percent.  With a pay of 80000, a match of
    7 percent and a need of 30000 the amounts of the specification are 5600
    for the employee, 5600 for the employer and 18800 left: 7 percent is a
    whole percent.  The source computes in binary64: [80000 * (7 / 100)] is
    [5600 + 2^-40] and [(5600 + 2^-40) / 80000 * 100] is [7 + 2^-50];
    [Math.ceil] takes it to 8 percent, the employee amount is 6400 and the
    need left is 18000 (less the [2^-40] of the match). *)
Theorem C3_whole_percent_rounded_up `{FracPow} :
  let grossPay := App.grossPay match_seven in
  let L401k := App.employeeCapDollar match_seven in
  let matchPct := App.employerMatchPctNum match_seven / 100 in
  let remainingNeed := App.additionalRetAnnual match_seven in
  (grossPay == 80000 /\ L401k == 24500 /\ matchPct == 7 / 100 /\ remainingNeed == 30000)
  /\ (Spec.tentative grossPay L401k matchPct remainingNeed == 5600
      /\ Spec.tentative grossPay L401k matchPct remainingNeed / grossPay * 100 == 7
      /\ Spec.employeeAmount grossPay L401k matchPct remainingNeed == 5600
      /\ Spec.employerMatchApplied grossPay L401k matchPct remainingNeed == 5600
      /\ Spec.remainingAfter grossPay L401k matchPct remainingNeed == 18800)
  /\ (App.employerMatchCap match_seven == 5600 + (1 # 1099511627776)
      /\ fl (fl (App.employerMatchCap match_seven / grossPay) * 100)
         == 7 + (1 # 1125899906842624)
      /\ App.emp401kPctForMatch (App.step1 match_seven) == 8
      /\ App.emp401kDollarForMatch (App.step1 match_seven) == 6400
      /\ App.employerMatchDollarApplied (App.step1 match_seven)
         == 5600 + (1 # 1099511627776)
      /\ App.remainingNeed (App.step1 match_seven) == 18000 - (1 # 1099511627776)).
Proof.
  vm_compute. repeat split.
Qed.



(** *** Rounding up to a whole percent of the pay *)

Lemma JS_div_fin (x y : Q) : ~ y == 0 -> JS.div (JS.Fin x) (JS.Fin y) = JS.Fin (x / y).
Proof.
  intros Hy. unfold JS.div.
  destruct (y =? 0) eqn:E; [apply Qeq_bool_iff in E; contradiction | reflexivity].
Qed.

(** [pay * (Math.ceil((amount / pay) * 100) / 100)] in binary64 is the
    amount raised by less than one percent of the pay, up to the
    tolerance. *)
Lemma roundup_bounds (gp x : Q) :
  0 < gp -> 0 <= x ->
  x * (1 - tolerance) <= fl (gp * fl (Math_ceil (fl (fl (x / gp) * 100)) / 100))
  /\ fl (gp * fl (Math_ceil (fl (fl (x / gp) * 100)) / 100))
     < (x + gp / 100) * (1 + tolerance).
Proof.
  intros Hgp Hx.
  assert (Ha : 0 <= x / gp) by (apply Qle_shift_div_l; lra).
  assert (Ex : gp * (x / gp) == x) by (field; lra).
  set (a := x / gp) in *.
  destruct (binary64_accurate a Ha) as (H10 & H1l & H1u).
  set (f1 := fl a) in *.
  assert (Hy : 0 <= f1 * 100) by lra.
  destruct (binary64_accurate (f1 * 100) Hy) as (H20 & H2l & H2u).
  set (f2 := fl (f1 * 100)) in *.
  unfold Math_ceil.
  pose proof (Qle_ceiling f2) as Hc1. pose proof (Qceiling_lt f2) as Hc2.
  unfold Z.sub in Hc2. rewrite inject_Z_plus in Hc2.
  change (inject_Z (- (1))) with (- (1)) in Hc2.
  set (P := inject_Z (Qceiling f2)) in *.
  assert (Hq : 0 <= P / 100) by (apply Qle_shift_div_l; lra).
  assert (Eq : P / 100 * 100 == P) by (field; discriminate).
  set (q := P / 100) in *.
  destruct (binary64_accurate q Hq) as (H30 & H3l & H3u).
  set (f3 := fl q) in *.
  assert (Hw : 0 <= gp * f3) by (apply Qmult_le_0_compat; lra).
  destruct (binary64_accurate (gp * f3) Hw) as (H40 & H4l & H4u).
  set (f4 := fl (gp * f3)) in *.
  assert (Eg : gp / 100 * 100 == gp) by (field; discriminate).
  set (g := gp / 100) in *.
  unfold unit_roundoff, tolerance in *.
  clearbody a f1 f2 f3 f4 P q g.
  (* the products with the pay *)
  assert (M1 : gp * (a * (1 - (1 # 9007199254740992)) * (1 - (1 # 9007199254740992))
                     * (1 - (1 # 9007199254740992)))
               <= gp * f3).
  { apply Qmult_le_l; [exact Hgp|]. lra. }
  assert (M2 : gp * f3
               <= gp * ((a * (1 + (1 # 9007199254740992)) * (1 + (1 # 9007199254740992))
                         + (1 # 100)) * (1 + (1 # 9007199254740992)))).
  { apply Qmult_le_l; [exact Hgp|]. lra. }
  assert (M2' : ~ gp * f3
                  == gp * ((a * (1 + (1 # 9007199254740992)) * (1 + (1 # 9007199254740992))
                            + (1 # 100)) * (1 + (1 # 9007199254740992)))).
  { intros E. apply Qmult_inj_l in E; [|lra]. lra. }
  set (w := gp * f3) in *. clearbody w.
  assert (N1 : gp * (a * (1 - (1 # 9007199254740992)) * (1 - (1 # 9007199254740992))
                     * (1 - (1 # 9007199254740992)))
               == x * (1 - (1 # 9007199254740992)) * (1 - (1 # 9007199254740992))
                  * (1 - (1 # 9007199254740992))).
  { rewrite <- Ex. ring. }
  assert (N2 : gp * ((a * (1 + (1 # 9007199254740992)) * (1 + (1 # 9007199254740992))
                      + (1 # 100)) * (1 + (1 # 9007199254740992)))
               == (x * (1 + (1 # 9007199254740992)) * (1 + (1 # 9007199254740992)) + g)
                  * (1 + (1 # 9007199254740992))).
  { rewrite <- Ex, <- Eg. ring. }
  rewrite N1 in M1. rewrite N2 in M2, M2'.
  assert (Hg : 0 < g) by lra.
  clear N1 N2 Ex Eg H1l H1u H2l H2u H3l H3u Hc1 Hc2 Eq.
  split; lra.
Qed.

(** *** Bounds of the waterfall when there is pay to divide by *)

(** [x || 0] of a finite number is that number. *)
Lemma or0_Fin (x : Q) : exists x', JS.or0 (JS.Fin x) = JS.Fin x' /\ x' == x.
Proof.
  unfold JS.or0. destruct (x =? 0) eqn:E.
  - apply Qeq_bool_iff in E. exists 0. split; [reflexivity | now symmetry].
  - exists x. split; reflexivity.
Qed.

Section Waterfall.
Context `{FracPow}.
Variable s : Fields.
Hypothesis Hpay : 0 < App.grossPay s.
Hypothesis Hneed : 0 <= App.additionalRetAnnual s.
Hypothesis Hmatch : 0 <= App.employerMatchPctNum s.

Lemma employeeCapDollar_nonneg : 0 <= App.employeeCapDollar s.
Proof. apply Q.le_max_l. Qed.

Lemma employerMatchCap_nonneg : 0 <= App.employerMatchCap s.
Proof.
  unfold App.employerMatchCap.
  assert (Hp : 0 <= App.employerMatchPctNum s / 100) by (apply Qle_shift_div_l; lra).
  destruct (binary64_accurate _ Hp) as (H0 & _).
  apply binary64_accurate. apply Qmult_le_0_compat; lra.
Qed.

(** Step 1: the employee amount is within the limit, and the match and
    the need left are computed from it. *)
Lemma step1_bounds :
  0 <= App.emp401kDollarForMatch (App.step1 s)
  /\ App.emp401kDollarForMatch (App.step1 s) <= App.employeeCapDollar s
  /\ App.employerMatchDollarApplied (App.step1 s)
     == Qmin (App.employerMatchCap s) (App.emp401kDollarForMatch (App.step1 s))
  /\ App.remainingNeed (App.step1 s)
     == Qmax 0 (App.additionalRetAnnual s
                - (App.emp401kDollarForMatch (App.step1 s)
                   + App.employerMatchDollarApplied (App.step1 s))).
Proof.
  pose proof employeeCapDollar_nonneg as Hc.
  pose proof employerMatchCap_nonneg as Hm.
  unfold App.step1.
  destruct (_ && _) eqn:G.
  - apply andb_prop in G as [G Gn]. apply andb_prop in G as [_ Gm].
    apply Qltb_lt in Gn, Gm.
    set (tentative := Math_min4 _ _ _ _).
    assert (Ht : 0 <= tentative /\ tentative <= App.employeeCapDollar s).
    { subst tentative. unfold Math_min4.
      assert (Hh : 0 < App.additionalRetAnnual s / 2) by (apply Qlt_shift_div_l; lra).
      set (h := App.additionalRetAnnual s / 2) in *. clearbody h.
      cases_minmax; lra. }
    destruct (roundup_bounds (App.grossPay s) tentative Hpay (proj1 Ht)) as [Hr _].
    set (rounded := fl (App.grossPay s * fl (Math_ceil _ / 100))) in *.
    unfold tolerance in Hr.
    clearbody rounded tentative.
    destruct (tentative <? _).
    + destruct (_ =? _); simpl; repeat split; try reflexivity; cases_minmax; lra.
    + simpl; repeat split; try reflexivity; lra.
  - simpl. repeat split; try lra.
    + rewrite Q.min_r; [reflexivity | exact Hm].
    + rewrite Q.max_r; [ring | lra].
Qed.

Hypothesis Hlim : 0 <= parseNumber (parsed (four01kLimit s)) 0.
Hypothesis Hraw :
  ToNumber (four01kLimit s) = JS.Fin (parseNumber (parsed (four01kLimit s)) 0).
Hypothesis Hira : 0 <= parseNumber (iraLimit s) 7500.

(** Steps 2 and 3 for a limit field that holds a number: the three
    values are numbers; what the individual account and the plan take is
    taken off the need. *)
Lemma steps23_bounds :
  exists x v r3,
    App.emp401kDollarExtraRec s = JS.Fin x
    /\ App.recommended401kDollar_sum s = JS.Fin v
    /\ App.remainingNeed_step3 s = JS.Fin r3
    /\ (0 <= App.recommendedIra_step2 s
        /\ App.recommendedIra_step2 s <= parseNumber (iraLimit s) 7500)
    /\ v == App.emp401kDollarForMatch (App.step1 s) + x
    /\ (0 <= x /\ 0 <= v /\ v <= App.employeeCapDollar s /\ 0 <= r3)
    /\ App.recommendedIra_step2 s + x + r3 == App.remainingNeed (App.step1 s).
Proof.
  destruct step1_bounds as (He0 & Hec & Hm1 & Hr1).
  assert (Hr0 : 0 <= App.remainingNeed (App.step1 s)) by (rewrite Hr1; apply Q.le_max_l).
  unfold App.remainingNeed_step3, App.recommended401kDollar_sum, App.emp401kDollarExtraRec.
  rewrite Hraw. cbn [JS.sub JS.add JS.neg JS.min JS.max].
  eexists; eexists; eexists.
  split; [reflexivity|]. split; [reflexivity|]. split; [reflexivity|].
  unfold App.remainingNeed_step2, App.recommendedIra_step2, App.employeeCapDollar in *.
  set (emp := App.emp401kDollarForMatch (App.step1 s)) in *.
  set (rem1 := App.remainingNeed (App.step1 s)) in *.
  set (L := parseNumber (parsed (four01kLimit s)) 0) in *.
  set (LIRA := parseNumber (iraLimit s) 7500) in *.
  clearbody emp rem1 L LIRA. clear Hm1 Hr1.
  cases_minmax; repeat split; lra.
Qed.

(** Step 4 on an amount that is a number within the limit: the employee
    amount is the limit or [pay * (p / 100)] for a whole [p], within the
    tolerance of the amount rounded up to a whole percent, and the
    individual account gives up what the rounding added. *)
Lemma step4_rounding (v : Q) :
  App.recommended401kDollar_sum s = JS.Fin v ->
  0 <= v -> v <= App.employeeCapDollar s ->
  exists e i,
    App.step4 s = {| App.recommended401kDollar := JS.Fin e; App.recommendedIra := JS.Fin i |}
    /\ (e == App.employeeCapDollar s
        \/ exists z, e == fl (App.grossPay s * fl (inject_Z z / 100)))
    /\ (v * (1 - tolerance) <= e /\ e <= App.employeeCapDollar s
        /\ e < (v + App.grossPay s / 100) * (1 + tolerance))
    /\ i == Qmax 0 (App.recommendedIra_step2 s - (e - v)).
Proof.
  intros Ev Hv0 Hvc.
  destruct steps23_bounds as (_ & _ & _ & _ & _ & _ & [Hi0 _] & _).
  assert (Hg : 0 < App.grossPay s / 100) by (apply Qlt_shift_div_l; lra).
  unfold App.step4. rewrite Ev. unfold JS.ltb. cbn [JS.gtb].
  destruct (_ && _) eqn:G.
  - apply andb_prop in G as [Gc G0]. apply Qltb_lt in Gc, G0.
    rewrite (JS_div_fin _ (App.grossPay s)) by lra.
    cbn [JS.mul JS.ceil JS.rounded].
    rewrite (JS_div_fin _ 100) by discriminate.
    cbn [JS.mul JS.min JS.sub JS.add JS.neg JS.max JS.neqb JS.rounded].
    destruct (roundup_bounds (App.grossPay s) v Hpay Hv0) as [Hlo Hhi].
    unfold Math_ceil in *.
    set (z := Qceiling (fl (fl (v / App.grossPay s) * 100))) in *.
    assert (Hw : Qmin (App.employeeCapDollar s)
                   (fl (App.grossPay s * fl (inject_Z z / 100)))
                 == App.employeeCapDollar s
                 \/ exists z', Qmin (App.employeeCapDollar s)
                                 (fl (App.grossPay s * fl (inject_Z z / 100)))
                               == fl (App.grossPay s * fl (inject_Z z' / 100))).
    { destruct (Q.min_spec (App.employeeCapDollar s)
                  (fl (App.grossPay s * fl (inject_Z z / 100)))) as [[_ E]|[_ E]].
      - left. exact E.
      - right. exists z. exact E. }
    set (rounded := fl (App.grossPay s * fl (inject_Z z / 100))) in *.
    set (e := Qmin (App.employeeCapDollar s) rounded) in *.
    assert (He : v * (1 - tolerance) <= e /\ e <= App.employeeCapDollar s /\ e <= rounded).
    { subst e. unfold tolerance in *. clearbody rounded.
      split; [apply Q.min_glb; lra|]. split; [apply Q.le_min_l | apply Q.le_min_r]. }
    destruct (negb (e =? v)) eqn:Ene;
      eexists; eexists; (split; [reflexivity|]); (split; [exact Hw|]);
      (split; [split; [apply He|]; split; [apply He|]; lra|]).
    + apply Q.max_compat; [reflexivity | ring].
    + apply negb_false_iff, Qeq_bool_iff in Ene.
      rewrite Q.max_r; lra.
  - eexists; eexists. split; [reflexivity|].
    assert (Hs : v == App.employeeCapDollar s \/ v == 0).
    { apply andb_false_iff in G as [G|G]; apply Qltb_ge in G; [left | right]; lra. }
    split.
    + destruct Hs as [Hs|Hs]; [left; exact Hs|].
      right. exists 0%Z. rewrite Hs.
      change (fl (inject_Z 0 / 100)) with 0.
      change (fl (App.grossPay s * 0)) with (double (App.grossPay s * 0)).
      rewrite double_zero; [reflexivity | ring].
    + unfold tolerance. split; [split; [|split]; lra|]. rewrite Q.max_r; lra.
Qed.

Hypothesis Hbridge : 0 <= App.neededNonretAnnual_bridge s.

(** The non-retirement saving, given the amounts of step 4 and the need
    step 3 leaves: the bridge saving less the rise of the employer match,
    floored at 0, plus the need no account could take. *)
Lemma neededNonretAnnual_value (e i r3 : Q) :
  App.step4 s = {| App.recommended401kDollar := JS.Fin e; App.recommendedIra := JS.Fin i |} ->
  App.remainingNeed_step3 s = JS.Fin r3 -> 0 <= r3 ->
  App.recEmployerMatchDollarUsed s = JS.Fin (Qmin (App.employerMatchCap s) e)
  /\ exists n,
       App.neededNonretAnnual s = JS.Fin n
       /\ n == Qmax 0 (App.neededNonretAnnual_bridge s
                       - Qmax 0 (Qmin (App.employerMatchCap s) e
                                 - App.employerMatchDollarApplied (App.step1 s)))
               + r3.
Proof.
  intros E4 E3 Hr3.
  unfold App.neededNonretAnnual, App.neededNonretAnnual_credited, App.totalDeltaRet,
    App.deltaEmployee, App.deltaMatch, App.recEmployerMatchDollarUsed,
    App.recommendedEmployerMatchDollar, App.rec401kDollarUsed.
  rewrite E4, E3.
  cbn [App.recommended401kDollar App.recommendedIra
       JS.min JS.max JS.sub JS.add JS.neg JS.gtb].
  split; [reflexivity|].
  set (m1 := App.employerMatchDollarApplied (App.step1 s)) in *.
  set (m := Qmin (App.employerMatchCap s) e) in *.
  set (total := Qmax 0 (e + - e + (m + - m1))).
  assert (Ht : total == Qmax 0 (m - m1)).
  { subst total. apply Q.max_compat; [reflexivity | ring]. }
  assert (Ht0 : 0 <= total) by apply Q.le_max_l.
  destruct (or0_Fin (App.neededNonretAnnual_bridge s)) as (b' & -> & Eb).
  cbn [JS.max JS.sub JS.add JS.neg].
  set (credited := if 0 <? total then JS.Fin (Qmax 0 (b' + - total))
                   else JS.Fin (App.neededNonretAnnual_bridge s)).
  assert (Hc : exists c, credited = JS.Fin c
                         /\ c == Qmax 0 (App.neededNonretAnnual_bridge s - Qmax 0 (m - m1))).
  { subst credited. destruct (0 <? total) eqn:E0.
    - eexists. split; [reflexivity|]. apply Q.max_compat; [reflexivity | lra].
    - apply Qltb_ge in E0. eexists. split; [reflexivity|].
      rewrite Q.max_r; lra. }
  destruct Hc as (c & -> & Hc).
  destruct (or0_Fin c) as (c' & -> & Ec).
  cbn [JS.add].
  destruct (0 <? r3) eqn:Er; eexists; (split; [reflexivity|]).
  - lra.
  - apply Qltb_ge in Er. lra.
Qed.

(** The four amounts are numbers within their bounds; the individual
    account can exceed its limit by what a rounding took off the employee
    amount, within the tolerance. *)
Lemma allocation_bounds :
  exists e m i n,
    App.rec401kDollarUsed s = JS.Fin e
    /\ App.recEmployerMatchDollarUsed s = JS.Fin m
    /\ App.recommendedIra (App.step4 s) = JS.Fin i
    /\ App.neededNonretAnnual s = JS.Fin n
    /\ (0 <= e /\ e <= App.employeeCapDollar s)
    /\ (0 <= m /\ m <= App.employerMatchCap s /\ m <= e)
    /\ (0 <= i
        /\ i <= parseNumber (iraLimit s) 7500 + App.employeeCapDollar s * tolerance)
    /\ 0 <= n.
Proof.
  destruct steps23_bounds as (x & v & r3 & Ex & Ev & E3 & [Hi0 Hil] & Hv & (Hx0 & Hv0 & Hvc & Hr3) & _).
  destruct (step4_rounding v Ev Hv0 Hvc) as (e & i & E4 & _ & (Hlo & Hec & _) & Hi).
  destruct (neededNonretAnnual_value e i r3 E4 E3 Hr3) as (Em & n & En & Hn).
  pose proof employerMatchCap_nonneg as Hmc.
  exists e, (Qmin (App.employerMatchCap s) e), i, n.
  unfold App.rec401kDollarUsed. rewrite E4.
  split; [reflexivity|]. split; [exact Em|]. split; [reflexivity|]. split; [exact En|].
  unfold tolerance in *.
  assert (He0 : 0 <= e) by lra.
  split; [split; assumption|].
  split; [split; [apply Q.min_glb; lra | split; [apply Q.le_min_l | apply Q.le_min_r]]|].
  split.
  - rewrite Hi. split; [apply Q.le_max_l|]. apply Q.max_lub; lra.
  - rewrite Hn.
    assert (H0 : 0 <= Qmax 0 (App.neededNonretAnnual_bridge s
                              - Qmax 0 (Qmin (App.employerMatchCap s) e
                                        - App.employerMatchDollarApplied (App.step1 s))))
      by apply Q.le_max_l.
    lra.
Qed.

End Waterfall.

(** The hypotheses of [allocation_bounds] at [early_retirement]. *)
Example allocation_bounds_early_retirement :
  exists e m i n,
    @App.rec401kDollarUsed no_frac binary64 early_retirement = JS.Fin e
    /\ @App.recEmployerMatchDollarUsed no_frac binary64 early_retirement = JS.Fin m
    /\ App.recommendedIra (@App.step4 no_frac binary64 early_retirement) = JS.Fin i
    /\ @App.neededNonretAnnual no_frac binary64 early_retirement = JS.Fin n
    /\ (0 <= e /\ e <= App.employeeCapDollar early_retirement)
    /\ (0 <= m /\ m <= App.employerMatchCap early_retirement /\ m <= e)
    /\ (0 <= i
        /\ i <= parseNumber (iraLimit early_retirement) 7500
                + App.employeeCapDollar early_retirement * tolerance)
    /\ 0 <= n.
Proof.
  apply allocation_bounds.
  - reflexivity.
  - vm_compute. discriminate.
  - discriminate.
  - discriminate.
  - reflexivity.
  - discriminate.
  - vm_compute. discriminate.
Qed.

(** C6.  The four allocation outputs are to be non-negative, the employee
    amount at most the limit and the individual-account amount at most its
    limit.  With the salary field empty and no bonus, [grossPay] is 0; a
    need of 25000 a year puts 7500 in the individual account and 17500,
    below the limit of 24500, in the plan; step 4 then divides by
    [grossPay], and the employee amount, the individual-account amount and
    the employer match are all [NaN]: not numbers, so neither non-negative
    nor within a limit. *)
Theorem C6_cleared_salary_not_a_number `{FracPow} :
  App.grossPay salary_cleared == 0
  /\ App.additionalRetAnnual salary_cleared == 25000
  /\ App.recommendedIra_step2 salary_cleared == 7500
  /\ JS.eqv (App.recommended401kDollar_sum salary_cleared) (JS.Fin 17500)
  /\ App.rec401kDollarUsed salary_cleared = JS.NaN
  /\ App.recommendedIra (App.step4 salary_cleared) = JS.NaN
  /\ App.recEmployerMatchDollarUsed salary_cleared = JS.NaN.
Proof.
  vm_compute. repeat split.
Qed.

(** *** Step 4 *)

Section Step4.
Context `{FracPow} `{Rounding}.
Variable s : Fields.

(** The individual-account amount after step 4: reduced by the change of
    the employee amount, floored at 0, when the rounding changes that
    amount. *)
Lemma step4_ira_reduced (v : Q) :
  0 < App.grossPay s ->
  App.recommended401kDollar_sum s = JS.Fin v ->
  exists rounded,
    App.recommended401kDollar (App.step4 s) = JS.Fin rounded
    /\ (~ rounded == v ->
        App.recommendedIra (App.step4 s)
        = JS.Fin (Qmax 0 (App.recommendedIra_step2 s - (rounded - v))))
    /\ (rounded == v ->
        App.recommendedIra (App.step4 s) = JS.Fin (App.recommendedIra_step2 s)).
Proof.
  intros Hpay Ev. unfold App.step4. rewrite Ev.
  destruct (_ && _).
  - rewrite (JS_div_fin _ (App.grossPay s)) by lra.
    cbn [JS.mul JS.ceil JS.rounded].
    rewrite (JS_div_fin _ 100) by discriminate.
    cbn [JS.mul JS.min JS.sub JS.add JS.neg JS.max JS.neqb JS.rounded].
    eexists. split; [destruct (negb _); reflexivity|].
    destruct (_ =? _) eqn:E; simpl negb; cbv iota; cbn [App.recommendedIra]; split; intros Hd.
    + apply Qeq_bool_iff in E. contradiction.
    + reflexivity.
    + reflexivity.
    + apply Qeq_bool_iff in Hd. congruence.
  - eexists. split; [reflexivity|]. cbn [App.recommendedIra]. split; intros Hd.
    + exfalso. apply Hd. reflexivity.
    + reflexivity.
Qed.

(** [deltaEmployee] subtracts the final employee amount from itself. *)
Lemma deltaEmployee_zero (e : Q) :
  App.rec401kDollarUsed s = JS.Fin e -> App.deltaEmployee s = JS.Fin (e - e).
Proof.
  unfold App.deltaEmployee, App.rec401kDollarUsed. intros E. now rewrite E.
Qed.

(** What is credited against the bridge need is the change of the
    employer match alone. *)
Lemma totalDeltaRet_match_only (e : Q) :
  App.rec401kDollarUsed s = JS.Fin e ->
  JS.eqv (App.totalDeltaRet s)
    (JS.Fin (Qmax 0 (Qmin (App.employerMatchCap s) e
                     - App.employerMatchDollarApplied (App.step1 s)))).
Proof.
  intros E. unfold App.totalDeltaRet, App.deltaMatch, App.recEmployerMatchDollarUsed,
    App.recommendedEmployerMatchDollar.
  rewrite (deltaEmployee_zero e E), E.
  cbn [JS.min JS.sub JS.add JS.neg JS.max JS.eqv].
  apply Q.max_compat; [reflexivity|]. ring.
Qed.

End Step4.

(** C7.  At [early_retirement] the bridge need is 20000 a year.  Step 4
    rounds the employee percentage from 25.125 to 26, which raises the
    employee amount from 20100 to 20800, and the individual-account amount
    goes from 7500 to 6800: reduced by that change.  The employer match
    stays at 2400.  The change of the employee amount is not subtracted
    from the bridge need: [totalDeltaRet] is 0 and the need stays at 20000
    instead of going to 19300. *)
Theorem C7_employee_delta_not_credited `{FracPow} :
  App.neededNonretAnnual_bridge early_retirement == 20000
  /\ JS.eqv (App.recommended401kDollar_sum early_retirement) (JS.Fin 20100)
  /\ JS.eqv (App.rec401kDollarUsed early_retirement) (JS.Fin 20800)
  /\ App.recommendedIra_step2 early_retirement == 7500
  /\ JS.eqv (App.recommendedIra (App.step4 early_retirement)) (JS.Fin 6800)
  /\ App.employerMatchDollarApplied (App.step1 early_retirement) == 2400
  /\ JS.eqv (App.recEmployerMatchDollarUsed early_retirement) (JS.Fin 2400)
  /\ JS.eqv (App.deltaEmployee early_retirement) (JS.Fin 0)
  /\ JS.eqv (App.totalDeltaRet early_retirement) (JS.Fin 0)
  /\ JS.eqv (App.neededNonretAnnual_credited early_retirement) (JS.Fin 20000)
  /\ ~ JS.eqv (App.neededNonretAnnual_credited early_retirement)
         (JS.Fin (Qmax 0 (20000 - ((20800 - 20100) + (2400 - 2400))))).
Proof.
  vm_compute. repeat split. intros E. discriminate E.
Qed.

(** ** The balance simulators *)

Lemma for_age_invariant {A : Type} (P : A -> Prop) (targetAge : Q) (body : Q -> A -> A) :
  (forall age a, P a -> P (body age a)) ->
  forall fuel age acc, P acc -> P (for_age fuel age targetAge body acc).
Proof.
  intros Hbody. induction fuel as [|fuel IH]; intros age acc Hacc; simpl.
  - exact Hacc.
  - destruct (age <? targetAge); [apply IH, Hbody, Hacc | exact Hacc].
Qed.

(** The loop of [simulateToAge] leaves by its guard: after
    [iterations (targetAge - from)] years the age has reached
    [targetAge]. *)
Lemma for_age_exit {A : Type} (targetAge : Q) (body : Q -> A -> A) :
  forall fuel age acc, targetAge <= age -> for_age fuel age targetAge body acc = acc.
Proof.
  intros [|fuel] age acc Hage; simpl; [reflexivity|].
  now rewrite (proj2 (Qltb_ge _ _) Hage).
Qed.

Lemma for_age_fuel {A : Type} (targetAge : Q) (body : Q -> A -> A) :
  forall fuel extra age acc,
    targetAge <= age + of_nat fuel ->
    for_age (fuel + extra) age targetAge body acc = for_age fuel age targetAge body acc.
Proof.
  induction fuel as [|fuel IH]; intros extra age acc Hb; simpl.
  - apply for_age_exit. change (of_nat 0) with 0 in Hb. lra.
  - destruct (age <? targetAge); [|reflexivity]. apply IH.
    rewrite of_nat_S in Hb. lra.
Qed.

Lemma simulateToAge_fuel `{FracPow} (s : Fields) (targetAge additional : Q) (extra : nat) :
  for_age (iterations (targetAge - App.curAgeNum s) + extra) (App.curAgeNum s) targetAge
    (App.simulateToAge_body s additional)
    {| App.retBal := parseNumber (retirementAccounts s) 0;
       App.nonretBal := parseNumber (nonRetirement s) 0 |}
  = App.simulateToAge s targetAge additional.
Proof.
  apply for_age_fuel.
  pose proof (iterations_exit (targetAge - App.curAgeNum s)). lra.
Qed.

(** The withdrawal of a decumulation year, as both simulators take it:
    from the non-retirement balance first, the excess from the retirement
    balance, floored at 0. *)
Lemma withdraw_nonneg (retBal nonretBal toWithdraw : Q) :
  0 <= retBal -> 0 <= nonretBal ->
  let '(nonretBal', toWithdraw') :=
    if toWithdraw <=? nonretBal
    then (nonretBal - toWithdraw, 0)
    else (0, toWithdraw - nonretBal) in
  0 <= (if 0 <? toWithdraw' then Qmax 0 (retBal - toWithdraw') else retBal)
  /\ 0 <= nonretBal'.
Proof.
  intros Hr Hn.
  destruct (toWithdraw <=? nonretBal) eqn:E.
  - apply Qleb_le in E. change (0 <? 0) with false. cbv iota. split; lra.
  - split; [|apply Qle_refl]. destruct (0 <? _); [apply Q.le_max_l | exact Hr].
Qed.

Lemma withdraw_shortfall (retBal nonretBal toWithdraw : Q) :
  0 <= retBal -> retBal + nonretBal <= toWithdraw ->
  let '(nonretBal', toWithdraw') :=
    if toWithdraw <=? nonretBal
    then (nonretBal - toWithdraw, 0)
    else (0, toWithdraw - nonretBal) in
  (if 0 <? toWithdraw' then Qmax 0 (retBal - toWithdraw') else retBal) == 0
  /\ nonretBal' == 0.
Proof.
  intros Hr Hs.
  destruct (toWithdraw <=? nonretBal) eqn:E.
  - apply Qleb_le in E. change (0 <? 0) with false. cbv iota. split; lra.
  - apply Qleb_gt in E. split; [|reflexivity].
    destruct (0 <? _) eqn:E'.
    + apply Q.max_l. lra.
    + apply Qltb_ge in E'. lra.
Qed.

Section SimulateToAge.
Context `{FracPow}.
Variable s : Fields.

Lemma simulateToAge_body_nonneg (additional age : Q) (b : App.Totals) :
  0 <= additional -> 0 <= 1 + App.rPrePct s -> 0 <= 1 + App.rPostPct s ->
  0 <= App.retBal b /\ 0 <= App.nonretBal b ->
  0 <= App.retBal (App.simulateToAge_body s additional age b)
  /\ 0 <= App.nonretBal (App.simulateToAge_body s additional age b).
Proof.
  intros Ha Hpre Hpost [Hr Hn]. unfold App.simulateToAge_body.
  set (rate := if age <? App.retirementAgeNum s then App.rPrePct s else App.rPostPct s).
  assert (Hrate : 0 <= 1 + rate) by (subst rate; destruct (_ <? _); assumption).
  assert (Hr' : 0 <= App.retBal b * (1 + rate)) by (apply Qmult_le_0_compat; assumption).
  assert (Hn' : 0 <= App.nonretBal b * (1 + rate)) by (apply Qmult_le_0_compat; assumption).
  clearbody rate.
  destruct (age <? Number (retirementAge s)).
  - simpl. unfold App.annualRetirementContrib, App.annualNonRetContrib. split; lra.
  - pose proof (withdraw_nonneg _ _ (App.simulateToAge_toWithdraw s age) Hr' Hn') as Hw.
    destruct (App.simulateToAge_toWithdraw s age <=? _); exact Hw.
Qed.

Lemma simulateToAge_nonneg (targetAge additional : Q) :
  0 <= parseNumber (retirementAccounts s) 0 -> 0 <= parseNumber (nonRetirement s) 0 ->
  0 <= additional -> 0 <= 1 + App.rPrePct s -> 0 <= 1 + App.rPostPct s ->
  0 <= App.retBal (App.simulateToAge s targetAge additional)
  /\ 0 <= App.nonretBal (App.simulateToAge s targetAge additional).
Proof.
  intros Hr Hn Ha Hpre Hpost. unfold App.simulateToAge.
  apply (for_age_invariant (fun b => 0 <= App.retBal b /\ 0 <= App.nonretBal b)).
  - intros age b Hb. now apply simulateToAge_body_nonneg.
  - split; assumption.
Qed.

Lemma simulateToAge_body_shortfall (additional age : Q) (b : App.Totals) :
  Number (retirementAge s) <= age ->
  let rate := if age <? App.retirementAgeNum s then App.rPrePct s else App.rPostPct s in
  0 <= App.retBal b * (1 + rate) ->
  App.retBal b * (1 + rate) + App.nonretBal b * (1 + rate)
  <= App.simulateToAge_toWithdraw s age ->
  App.retBal (App.simulateToAge_body s additional age b) == 0
  /\ App.nonretBal (App.simulateToAge_body s additional age b) == 0.
Proof.
  intros Hage rate Hr Hs. unfold App.simulateToAge_body. fold rate.
  rewrite (proj2 (Qltb_ge _ _) Hage).
  pose proof (withdraw_shortfall _ _ (App.simulateToAge_toWithdraw s age) Hr Hs) as Hw.
  destruct (App.simulateToAge_toWithdraw s age <=? _); exact Hw.
Qed.

End SimulateToAge.

Section PowMax.
Context `{FracPow}.

Lemma Qmax_0_pos (t : Q) : 0 < t -> Qmax 0 t = t.
Proof.
  intros Ht. unfold Qmax, GenericMinMax.gmax.
  destruct (Qcompare_spec 0 t); [lra | reflexivity | lra].
Qed.

Lemma Qmax_0_zero (t : Q) : t == 0 -> Qmax 0 t = 0.
Proof.
  intros Ht. unfold Qmax, GenericMinMax.gmax.
  destruct (Qcompare_spec 0 t); [reflexivity | lra | reflexivity].
Qed.

(** A whole exponent, however the rational is written. *)
Lemma Math_pow_whole_eq (b e : Q) (z : Z) : e == inject_Z z -> Math_pow b e = b ^ z.
Proof.
  intros He. unfold Math_pow, is_whole.
  assert (E : Qfloor e = z) by (rewrite He; apply Qfloor_Z).
  rewrite E.
  assert (W : (inject_Z z =? e) = true) by (apply Qeq_bool_iff; now rewrite He).
  now rewrite W.
Qed.

(** [Math.max(0, t)] as an exponent, for [t >= 0]. *)
Lemma Math_pow_max0 (b t : Q) : 0 <= t -> Math_pow b (Qmax 0 t) = Math_pow b t.
Proof.
  intros Ht. destruct (Qlt_le_dec 0 t) as [Hp|Hz].
  - now rewrite Qmax_0_pos.
  - assert (E : t == 0) by lra.
    rewrite (Qmax_0_zero _ E).
    now rewrite (Math_pow_whole_eq b t 0 E), (Math_pow_whole_eq b 0 0 (Qeq_refl 0)).
Qed.

End PowMax.

Section SimulateToAgeYear.
Context `{FracPow}.
Variable s : Fields.

(** The withdrawal of the year that starts at [age], from retirement on:
    the pension grows from retirement, social security from its own start
    age. *)
Lemma simulateToAge_toWithdraw_formula (age : Q) :
  App.retirementAgeNum s <= age ->
  let t := age - App.retirementAgeNum s in
  App.simulateToAge_toWithdraw s age
  = Qmax 0 (App.withdrawalVal s * Math_pow (1 + App.inflationPct s) t
            - App.pensionAnnual s * Math_pow (1 + App.fixedIncomeInflationPct s) t
            - (if App.ssStartAgeNum s <=? age
               then App.ssAnnual s
                    * Math_pow (1 + App.fixedIncomeInflationPct s) (age - App.ssStartAgeNum s)
               else 0)).
Proof.
  intros Hage t. subst t. unfold App.simulateToAge_toWithdraw.
  rewrite !(Math_pow_max0 _ (age - App.retirementAgeNum s)) by lra.
  destruct (App.ssStartAgeNum s <=? age) eqn:E; [|reflexivity].
  apply Qleb_le in E. rewrite Math_pow_max0 by lra. reflexivity.
Qed.

Lemma simulateToAge_body_decumulation (additional age : Q) (b : App.Totals) :
  Number (retirementAge s) <= age -> App.retirementAgeNum s <= age ->
  let net := App.simulateToAge_toWithdraw s age in
  let retBal := App.retBal b * (1 + App.rPostPct s) in
  let nonretBal := App.nonretBal b * (1 + App.rPostPct s) in
  App.simulateToAge_body s additional age b
  = if net <=? nonretBal
    then {| App.retBal := retBal; App.nonretBal := nonretBal - net |}
    else {| App.retBal := Qmax 0 (retBal - (net - nonretBal)); App.nonretBal := 0 |}.
Proof.
  intros Hraw Hnum net retBal nonretBal. subst net retBal nonretBal.
  unfold App.simulateToAge_body.
  rewrite (proj2 (Qltb_ge _ _) Hraw), (proj2 (Qltb_ge _ _) Hnum).
  destruct (_ <=? _) eqn:E.
  - change (0 <? 0) with false. reflexivity.
  - apply Qleb_gt in E. rewrite (proj2 (Qltb_lt _ _)) by lra. reflexivity.
Qed.

Lemma simulateToAge_body_accumulation (additional age : Q) (b : App.Totals) :
  age < Number (retirementAge s) -> age < App.retirementAgeNum s ->
  App.simulateToAge_body s additional age b
  = {| App.retBal := App.retBal b * (1 + App.rPrePct s) + App.annualRetirementContrib;
       App.nonretBal := App.nonretBal b * (1 + App.rPrePct s)
                        + (App.annualNonRetContrib + additional) |}.
Proof.
  intros Hraw Hnum. unfold App.simulateToAge_body.
  now rewrite (proj2 (Qltb_lt _ _) Hraw), (proj2 (Qltb_lt _ _) Hnum).
Qed.

(** A retirement-age field that holds a number is read the same way by
    [parseNumber] and by the comparison of line 367. *)
Lemma retirementAge_field :
  retirementAge s <> None -> Number (retirementAge s) = App.retirementAgeNum s.
Proof.
  unfold App.retirementAgeNum. destruct (retirementAge s); [reflexivity | congruence].
Qed.

End SimulateToAgeYear.

(** When social security starts a whole number of years at or after
    retirement, the withdrawal the simulator takes [k] years into
    retirement is the net withdrawal of the series of the corpus sizer. *)
Lemma simulateToAge_toWithdraw_series `{FracPow} (s : Fields) (j k : nat) :
  App.ssStartAgeNum s - App.retirementAgeNum s == of_nat j ->
  App.simulateToAge_toWithdraw s (App.retirementAgeNum s + of_nat k)
  = Spec.net (App.withdrawalVal s) (App.inflationPct s) (App.pensionAnnual s)
      (App.ssAnnual s) (App.ssOffset s) (App.fixedIncomeInflationPct s) k.
Proof.
  intros Hoff.
  pose proof (of_nat_nonneg j) as Hj. pose proof (of_nat_nonneg k) as Hk.
  assert (Eoff : App.ssOffset s == of_nat j).
  { unfold App.ssOffset. rewrite Hoff. apply Q.max_r. exact Hj. }
  rewrite simulateToAge_toWithdraw_formula by lra.
  unfold Spec.net, Spec.base, Spec.pension, Spec.ss.
  assert (Ek : App.retirementAgeNum s + of_nat k - App.retirementAgeNum s
               == inject_Z (Z.of_nat k)) by (unfold of_nat; ring).
  rewrite !(Math_pow_whole_eq _ _ _ Ek).
  assert (Es : App.retirementAgeNum s + of_nat k - App.ssStartAgeNum s
               == inject_Z (Z.of_nat k - Z.of_nat j)).
  { unfold Z.sub. rewrite inject_Z_plus, inject_Z_opp. fold (of_nat k) (of_nat j). lra. }
  assert (Eo : of_nat k - App.ssOffset s == inject_Z (Z.of_nat k - Z.of_nat j)).
  { unfold Z.sub. rewrite inject_Z_plus, inject_Z_opp. fold (of_nat k) (of_nat j). lra. }
  rewrite (Math_pow_whole_eq _ _ _ Es), (Math_pow_whole_eq _ _ _ Eo).
  destruct (App.ssOffset s <=? of_nat k) eqn:E.
  - apply Qleb_le in E.
    rewrite (proj2 (Qleb_le (App.ssStartAgeNum s) (App.retirementAgeNum s + of_nat k)))
      by lra.
    reflexivity.
  - apply Qleb_gt in E.
    rewrite (proj2 (Qleb_gt (App.ssStartAgeNum s) (App.retirementAgeNum s + of_nat k)))
      by lra.
    reflexivity.
Qed.

(** C5 (amended).  With a retirement-age field that holds a number: in a
    year with [age >= retirementAge] the projector grows both buckets by
    the post-retirement rate, then subtracts the year's net withdrawal
    from the non-retirement bucket first and only the excess beyond that
    bucket's balance from the retirement bucket (floored at 0); the net
    withdrawal is [max(0, base(t) - pension(t) - ss)] at [t] = years since
    retirement, where [ss] is [ssAnnual*(1+f)^(age - ssStartAge)] from the
    social-security start age on and 0 before.  In a year with
    [age < retirementAge] each bucket becomes
    [balance*(1+preRate) + its annual contribution]. *)
Theorem C5_year_of_simulation `{FracPow} (s : Fields) (additional age : Q)
    (b : App.Totals) :
  retirementAge s <> None ->
  (App.retirementAgeNum s <= age ->
   let t := age - App.retirementAgeNum s in
   let net :=
     Qmax 0 (App.withdrawalVal s * Math_pow (1 + App.inflationPct s) t
             - App.pensionAnnual s * Math_pow (1 + App.fixedIncomeInflationPct s) t
             - (if App.ssStartAgeNum s <=? age
                then App.ssAnnual s
                     * Math_pow (1 + App.fixedIncomeInflationPct s)
                                (age - App.ssStartAgeNum s)
                else 0)) in
   let retBal := App.retBal b * (1 + App.rPostPct s) in
   let nonretBal := App.nonretBal b * (1 + App.rPostPct s) in
   App.simulateToAge_body s additional age b
   = if net <=? nonretBal
     then {| App.retBal := retBal; App.nonretBal := nonretBal - net |}
     else {| App.retBal := Qmax 0 (retBal - (net - nonretBal)); App.nonretBal := 0 |})
  /\ (age < App.retirementAgeNum s ->
      App.simulateToAge_body s additional age b
      = {| App.retBal := App.retBal b * (1 + App.rPrePct s) + App.annualRetirementContrib;
           App.nonretBal := App.nonretBal b * (1 + App.rPrePct s)
                            + (App.annualNonRetContrib + additional) |}).
Proof.
  intros Hfield. pose proof (retirementAge_field s Hfield) as Eraw. split.
  - intros Hage t net retBal nonretBal. subst t net retBal nonretBal.
    rewrite <- (simulateToAge_toWithdraw_formula s age Hage).
    apply simulateToAge_body_decumulation; [rewrite Eraw|]; exact Hage.
  - intros Hage. apply simulateToAge_body_accumulation; [rewrite Eraw|]; exact Hage.
Qed.

Lemma C5_witness :
  retirementAge early_retirement <> None
  /\ (App.retirementAgeNum early_retirement <= 60
      /\ App.retBal (@App.simulateToAge_body no_frac early_retirement 25000 60
                       {| App.retBal := 250000; App.nonretBal := 30000 |}) == 230000
      /\ App.nonretBal (@App.simulateToAge_body no_frac early_retirement 25000 60
                          {| App.retBal := 250000; App.nonretBal := 30000 |}) == 0)
  /\ (55 < App.retirementAgeNum early_retirement
      /\ App.retBal (@App.simulateToAge_body no_frac early_retirement 25000 55
                       {| App.retBal := 1000; App.nonretBal := 2000 |}) == 1000
      /\ App.nonretBal (@App.simulateToAge_body no_frac early_retirement 25000 55
                          {| App.retBal := 1000; App.nonretBal := 2000 |}) == 27000).
Proof.
  assert (Hfield : retirementAge early_retirement <> None) by discriminate.
  split; [exact Hfield|]. split.
  - split; [discriminate|].
    rewrite (proj1 (@C5_year_of_simulation no_frac early_retirement 25000 60
                      {| App.retBal := 250000; App.nonretBal := 30000 |} Hfield));
      [|discriminate].
    vm_compute. split; reflexivity.
  - split; [reflexivity|].
    rewrite (proj2 (@C5_year_of_simulation no_frac early_retirement 25000 55
                      {| App.retBal := 1000; App.nonretBal := 2000 |} Hfield));
      [|reflexivity].
    vm_compute. split; reflexivity.
Defined.

(** C5 as stated fails when social security started before retirement:
    at [ss_before_retirement] the first year of retirement the simulator
    takes a benefit grown for three years, [12000 * 1.1^3 = 15972], and
    withdraws 34028, where the series of the corpus sizer has
    [ss(0) = 12000] and a net withdrawal of 38000. *)
Lemma C5_counterexample :
  App.retirementAgeNum ss_before_retirement <= 65
  /\ @App.simulateToAge_toWithdraw no_frac ss_before_retirement 65 == 34028
  /\ @Spec.net no_frac (App.withdrawalVal ss_before_retirement)
       (App.inflationPct ss_before_retirement) (App.pensionAnnual ss_before_retirement)
       (App.ssAnnual ss_before_retirement) (App.ssOffset ss_before_retirement)
       (App.fixedIncomeInflationPct ss_before_retirement) 0 == 38000
  /\ ~ (App.nonretBal (@App.simulateToAge no_frac ss_before_retirement 66 0)
        == 100000 * (1 + App.rPostPct ss_before_retirement)
           - @Spec.net no_frac (App.withdrawalVal ss_before_retirement)
               (App.inflationPct ss_before_retirement) (App.pensionAnnual ss_before_retirement)
               (App.ssAnnual ss_before_retirement) (App.ssOffset ss_before_retirement)
               (App.fixedIncomeInflationPct ss_before_retirement) 0).
Proof.
  split; [discriminate|]. split; [vm_compute; reflexivity|].
  split; [vm_compute; reflexivity|].
  intros E. vm_compute in E. discriminate E.
Qed.

(** With the retirement-age field empty, line 362 takes the fallback 65
    and line 367 the number 0: at 40 the simulator grows the balances at
    the pre-retirement rate and then withdraws 50000 instead of adding the
    contribution of 1000. *)
Lemma simulateToAge_cleared_retirement_age :
  40 < App.retirementAgeNum retirement_age_cleared
  /\ App.nonretBal (@App.simulateToAge no_frac retirement_age_cleared 41 1000) == 50000
  /\ ~ (App.nonretBal (@App.simulateToAge no_frac retirement_age_cleared 41 1000)
        == 100000 * (1 + App.rPrePct retirement_age_cleared) + 1000).
Proof.
  split; [reflexivity|]. split; [vm_compute; reflexivity|].
  intros E. vm_compute in E. discriminate E.
Qed.

Section SimulatePoints.
Context `{FracPow}.
Variable p : TimelineChart.Props.
Variables (cR cN : Q).

Lemma simulatePoints_year_nonneg (age retBal nonretBal : Q) :
  0 <= cR -> 0 <= cN ->
  0 <= 1 + TimelineChart.rPre p -> 0 <= 1 + TimelineChart.rPost p ->
  0 <= retBal -> 0 <= nonretBal ->
  0 <= fst (TimelineChart.simulatePoints_year p cR cN age retBal nonretBal)
  /\ 0 <= snd (TimelineChart.simulatePoints_year p cR cN age retBal nonretBal).
Proof.
  intros HcR HcN Hpre Hpost Hr Hn. unfold TimelineChart.simulatePoints_year.
  set (rate := if age <? TimelineChart.retirementAge p
               then TimelineChart.rPre p else TimelineChart.rPost p).
  assert (Hrate : 0 <= 1 + rate) by (subst rate; destruct (_ <? _); assumption).
  assert (Hr' : 0 <= retBal * (1 + rate)) by (apply Qmult_le_0_compat; assumption).
  assert (Hn' : 0 <= nonretBal * (1 + rate)) by (apply Qmult_le_0_compat; assumption).
  clearbody rate.
  destruct (age <? TimelineChart.retirementAge p).
  - simpl. split; lra.
  - pose proof (withdraw_nonneg _ _ (TimelineChart.simulatePoints_toWithdraw p age) Hr' Hn')
      as Hw.
    destruct (TimelineChart.simulatePoints_toWithdraw p age <=? _); exact Hw.
Qed.

Lemma simulatePoints_loop_nonneg :
  0 <= cR -> 0 <= cN ->
  0 <= 1 + TimelineChart.rPre p -> 0 <= 1 + TimelineChart.rPost p ->
  forall fuel i pts retBal nonretBal,
    Forall Spec.nonneg_point pts -> 0 <= retBal -> 0 <= nonretBal ->
    Forall Spec.nonneg_point (TimelineChart.simulatePoints_loop p cR cN fuel i pts retBal nonretBal).
Proof.
  intros HcR HcN Hpre Hpost.
  induction fuel as [|fuel IH]; intros i pts retBal nonretBal Hpts Hr Hn; simpl.
  - exact Hpts.
  - destruct (of_nat i <=? TimelineChart.years p); [|exact Hpts].
    assert (Hpts' : Forall Spec.nonneg_point
                      (pts ++ [{| TimelineChart.age := TimelineChart.currentAge p + of_nat i;
                                  TimelineChart.retBal := retBal;
                                  TimelineChart.nonretBal := nonretBal |}])).
    { apply Forall_app. split; [exact Hpts|]. constructor; [split; assumption | constructor]. }
    destruct (of_nat i =? TimelineChart.years p); [exact Hpts'|].
    pose proof (simulatePoints_year_nonneg (TimelineChart.currentAge p + of_nat i)
                  retBal nonretBal HcR HcN Hpre Hpost Hr Hn) as [Hr' Hn'].
    destruct (TimelineChart.simulatePoints_year p cR cN _ retBal nonretBal) as [r' n'].
    apply IH; assumption.
Qed.

Lemma simulatePoints_nonneg :
  0 <= TimelineChart.initialRet p -> 0 <= TimelineChart.initialNonRet p ->
  0 <= cR -> 0 <= cN ->
  0 <= 1 + TimelineChart.rPre p -> 0 <= 1 + TimelineChart.rPost p ->
  Forall Spec.nonneg_point (TimelineChart.simulatePoints p cR cN).
Proof.
  intros Hr Hn HcR HcN Hpre Hpost. unfold TimelineChart.simulatePoints.
  apply simulatePoints_loop_nonneg; try assumption. constructor.
Qed.

(** The loop pushes one point for each year from the current age to the
    end age: its fuel is what its guard and its [break] allow. *)
Lemma simulatePoints_loop_length :
  forall fuel i pts retBal nonretBal,
    (i + fuel = S (Z.to_nat (Qfloor (TimelineChart.years p))))%nat ->
    length (TimelineChart.simulatePoints_loop p cR cN fuel i pts retBal nonretBal)
    = (length pts + fuel)%nat.
Proof.
  assert (Hy : 0 <= TimelineChart.years p) by apply Q.le_max_l.
  assert (Hf : (0 <= Qfloor (TimelineChart.years p))%Z).
  { change 0%Z with (Qfloor 0). now apply Qfloor_resp_le. }
  induction fuel as [|fuel IH]; intros i pts retBal nonretBal Hi; simpl.
  - lia.
  - assert (Hle : of_nat i <= TimelineChart.years p).
    { apply Qle_trans with (inject_Z (Qfloor (TimelineChart.years p))); [|apply Qfloor_le].
      unfold of_nat. rewrite <- Zle_Qle. lia. }
    rewrite (proj2 (Qleb_le _ _) Hle).
    destruct (of_nat i =? TimelineChart.years p) eqn:E.
    + apply Qeq_bool_iff in E.
      assert (fuel = 0%nat).
      { assert (Ef : Qfloor (TimelineChart.years p) = Z.of_nat i).
        { rewrite <- E. apply Qfloor_Z. }
        lia. }
      subst fuel. rewrite length_app. simpl. lia.
    + destruct (TimelineChart.simulatePoints_year p cR cN _ retBal nonretBal) as [r' n'].
      rewrite IH by lia. rewrite length_app. simpl. lia.
Qed.

Lemma simulatePoints_length :
  length (TimelineChart.simulatePoints p cR cN)
  = S (Z.to_nat (Qfloor (TimelineChart.years p))).
Proof.
  unfold TimelineChart.simulatePoints. now rewrite simulatePoints_loop_length.
Qed.


Lemma simulatePoints_year_decumulation (age retBal nonretBal : Q) :
  TimelineChart.retirementAge p <= age ->
  let net := TimelineChart.simulatePoints_toWithdraw p age in
  let retBal' := retBal * (1 + TimelineChart.rPost p) in
  let nonretBal' := nonretBal * (1 + TimelineChart.rPost p) in
  TimelineChart.simulatePoints_year p cR cN age retBal nonretBal
  = if net <=? nonretBal'
    then (retBal', nonretBal' - net)
    else (Qmax 0 (retBal' - (net - nonretBal')), 0).
Proof.
  intros Hage net retBal' nonretBal'. subst net retBal' nonretBal'.
  unfold TimelineChart.simulatePoints_year.
  rewrite (proj2 (Qltb_ge _ _) Hage).
  destruct (_ <=? _) eqn:E.
  - change (0 <? 0) with false. reflexivity.
  - apply Qleb_gt in E. rewrite (proj2 (Qltb_lt _ _)) by lra. reflexivity.
Qed.

Lemma simulatePoints_year_shortfall (age retBal nonretBal : Q) :
  TimelineChart.retirementAge p <= age ->
  0 <= retBal * (1 + TimelineChart.rPost p) ->
  retBal * (1 + TimelineChart.rPost p) + nonretBal * (1 + TimelineChart.rPost p)
  <= TimelineChart.simulatePoints_toWithdraw p age ->
  fst (TimelineChart.simulatePoints_year p cR cN age retBal nonretBal) == 0
  /\ snd (TimelineChart.simulatePoints_year p cR cN age retBal nonretBal) == 0.
Proof.
  intros Hage Hr Hs. unfold TimelineChart.simulatePoints_year.
  rewrite (proj2 (Qltb_ge _ _) Hage).
  pose proof (withdraw_shortfall _ _ (TimelineChart.simulatePoints_toWithdraw p age) Hr Hs)
    as Hw.
  destruct (TimelineChart.simulatePoints_toWithdraw p age <=? _); exact Hw.
Qed.

End SimulatePoints.

(** C4 (amended).  For every input with non-negative starting balances,
    non-negative annual contributions and growth factors [1 + rPre] and
    [1 + rPost] that are not negative, the balances returned by
    [simulateToAge] and those of every snapshot of [simulatePoints] are
    non-negative, whatever the withdrawal need; and in a decumulation year
    whose need is at least the combined grown balances both buckets are
    driven to 0.  The simulators return balances and nothing else: a
    shortfall is not reported. *)
Theorem C4_balances_never_negative `{FracPow} :
  (forall (s : Fields) (targetAge additional : Q),
     0 <= parseNumber (retirementAccounts s) 0 -> 0 <= parseNumber (nonRetirement s) 0 ->
     0 <= additional -> 0 <= 1 + App.rPrePct s -> 0 <= 1 + App.rPostPct s ->
     0 <= App.retBal (App.simulateToAge s targetAge additional)
     /\ 0 <= App.nonretBal (App.simulateToAge s targetAge additional))
  /\ (forall (p : TimelineChart.Props) (annualRetContribLocal annualNonRetContribLocal : Q),
        0 <= TimelineChart.initialRet p -> 0 <= TimelineChart.initialNonRet p ->
        0 <= annualRetContribLocal -> 0 <= annualNonRetContribLocal ->
        0 <= 1 + TimelineChart.rPre p -> 0 <= 1 + TimelineChart.rPost p ->
        Forall Spec.nonneg_point
          (TimelineChart.simulatePoints p annualRetContribLocal annualNonRetContribLocal))
  /\ (forall (s : Fields) (additional age : Q) (b : App.Totals),
        Number (retirementAge s) <= age ->
        let rate := if age <? App.retirementAgeNum s then App.rPrePct s else App.rPostPct s in
        0 <= App.retBal b -> 0 <= 1 + rate ->
        App.retBal b * (1 + rate) + App.nonretBal b * (1 + rate)
        <= App.simulateToAge_toWithdraw s age ->
        App.retBal (App.simulateToAge_body s additional age b) == 0
        /\ App.nonretBal (App.simulateToAge_body s additional age b) == 0)
  /\ (forall (p : TimelineChart.Props) (annualRetContribLocal annualNonRetContribLocal : Q)
             (age retBal nonretBal : Q),
        TimelineChart.retirementAge p <= age ->
        0 <= retBal -> 0 <= 1 + TimelineChart.rPost p ->
        retBal * (1 + TimelineChart.rPost p) + nonretBal * (1 + TimelineChart.rPost p)
        <= TimelineChart.simulatePoints_toWithdraw p age ->
        fst (TimelineChart.simulatePoints_year p annualRetContribLocal
               annualNonRetContribLocal age retBal nonretBal) == 0
        /\ snd (TimelineChart.simulatePoints_year p annualRetContribLocal
                  annualNonRetContribLocal age retBal nonretBal) == 0).
Proof.
  split; [|split; [|split]].
  - intros. now apply simulateToAge_nonneg.
  - intros. now apply simulatePoints_nonneg.
  - intros s additional age b Hage rate Hr Hrate Hs.
    apply simulateToAge_body_shortfall; try assumption.
    apply Qmult_le_0_compat; assumption.
  - intros p cR cN age retBal nonretBal Hage Hr Hrate Hs.
    apply simulatePoints_year_shortfall; try assumption.
    apply Qmult_le_0_compat; assumption.
Qed.

Lemma C4_witness :
  (0 <= parseNumber (retirementAccounts early_retirement) 0
   /\ 0 <= parseNumber (nonRetirement early_retirement) 0
   /\ 0 <= 25000 /\ 0 <= 1 + App.rPrePct early_retirement
   /\ 0 <= 1 + App.rPostPct early_retirement
   /\ 0 <= App.retBal (@App.simulateToAge no_frac early_retirement 62 25000)
   /\ 0 <= App.nonretBal (@App.simulateToAge no_frac early_retirement 62 25000))
  /\ Forall Spec.nonneg_point
       (@TimelineChart.simulatePoints no_frac early_retirement_chart 25000 25000)
  /\ (Number (retirementAge early_retirement) <= 60
      /\ 1000 * (1 + 0 / 100) + 2000 * (1 + 0 / 100)
         <= @App.simulateToAge_toWithdraw no_frac early_retirement 60
      /\ App.retBal (@App.simulateToAge_body no_frac early_retirement 25000 60
                       {| App.retBal := 1000; App.nonretBal := 2000 |}) == 0
      /\ App.nonretBal (@App.simulateToAge_body no_frac early_retirement 25000 60
                          {| App.retBal := 1000; App.nonretBal := 2000 |}) == 0)
  /\ (TimelineChart.retirementAge early_retirement_chart <= 60
      /\ fst (@TimelineChart.simulatePoints_year no_frac early_retirement_chart 25000 25000
                60 1000 2000) == 0
      /\ snd (@TimelineChart.simulatePoints_year no_frac early_retirement_chart 25000 25000
                60 1000 2000) == 0).
Proof.
  destruct (@C4_balances_never_negative no_frac) as (A & B & C & D).
  split; [|split; [|split]].
  - do 5 (split; [discriminate|]).
    apply A; discriminate.
  - apply B; discriminate.
  - split; [discriminate|]. split; [vm_compute; discriminate|].
    apply (C early_retirement 25000 60 {| App.retBal := 1000; App.nonretBal := 2000 |}).
    + discriminate.
    + discriminate.
    + discriminate.
    + vm_compute; discriminate.
  - split; [discriminate|].
    apply (D early_retirement_chart 25000 25000 60 1000 2000).
    + discriminate.
    + discriminate.
    + discriminate.
    + vm_compute; discriminate.
Defined.

(** C4 as stated fails for a return below -100%: growth by the factor
    [1 + rPre = -1] turns the balances negative, in [simulateToAge] and in
    the second snapshot of [simulatePoints]. *)
Lemma C4_counterexample :
  App.nonretBal (@App.simulateToAge no_frac return_below_minus_100 65 0) < 0
  /\ (let pt := nth 1 (@TimelineChart.simulatePoints no_frac return_below_minus_100_chart 0 0)
                  {| TimelineChart.age := 0; TimelineChart.retBal := 0;
                     TimelineChart.nonretBal := 0 |} in
      In pt (@TimelineChart.simulatePoints no_frac return_below_minus_100_chart 0 0)
      /\ TimelineChart.retBal pt < 0 /\ TimelineChart.nonretBal pt < 0).
Proof.
  split; [vm_compute; reflexivity|].
  split; [|split; vm_compute; reflexivity].
  apply nth_In. rewrite simulatePoints_length. vm_compute. lia.
Qed.

(** * Further properties *)

(** ** Sums and powers *)

Lemma sum_upto_nonneg (f : nat -> Q) :
  (forall t, 0 <= f t) -> forall n, 0 <= Spec.sum_upto n f.
Proof.
  intros Hf. induction n as [|n IH]; simpl.
  - apply Qle_refl.
  - specialize (Hf n). lra.
Qed.

Lemma sum_upto_prefix (f : nat -> Q) :
  (forall t, 0 <= f t) ->
  forall n m, (n <= m)%nat -> Spec.sum_upto n f <= Spec.sum_upto m f.
Proof.
  intros Hf n m Hnm. induction Hnm as [|m Hnm IH]; simpl.
  - apply Qle_refl.
  - specialize (Hf m). lra.
Qed.

Lemma sum_upto_ext (f f' : nat -> Q) :
  (forall t, f t == f' t) -> forall n, Spec.sum_upto n f == Spec.sum_upto n f'.
Proof.
  intros Hf. induction n as [|n IH]; simpl.
  - reflexivity.
  - now rewrite IH, Hf.
Qed.

Lemma iterations_le (N1 N2 : Q) : N1 <= N2 -> (iterations N1 <= iterations N2)%nat.
Proof.
  intros HN. unfold iterations. apply Qceiling_resp_le in HN. lia.
Qed.

Lemma iterations_eq_whole (N : Q) (k : nat) : N == of_nat k -> iterations N = k.
Proof.
  intros HN. unfold iterations. rewrite HN. apply iterations_whole.
Qed.

Lemma of_nat_pos (k : nat) : (0 < k)%nat -> 0 < of_nat k.
Proof.
  intros Hk. unfold of_nat. change 0 with (inject_Z 0). rewrite <- Zlt_Qlt. lia.
Qed.

Lemma Qpower_succ (a : Q) (t : nat) : a ^ (Z.of_nat t + 1) == a ^ Z.of_nat t * a.
Proof.
  rewrite Qpower_plus' by lia. now rewrite Qpower_1_r.
Qed.

Lemma Qpower_of_nat_S (a : Q) (t : nat) : a ^ Z.of_nat (S t) == a ^ Z.of_nat t * a.
Proof.
  rewrite Nat2Z.inj_succ, <- Z.add_1_r. apply Qpower_succ.
Qed.

(** The series of a withdrawal that grows at [g], discounted at [r]. *)
Lemma growing_series (w g r : Q) (k : nat) :
  0 < 1 + r ->
  Spec.sum_upto k (fun t => w * (1 + g) ^ Z.of_nat t / (1 + r) ^ (Z.of_nat t + 1)) * (r - g)
  == w * (1 - ((1 + g) / (1 + r)) ^ Z.of_nat k).
Proof.
  intros Hr. induction k as [|k IH].
  - simpl. ring.
  - cbn [Spec.sum_upto]. rewrite Qmult_plus_distr_l, IH.
    rewrite !Qdiv_power, Qpower_succ, !Qpower_of_nat_S.
    assert (Hb : 0 < (1 + r) ^ Z.of_nat k) by (apply Qpower_0_lt, Hr).
    set (A := (1 + g) ^ Z.of_nat k) in *. set (B := (1 + r) ^ Z.of_nat k) in *.
    clearbody A B. field. split; lra.
Qed.

Lemma level_series (w r : Q) (k : nat) :
  0 < 1 + r ->
  Spec.sum_upto k (fun t => w * (1 + r) ^ Z.of_nat t / (1 + r) ^ (Z.of_nat t + 1))
  == of_nat k * w / (1 + r).
Proof.
  intros Hr. induction k as [|k IH].
  - simpl. unfold of_nat. simpl. field. lra.
  - cbn [Spec.sum_upto]. rewrite IH, Qpower_succ, of_nat_S.
    assert (Hb : 0 < (1 + r) ^ Z.of_nat k) by (apply Qpower_0_lt, Hr).
    set (B := (1 + r) ^ Z.of_nat k) in *. clearbody B. field. split; lra.
Qed.

(** ** The corpus sizer, continued *)

Section CorpusMore.
Context `{FracPow}.

Lemma net_nonneg (w g p ssA off f : Q) (t : nat) : 0 <= Spec.net w g p ssA off f t.
Proof. apply Q.le_max_l. Qed.

Lemma presentValue_term_nonneg (w g p ssA off f r : Q) (t : nat) :
  0 < 1 + r -> 0 <= Spec.net w g p ssA off f t / (1 + r) ^ (Z.of_nat t + 1).
Proof.
  intros Hr. apply Qle_shift_div_l; [apply Qpower_0_lt, Hr|].
  rewrite Qmult_0_l. apply net_nonneg.
Qed.

Lemma presentValue_nonneg (w g p ssA off f N r : Q) :
  0 < 1 + r -> 0 <= Spec.presentValue w g p ssA off f N r.
Proof.
  intros Hr. unfold Spec.presentValue.
  apply sum_upto_nonneg. intros t. now apply presentValue_term_nonneg.
Qed.

Lemma presentValue_horizon_le (w g p ssA off f N1 N2 r : Q) :
  0 < 1 + r -> N1 <= N2 ->
  Spec.presentValue w g p ssA off f N1 r <= Spec.presentValue w g p ssA off f N2 r.
Proof.
  intros Hr HN. unfold Spec.presentValue.
  apply sum_upto_prefix; [|now apply iterations_le].
  intros t. now apply presentValue_term_nonneg.
Qed.

Lemma net_without_fixed_income (w g off f : Q) (t : nat) :
  0 <= w -> 0 <= 1 + g ->
  Spec.net w g 0 0 off f t == w * (1 + g) ^ Z.of_nat t.
Proof.
  intros Hw Hg. unfold Spec.net, Spec.base, Spec.pension, Spec.ss.
  assert (Hb : 0 <= w * (1 + g) ^ Z.of_nat t).
  { apply Qmult_le_0_compat; [exact Hw | apply Qpower_0_le, Hg]. }
  assert (Es : (if off <=? of_nat t then 0 * Math_pow (1 + f) (of_nat t - off) else 0) == 0).
  { destruct (off <=? of_nat t); [ring | reflexivity]. }
  rewrite Es. rewrite Q.max_r; [ring | lra].
Qed.

End CorpusMore.

(** X1.  With a positive discount factor [1 + rPost], the target corpus
    is never negative, whatever the other inputs. *)
Theorem targetCorpus_nonneg `{FracPow} (a n N w rPre r g p ssA off f : Q) :
  0 < 1 + r ->
  0 <= Result.targetCorpus (calculate a n N w rPre r g p ssA off f).
Proof.
  intros Hr. destruct (Qlt_le_dec 0 N) as [HN|HN].
  - rewrite calculate_targetCorpus by exact HN. now apply presentValue_nonneg.
  - rewrite calculate_no_horizon by exact HN. apply Qle_refl.
Qed.

Lemma targetCorpus_nonneg_witness :
  0 < 1 + - (1 # 2)
  /\ 0 <= Result.targetCorpus
            (@calculate no_frac 1000 2 3 50000 (6 / 100) (- (1 # 2)) (2 / 100) 60000 0 1 0).
Proof.
  split; [reflexivity|].
  apply (@targetCorpus_nonneg no_frac 1000 2 3 50000 (6 / 100) (- (1 # 2)) (2 / 100) 60000 0 1 0).
  reflexivity.
Defined.

(** X2.  With a positive discount factor, a longer retirement horizon
    never lowers the target corpus. *)
Theorem targetCorpus_horizon_monotone `{FracPow} (a n N1 N2 w rPre r g p ssA off f : Q) :
  0 < 1 + r -> N1 <= N2 ->
  Result.targetCorpus (calculate a n N1 w rPre r g p ssA off f)
  <= Result.targetCorpus (calculate a n N2 w rPre r g p ssA off f).
Proof.
  intros Hr HN. destruct (Qlt_le_dec 0 N1) as [H1|H1].
  - assert (H2 : 0 < N2) by lra.
    rewrite !calculate_targetCorpus by assumption.
    now apply presentValue_horizon_le.
  - rewrite (calculate_no_horizon a n N1) by exact H1. cbn [Result.targetCorpus].
    destruct (Qlt_le_dec 0 N2) as [H2|H2].
    + rewrite calculate_targetCorpus by exact H2. now apply presentValue_nonneg.
    + rewrite calculate_no_horizon by exact H2. apply Qle_refl.
Qed.

Lemma targetCorpus_horizon_monotone_witness :
  0 < 1 + 4 / 100 /\ 2 <= 7 # 2
  /\ Result.targetCorpus
       (@calculate no_frac 1000 2 2 50000 (6 / 100) (4 / 100) (2 / 100) 12000 0 1 0)
     <= Result.targetCorpus
          (@calculate no_frac 1000 2 (7 # 2) 50000 (6 / 100) (4 / 100) (2 / 100) 12000 0 1 0).
Proof.
  split; [reflexivity|]. split; [discriminate|].
  apply (@targetCorpus_horizon_monotone no_frac 1000 2 2 (7 # 2) 50000 (6 / 100) (4 / 100)
           (2 / 100) 12000 0 1 0).
  - reflexivity.
  - discriminate.
Defined.

(** X3.  Without pension and social security, a withdrawal [w >= 0]
    that grows at [g >= -100%] over a whole horizon of [k] years has the
    present value of a growing annuity: [w * (1 - q^k) / (r - g)] with
    [q = (1+g)/(1+r)] when the discount rate [r] differs from [g], and
    [k * w / (1 + r)] when it equals it. *)
Theorem targetCorpus_growing_annuity `{FracPow} (a n w rPre r g off f : Q) (k : nat) :
  0 <= w -> 0 <= 1 + g -> 0 < 1 + r -> (0 < k)%nat ->
  let corpus := Result.targetCorpus (calculate a n (of_nat k) w rPre r g 0 0 off f) in
  (~ r == g -> corpus == w * (1 - ((1 + g) / (1 + r)) ^ Z.of_nat k) / (r - g))
  /\ (r == g -> corpus == of_nat k * w / (1 + r)).
Proof.
  intros Hw Hg Hr Hk corpus.
  assert (E : corpus
              == Spec.sum_upto k
                   (fun t => w * (1 + g) ^ Z.of_nat t / (1 + r) ^ (Z.of_nat t + 1))).
  { subst corpus. rewrite calculate_targetCorpus by now apply of_nat_pos.
    unfold Spec.presentValue. rewrite iterations_whole.
    apply sum_upto_ext. intros t. now rewrite net_without_fixed_income. }
  split.
  - intros Hne. rewrite E.
    apply Qmult_inj_r with (z := r - g); [intros E0; apply Hne; lra|].
    rewrite growing_series by exact Hr. field. intros E0; apply Hne; lra.
  - intros Hrg. rewrite E. rewrite <- (level_series w r k Hr).
    apply sum_upto_ext. intros t. now rewrite Hrg.
Qed.

Lemma targetCorpus_growing_annuity_witness :
  (0 <= 50000 /\ 0 <= 1 + (1 # 10) /\ 0 < 1 + (1 # 5) /\ (0 < 2)%nat
   /\ ~ (1 # 5) == (1 # 10)
   /\ Result.targetCorpus
        (@calculate no_frac 0 0 (of_nat 2) 50000 0 (1 # 5) (1 # 10) 0 0 0 0)
      == 50000 * (1 - ((1 + (1 # 10)) / (1 + (1 # 5))) ^ 2) / ((1 # 5) - (1 # 10)))
  /\ (0 <= 50000 /\ 0 <= 1 + (1 # 10) /\ 0 < 1 + (1 # 10) /\ (0 < 2)%nat
      /\ (1 # 10) == (1 # 10)
      /\ Result.targetCorpus
           (@calculate no_frac 0 0 (of_nat 2) 50000 0 (1 # 10) (1 # 10) 0 0 0 0)
         == of_nat 2 * 50000 / (1 + (1 # 10))).
Proof.
  split.
  - split; [discriminate|]. split; [discriminate|]. split; [reflexivity|].
    split; [lia|]. split; [discriminate|].
    apply (proj1 (@targetCorpus_growing_annuity no_frac 0 0 50000 0 (1 # 5) (1 # 10) 0 0 2%nat
                    ltac:(discriminate) ltac:(discriminate) eq_refl ltac:(lia))).
    discriminate.
  - split; [discriminate|]. split; [discriminate|]. split; [reflexivity|].
    split; [lia|]. split; [reflexivity|].
    apply (proj2 (@targetCorpus_growing_annuity no_frac 0 0 50000 0 (1 # 10) (1 # 10) 0 0 2%nat
                    ltac:(discriminate) ltac:(discriminate) eq_refl ltac:(lia))).
    reflexivity.
Defined.

(** ** Saving towards a balance *)

(** [r * (1 + (1+r) + ... + (1+r)^(k-1)) = (1+r)^k - 1]. *)
Lemma annuity_sum (r : Q) (k : nat) :
  r * Spec.sum_upto k (fun i => (1 + r) ^ Z.of_nat i) == (1 + r) ^ Z.of_nat k - 1.
Proof.
  induction k as [|k IH].
  - simpl. ring.
  - cbn [Spec.sum_upto]. rewrite Qmult_plus_distr_r, IH, Qpower_of_nat_S. ring.
Qed.

Lemma annuity_sum_pos (r : Q) (k : nat) :
  0 <= 1 + r -> (0 < k)%nat -> 0 < Spec.sum_upto k (fun i => (1 + r) ^ Z.of_nat i).
Proof.
  intros Hr Hk. destruct k as [|k]; [lia|].
  apply Qlt_le_trans with (Spec.sum_upto 1 (fun i => (1 + r) ^ Z.of_nat i)).
  - simpl. reflexivity.
  - apply sum_upto_prefix; [|lia]. intros t. now apply Qpower_0_le.
Qed.

Lemma annuity_sum_level (r : Q) (k : nat) :
  r == 0 -> Spec.sum_upto k (fun i => (1 + r) ^ Z.of_nat i) == of_nat k.
Proof.
  intros Hr. induction k as [|k IH].
  - reflexivity.
  - cbn [Spec.sum_upto]. rewrite IH, of_nat_S, Hr.
    rewrite Qplus_0_r, Qpower_1. reflexivity.
Qed.

(** The factor the source divides by, [((1+r)^k - 1) / r], is positive. *)
Lemma annuity_factor_sum (r : Q) (k : nat) :
  0 < r ->
  ((1 + r) ^ Z.of_nat k - 1) / r == Spec.sum_upto k (fun i => (1 + r) ^ Z.of_nat i).
Proof.
  intros Hr. rewrite <- annuity_sum. field. lra.
Qed.

Lemma annuity_factor_pos (r : Q) (k : nat) :
  0 < r -> (0 < k)%nat -> 0 < ((1 + r) ^ Z.of_nat k - 1) / r.
Proof.
  intros Hr Hk. rewrite annuity_factor_sum by exact Hr.
  apply annuity_sum_pos; [lra | exact Hk].
Qed.

(** A loop of [for_lt] establishes a property indexed by its counter. *)
Lemma for_lt_indexed {A : Type} (P : nat -> A -> Prop) (N : Q) (body : nat -> A -> A)
    (acc : A) :
  P 0%nat acc ->
  (forall t a, P t a -> P (S t) (body t a)) ->
  P (iterations N) (for_lt (iterations N) 0 N body acc).
Proof.
  intros H0 Hstep. rewrite for_lt_iterations.
  induction (iterations N) as [|k IH].
  - exact H0.
  - rewrite seq_S, fold_left_app. simpl. apply Hstep, IH.
Qed.

Section Annual.
Context `{FracPow}.

Lemma calculate_annual (a n N w rPre r g p ssA off f : Q) :
  0 < N -> ~ n == 0 ->
  Result.annual (calculate a n N w rPre r g p ssA off f)
  = let neededFv :=
      Qmax 0 (Result.targetCorpus (calculate a n N w rPre r g p ssA off f)
              - a * Math_pow (1 + rPre) n) in
    if 0 <? rPre
    then neededFv / ((Math_pow (1 + rPre) n - 1) / rPre)
    else neededFv / n.
Proof.
  intros HN Hn. unfold calculate.
  rewrite (proj2 (Qleb_gt _ _) HN).
  destruct (n =? 0) eqn:En; [apply Qeq_bool_iff in En; contradiction|].
  reflexivity.
Qed.

End Annual.

(** X4.  The annual saving returned by the corpus sizer is never
    negative when the years to retirement are not negative and, for a
    positive return, whole; a lump-sum shortfall, when the result has
    one, is never negative. *)
Theorem annual_nonneg `{FracPow} (a n N w rPre r g p ssA off f : Q) :
  0 <= n -> (0 < rPre -> exists k, n == of_nat k) ->
  0 <= Result.annual (calculate a n N w rPre r g p ssA off f)
  /\ (forall lump,
        Result.lumpNeeded (calculate a n N w rPre r g p ssA off f) = Some lump ->
        0 <= lump).
Proof.
  intros Hn Hwhole.
  destruct (Qlt_le_dec 0 N) as [HN|HN].
  - destruct (Qeq_dec n 0) as [E|E].
    + unfold calculate. rewrite (proj2 (Qleb_gt _ _) HN).
      rewrite (proj2 (Qeq_bool_iff _ _) E). cbn. split; [apply Qle_refl|].
      intros lump [= <-]. apply Q.le_max_l.
    + split.
      * rewrite calculate_annual by assumption. cbv zeta.
        set (neededFv := Qmax 0 _).
        assert (Hfv : 0 <= neededFv) by apply Q.le_max_l. clearbody neededFv.
        destruct (0 <? rPre) eqn:Er.
        -- apply Qltb_lt in Er. destruct (Hwhole Er) as [k Hk].
           rewrite (Math_pow_whole_eq _ _ _ Hk).
           assert (Hk0 : (0 < k)%nat).
           { destruct k; [exfalso; apply E; exact Hk | lia]. }
           pose proof (annuity_factor_pos rPre k Er Hk0) as Hf.
           apply Qle_shift_div_l; [exact Hf | lra].
        -- apply Qle_shift_div_l; lra.
      * unfold calculate. rewrite (proj2 (Qleb_gt _ _) HN).
        destruct (n =? 0) eqn:En; [apply Qeq_bool_iff in En; contradiction|].
        cbn. discriminate.
  - rewrite calculate_no_horizon by exact HN. cbn. split; [apply Qle_refl | discriminate].
Qed.

Lemma annual_nonneg_witness :
  0 <= 2 /\ (exists k, 2 == of_nat k)
  /\ 0 <= Result.annual
            (@calculate no_frac 1000 2 2 50000 (6 / 100) (4 / 100) (2 / 100) 0 0 0 0).
Proof.
  split; [discriminate|]. split; [exists 2%nat; reflexivity|].
  refine (proj1 (@annual_nonneg no_frac 1000 2 2 50000 (6 / 100) (4 / 100) (2 / 100) 0 0 0 0
                   _ _)).
  - discriminate.
  - intros _. exists 2%nat. reflexivity.
Defined.

(** The saving the source computes for a gap at retirement (lines 242-250
    and 260-268), accumulated over the years, closes the gap. *)
Lemma saving_closes_gap `{FracPow} (gap r n : Q) (k : nat) :
  n == of_nat k -> (0 < k)%nat -> 0 <= r -> 0 <= gap ->
  (if 0 <? gap then
     if n =? 0 then gap
     else if 0 <? r then gap / ((Math_pow (1 + r) n - 1) / r)
     else gap / n
   else 0)
  * Spec.sum_upto k (fun i => (1 + r) ^ Z.of_nat i) == gap.
Proof.
  intros Hn Hk Hr Hgap.
  pose proof (of_nat_pos k Hk) as Hk'.
  destruct (0 <? gap) eqn:Eg.
  - destruct (n =? 0) eqn:En; [apply Qeq_bool_iff in En; lra|].
    destruct (0 <? r) eqn:Er.
    + apply Qltb_lt in Er. rewrite (Math_pow_whole_eq _ _ _ Hn).
      pose proof (annuity_factor_pos r k Er Hk) as Hf.
      rewrite <- (annuity_factor_sum r k Er).
      set (F := ((1 + r) ^ Z.of_nat k - 1) / r) in *. clearbody F.
      field. lra.
    + apply Qltb_ge in Er. assert (E0 : r == 0) by lra.
      rewrite (annuity_sum_level r k E0), Hn. field. lra.
  - apply Qltb_ge in Eg. lra.
Qed.

Section Projection.
Context `{FracPow}.
Variable s : Fields.
Variable k : nat.
Hypothesis Hyears : App.yearsToRetire s == of_nat k.

Lemma yearsToRetire_iterations : iterations (App.yearsToRetire s) = k.
Proof. now apply iterations_eq_whole. Qed.

Lemma pow_yearsToRetire (b : Q) : Math_pow b (App.yearsToRetire s) = b ^ Z.of_nat k.
Proof. now apply Math_pow_whole_eq. Qed.

Lemma projectBalancesToRetirement_closed :
  App.projRetAtRet s
  == parseNumber (retirementAccounts s) 0 * (1 + App.rPrePct s) ^ Z.of_nat k
  /\ App.projNonretAtRet s
     == parseNumber (nonRetirement s) 0 * (1 + App.rPrePct s) ^ Z.of_nat k.
Proof.
  unfold App.projRetAtRet, App.projNonretAtRet, App.projectBalancesToRetirement.
  cbv zeta.
  match goal with
  | |- context [for_lt _ _ ?N ?body ?acc] =>
      pose proof (for_lt_indexed
        (fun t b =>
           App.ret b == parseNumber (retirementAccounts s) 0 * (1 + App.rPrePct s) ^ Z.of_nat t
           /\ App.nonret b
              == parseNumber (nonRetirement s) 0 * (1 + App.rPrePct s) ^ Z.of_nat t)
        N body acc) as Hc
  end.
  rewrite yearsToRetire_iterations in Hc |- *. apply Hc.
  - simpl. split; ring.
  - intros t b [Hr Hn]. cbn [App.ret App.nonret].
    unfold App.annualRetirementContrib, App.annualNonRetContrib.
    rewrite Hr, Hn, Qpower_of_nat_S. split; ring.
Qed.

Lemma projectBalancesWithAdditionalNonRet_closed (c : Q) :
  App.ret (App.projectBalancesWithAdditionalNonRet s c)
  == parseNumber (retirementAccounts s) 0 * (1 + App.rPrePct s) ^ Z.of_nat k
  /\ App.nonret (App.projectBalancesWithAdditionalNonRet s c)
     == parseNumber (nonRetirement s) 0 * (1 + App.rPrePct s) ^ Z.of_nat k
        + c * Spec.sum_upto k (fun i => (1 + App.rPrePct s) ^ Z.of_nat i).
Proof.
  unfold App.projectBalancesWithAdditionalNonRet. cbv zeta.
  match goal with
  | |- context [for_lt _ _ ?N ?body ?acc] =>
      pose proof (for_lt_indexed
        (fun t b =>
           App.ret b == parseNumber (retirementAccounts s) 0 * (1 + App.rPrePct s) ^ Z.of_nat t
           /\ App.nonret b
              == parseNumber (nonRetirement s) 0 * (1 + App.rPrePct s) ^ Z.of_nat t
                 + c * Spec.sum_upto t (fun i => (1 + App.rPrePct s) ^ Z.of_nat i))
        N body acc) as Hc
  end.
  rewrite yearsToRetire_iterations in Hc |- *. apply Hc.
  - simpl. split; ring.
  - intros t b [Hr Hn]. cbn [App.ret App.nonret Spec.sum_upto].
    unfold App.annualRetirementContrib, App.annualNonRetContrib.
    rewrite Hr, Hn, Qpower_of_nat_S. split; [ring|].
    pose proof (annuity_sum (App.rPrePct s) t) as Ea.
    set (S := Spec.sum_upto t _) in *. set (P := (1 + App.rPrePct s) ^ Z.of_nat t) in *.
    assert (EP : P == App.rPrePct s * S + 1) by lra.
    rewrite EP. ring.
Qed.

Lemma projected_total :
  App.projRetAtRet s + App.projNonretAtRet s
  == App.currentAssets s * (1 + App.rPrePct s) ^ Z.of_nat k.
Proof.
  destruct projectBalancesToRetirement_closed as [Er En].
  rewrite Er, En. unfold App.currentAssets. ring.
Qed.

(** The annual saving of the corpus sizer, accumulated over the years, is
    the gap between the target corpus and the future value of the
    assets. *)
Lemma annual_times_sum :
  (0 < k)%nat -> 0 < App.yearsInRetirement s -> 0 <= App.rPrePct s ->
  App.annual s * Spec.sum_upto k (fun i => (1 + App.rPrePct s) ^ Z.of_nat i)
  == Qmax 0 (App.targetCorpus s - App.currentAssets s * (1 + App.rPrePct s) ^ Z.of_nat k).
Proof.
  intros Hk0 HN Hr. pose proof (of_nat_pos k Hk0) as Hk'.
  unfold App.annual, App.targetCorpus, App.calculated.
  rewrite calculate_annual; [|exact HN | rewrite Hyears; lra].
  cbv zeta. rewrite !pow_yearsToRetire.
  set (gap := Qmax 0 _).
  assert (Hg : 0 <= gap) by apply Q.le_max_l. clearbody gap.
  destruct (0 <? App.rPrePct s) eqn:E.
  - apply Qltb_lt in E.
    pose proof (annuity_factor_pos _ k E Hk0) as Hf.
    rewrite <- (annuity_factor_sum _ k E).
    set (F := ((1 + App.rPrePct s) ^ Z.of_nat k - 1) / App.rPrePct s) in *. clearbody F.
    field. lra.
  - apply Qltb_ge in E. assert (E0 : App.rPrePct s == 0) by lra.
    rewrite (annuity_sum_level _ k E0), Hyears. field. lra.
Qed.

(** The two gaps at retirement add up to the larger of the gap of the
    corpus sizer and the non-retirement shortfall. *)
Lemma gap_split :
  App.remainingTotalAtRet s + App.shortfallNonretAtRet s
  == Qmax (Qmax 0 (App.targetCorpus s
                   - App.currentAssets s * (1 + App.rPrePct s) ^ Z.of_nat k))
          (App.shortfallNonretAtRet s).
Proof.
  pose proof projected_total as Et.
  assert (Hs : 0 <= App.shortfallNonretAtRet s) by apply Q.le_max_l.
  unfold App.remainingTotalAtRet.
  set (sh := App.shortfallNonretAtRet s) in *.
  set (fv := App.currentAssets s * (1 + App.rPrePct s) ^ Z.of_nat k) in *.
  set (pr := App.projRetAtRet s) in *. set (pn := App.projNonretAtRet s) in *.
  set (tc := App.targetCorpus s) in *. clearbody sh fv pr pn tc.
  cases_minmax; lra.
Qed.

End Projection.

(** X5.  For whole years to retirement the year-by-year projection of
    the two balances adds up to the future value the corpus sizer
    compounds in one step, [currentAssets * (1 + rPre)^yearsToRetire]. *)
Theorem projection_is_future_value `{FracPow} (s : Fields) (k : nat) :
  App.yearsToRetire s == of_nat k ->
  App.projRetAtRet s + App.projNonretAtRet s
  == App.currentAssets s * Math_pow (1 + App.rPrePct s) (App.yearsToRetire s).
Proof.
  intros Hk. rewrite (pow_yearsToRetire s k Hk). now apply projected_total.
Qed.

Lemma projection_is_future_value_witness :
  App.yearsToRetire retire_at_penalty_free == of_nat 5
  /\ App.projRetAtRet retire_at_penalty_free + App.projNonretAtRet retire_at_penalty_free
     == App.currentAssets retire_at_penalty_free
        * @Math_pow no_frac (1 + App.rPrePct retire_at_penalty_free)
            (App.yearsToRetire retire_at_penalty_free).
Proof.
  split; [reflexivity|].
  apply (@projection_is_future_value no_frac retire_at_penalty_free 5). reflexivity.
Defined.

(** X6.  Saving the annual amount the corpus sizer returns closes the
    gap: with whole years to retirement, at least one, a return that is
    not negative and a horizon, the balances projected with that saving
    add up to the target corpus, or to the future value of the current
    assets when that is already larger. *)
Theorem annual_saving_reaches_target `{FracPow} (s : Fields) (k : nat) :
  App.yearsToRetire s == of_nat k -> (0 < k)%nat ->
  0 < App.yearsInRetirement s -> 0 <= App.rPrePct s ->
  let b := App.projectBalancesWithAdditionalNonRet s (App.annual s) in
  App.ret b + App.nonret b
  == Qmax (App.targetCorpus s) (App.currentAssets s * (1 + App.rPrePct s) ^ Z.of_nat k).
Proof.
  intros Hk Hk0 HN Hr b. subst b.
  destruct (projectBalancesWithAdditionalNonRet_closed s k Hk (App.annual s)) as [Er En].
  rewrite Er, En.
  pose proof (annual_times_sum s k Hk Hk0 HN Hr) as Ea.
  set (S := Spec.sum_upto k _) in *.
  assert (Et : parseNumber (retirementAccounts s) 0 * (1 + App.rPrePct s) ^ Z.of_nat k
               + (parseNumber (nonRetirement s) 0 * (1 + App.rPrePct s) ^ Z.of_nat k
                  + App.annual s * S)
               == App.currentAssets s * (1 + App.rPrePct s) ^ Z.of_nat k + App.annual s * S).
  { unfold App.currentAssets. ring. }
  rewrite Et, Ea.
  set (fv := App.currentAssets s * (1 + App.rPrePct s) ^ Z.of_nat k). clearbody fv.
  set (tc := App.targetCorpus s). clearbody tc.
  cases_minmax; lra.
Qed.

Lemma annual_saving_reaches_target_witness :
  App.yearsToRetire early_retirement == of_nat 5 /\ (0 < 5)%nat
  /\ 0 < App.yearsInRetirement early_retirement /\ 0 <= App.rPrePct early_retirement
  /\ App.ret (App.projectBalancesWithAdditionalNonRet early_retirement
                (@App.annual no_frac early_retirement))
     + App.nonret (App.projectBalancesWithAdditionalNonRet early_retirement
                     (@App.annual no_frac early_retirement))
     == Qmax (@App.targetCorpus no_frac early_retirement)
             (App.currentAssets early_retirement
              * (1 + App.rPrePct early_retirement) ^ Z.of_nat 5).
Proof.
  split; [reflexivity|]. split; [lia|]. split; [reflexivity|]. split; [discriminate|].
  apply (@annual_saving_reaches_target no_frac early_retirement 5).
  - reflexivity.
  - lia.
  - reflexivity.
  - discriminate.
Defined.

Lemma Qmax_div (a b F : Q) : 0 < F -> Qmax a b / F == Qmax (a / F) (b / F).
Proof.
  intros HF. destruct (Qlt_le_dec a b) as [Hab|Hab].
  - rewrite (Q.max_r a b) by lra. rewrite Q.max_r; [reflexivity|].
    apply Qdiv_le_compat_pos; [exact HF | lra].
  - rewrite (Q.max_l a b) by exact Hab. rewrite Q.max_l; [reflexivity|].
    now apply Qdiv_le_compat_pos.
Qed.

(** The saving for a gap is the gap, floored at 0, divided by the factor
    of the annuity: positive for whole years, at least one. *)
Lemma saving_by_factor `{FracPow} (gap r n : Q) (k : nat) :
  n == of_nat k -> (0 < k)%nat ->
  let F := if 0 <? r then ((1 + r) ^ Z.of_nat k - 1) / r else of_nat k in
  0 < F
  /\ (if 0 <? gap then
        if n =? 0 then gap
        else if 0 <? r then gap / ((Math_pow (1 + r) n - 1) / r)
        else gap / n
      else 0) == Qmax 0 gap / F
  /\ (if 0 <? r then gap / ((Math_pow (1 + r) n - 1) / r) else gap / n) == gap / F.
Proof.
  intros Hn Hk F. pose proof (of_nat_pos k Hk) as Hk'.
  assert (HF : 0 < F).
  { subst F. destruct (0 <? r) eqn:Er; [|exact Hk'].
    apply Qltb_lt in Er. now apply annuity_factor_pos. }
  assert (E3 : (if 0 <? r then gap / ((Math_pow (1 + r) n - 1) / r) else gap / n) == gap / F).
  { subst F. destruct (0 <? r).
    - now rewrite (Math_pow_whole_eq _ _ _ Hn).
    - now rewrite Hn. }
  split; [exact HF|]. split; [|exact E3].
  destruct (0 <? gap) eqn:Eg.
  - apply Qltb_lt in Eg. rewrite (Qmax_0_pos _ Eg).
    destruct (n =? 0) eqn:En; [apply Qeq_bool_iff in En; lra|]. exact E3.
  - apply Qltb_ge in Eg. rewrite Q.max_l by exact Eg.
    clearbody F. field. lra.
Qed.

Section EarlyNeed.
Context `{FracPow}.
Variable s : Fields.

Lemma earlyNeeded_series :
  App.earlyNeeded s
  = Spec.presentValue (App.withdrawalVal s) (App.inflationPct s) (App.pensionAnnual s)
      (App.ssAnnual s) (App.ssOffset s) (App.fixedIncomeInflationPct s)
      (App.earlyYears s) (App.rPostPct s).
Proof.
  unfold App.earlyNeeded.
  destruct (0 <? App.earlyYears s) eqn:Ey.
  - destruct (_ <? Qabs _);
      [apply earlyNeeded_main_series | apply earlyNeeded_fallback_series].
  - apply Qltb_ge in Ey. unfold Spec.presentValue.
    now rewrite (iterations_nonpos _ Ey).
Qed.

Lemma shortfallNonretAtRet_nonneg : 0 <= App.shortfallNonretAtRet s.
Proof. apply Q.le_max_l. Qed.


End EarlyNeed.

(** X7.  The early need, the part of the corpus spent before the
    penalty-free age, is never negative and never more than the target
    corpus, when the discount factor is positive and the early window is
    within the horizon. *)
Theorem earlyNeeded_within_targetCorpus `{FracPow} (s : Fields) :
  0 < 1 + App.rPostPct s -> App.earlyYears s <= App.yearsInRetirement s ->
  0 <= App.earlyNeeded s /\ App.earlyNeeded s <= App.targetCorpus s.
Proof.
  intros Hr Hy. rewrite earlyNeeded_series. split.
  - now apply presentValue_nonneg.
  - unfold App.targetCorpus, App.calculated.
    destruct (Qlt_le_dec 0 (App.yearsInRetirement s)) as [HN|HN].
    + rewrite calculate_targetCorpus by exact HN. now apply presentValue_horizon_le.
    + rewrite calculate_no_horizon by exact HN. cbn [Result.targetCorpus].
      unfold Spec.presentValue. rewrite iterations_nonpos by lra. apply Qle_refl.
Qed.

Lemma earlyNeeded_within_targetCorpus_witness :
  0 < 1 + App.rPostPct early_retirement
  /\ App.earlyYears early_retirement <= App.yearsInRetirement early_retirement
  /\ 0 <= @App.earlyNeeded no_frac early_retirement
  /\ @App.earlyNeeded no_frac early_retirement <= @App.targetCorpus no_frac early_retirement.
Proof.
  split; [reflexivity|]. split; [discriminate|].
  apply (@earlyNeeded_within_targetCorpus no_frac early_retirement).
  - reflexivity.
  - discriminate.
Defined.

(** X8.  The bridge saving funds the early need: with whole years to
    retirement, at least one, and a return that is not negative, the
    non-retirement balance projected with the annual bridge saving is the
    early need, or the balance projected without it when that is already
    larger. *)
Theorem bridge_saving_funds_early_need `{FracPow} (s : Fields) (k : nat) :
  App.yearsToRetire s == of_nat k -> (0 < k)%nat -> 0 <= App.rPrePct s ->
  App.nonret (App.projectBalancesWithAdditionalNonRet s (App.neededNonretAnnual_bridge s))
  == Qmax (App.earlyNeeded s) (App.projNonretAtRet s).
Proof.
  intros Hk Hk0 Hr.
  destruct (projectBalancesWithAdditionalNonRet_closed s k Hk (App.neededNonretAnnual_bridge s))
    as [_ En].
  destruct (projectBalancesToRetirement_closed s k Hk) as [_ Ep].
  rewrite En, <- Ep.
  assert (Eb : App.neededNonretAnnual_bridge s
               * Spec.sum_upto k (fun i => (1 + App.rPrePct s) ^ Z.of_nat i)
               == App.shortfallNonretAtRet s).
  { unfold App.neededNonretAnnual_bridge. cbv zeta.
    apply saving_closes_gap; try assumption. apply shortfallNonretAtRet_nonneg. }
  rewrite Eb. unfold App.shortfallNonretAtRet.
  set (en := App.earlyNeeded s). set (pn := App.projNonretAtRet s). clearbody en pn.
  cases_minmax; lra.
Qed.

Lemma bridge_saving_funds_early_need_witness :
  App.yearsToRetire early_retirement == of_nat 5 /\ (0 < 5)%nat
  /\ 0 <= App.rPrePct early_retirement
  /\ App.nonret (App.projectBalancesWithAdditionalNonRet early_retirement
                   (@App.neededNonretAnnual_bridge no_frac early_retirement))
     == Qmax (@App.earlyNeeded no_frac early_retirement)
             (App.projNonretAtRet early_retirement).
Proof.
  split; [reflexivity|]. split; [lia|]. split; [discriminate|].
  apply (@bridge_saving_funds_early_need no_frac early_retirement 5).
  - reflexivity.
  - lia.
  - discriminate.
Defined.

(** X9.  With whole years to retirement, at least one, and a horizon,
    the additional retirement saving and the bridge saving add up to the
    larger of the annual saving of the corpus sizer and the bridge saving:
    the split into two buckets asks for no less than the corpus sizer and
    for more only when the bridge alone needs more. *)
Theorem required_savings_split `{FracPow} (s : Fields) (k : nat) :
  App.yearsToRetire s == of_nat k -> (0 < k)%nat -> 0 < App.yearsInRetirement s ->
  App.additionalRetAnnual s + App.neededNonretAnnual_bridge s
  == Qmax (App.annual s) (App.neededNonretAnnual_bridge s).
Proof.
  intros Hk Hk0 HN.
  destruct (saving_by_factor (App.remainingTotalAtRet s) (App.rPrePct s) (App.yearsToRetire s)
              k Hk Hk0) as (HF & Ea & _).
  destruct (saving_by_factor (App.shortfallNonretAtRet s) (App.rPrePct s) (App.yearsToRetire s)
              k Hk Hk0) as (_ & Eb & _).
  set (gapFv := Qmax 0 (App.targetCorpus s
                        - App.currentAssets s
                          * Math_pow (1 + App.rPrePct s) (App.yearsToRetire s))).
  destruct (saving_by_factor gapFv (App.rPrePct s) (App.yearsToRetire s) k Hk Hk0)
    as (_ & _ & Ec).
  set (F := if 0 <? App.rPrePct s then _ else _) in *.
  assert (E1 : App.additionalRetAnnual s == Qmax 0 (App.remainingTotalAtRet s) / F)
    by exact Ea.
  assert (E2 : App.neededNonretAnnual_bridge s == Qmax 0 (App.shortfallNonretAtRet s) / F)
    by exact Eb.
  assert (E3 : App.annual s == gapFv / F).
  { unfold App.annual, App.calculated.
    rewrite calculate_annual; [|exact HN | rewrite Hk; pose proof (of_nat_pos k Hk0); lra].
    exact Ec. }
  rewrite E1, E2, E3, <- Qmax_div by exact HF.
  rewrite !Q.max_r by apply Q.le_max_l.
  assert (Es : App.remainingTotalAtRet s / F + App.shortfallNonretAtRet s / F
               == (App.remainingTotalAtRet s + App.shortfallNonretAtRet s) / F).
  { clearbody F. field. lra. }
  rewrite Es, (gap_split s k Hk).
  subst gapFv. now rewrite (pow_yearsToRetire s k Hk).
Qed.

Lemma required_savings_split_witness :
  App.yearsToRetire early_retirement == of_nat 5 /\ (0 < 5)%nat
  /\ 0 < App.yearsInRetirement early_retirement
  /\ @App.additionalRetAnnual no_frac early_retirement
     + @App.neededNonretAnnual_bridge no_frac early_retirement
     == Qmax (@App.annual no_frac early_retirement)
             (@App.neededNonretAnnual_bridge no_frac early_retirement).
Proof.
  split; [reflexivity|]. split; [lia|]. split; [reflexivity|].
  apply (@required_savings_split no_frac early_retirement 5).
  - reflexivity.
  - lia.
  - reflexivity.
Defined.

(** ** The waterfall, continued *)


Section Needs.
Context `{FracPow}.
Variable s : Fields.
Hypothesis Hwhole : 0 < App.rPrePct s -> exists k, App.yearsToRetire s == of_nat k.




End Needs.

Section WaterfallTotal.
Context `{FracPow}.
Variable s : Fields.
Hypothesis Hpay : 0 < App.grossPay s.
Hypothesis Hneed : 0 <= App.additionalRetAnnual s.
Hypothesis Hmatch : 0 <= App.employerMatchPctNum s.
Hypothesis Hlim : 0 <= parseNumber (parsed (four01kLimit s)) 0.
Hypothesis Hraw :
  ToNumber (four01kLimit s) = JS.Fin (parseNumber (parsed (four01kLimit s)) 0).
Hypothesis Hira : 0 <= parseNumber (iraLimit s) 7500.
Hypothesis Hbridge : 0 <= App.neededNonretAnnual_bridge s.



End WaterfallTotal.





(** *** The projection with the recommendations *)

Section WithRecommendations.
Context `{FracPow}.
Variable s : Fields.
Variable k : nat.
Hypothesis Hyears : App.yearsToRetire s == of_nat k.


End WithRecommendations.



(** *** No pay to divide by *)

(** [Math.min(cap, pay * (Math.ceil(amount / pay * 100) / 100))] for a pay
    of 0 and a positive amount: [amount / 0] is [Infinity], and
    [0 * Infinity] is [NaN], whatever the rounding. *)
Lemma rounding_no_pay `{Rounding} (amount pay cap : Q) :
  pay == 0 -> 0 < amount ->
  JS.min (JS.Fin cap)
    (JS.rounded
       (JS.mul (JS.Fin pay)
          (JS.rounded
             (JS.div
                (JS.ceil
                   (JS.rounded
                      (JS.mul (JS.rounded (JS.div (JS.Fin amount) (JS.Fin pay)))
                              (JS.Fin 100))))
                (JS.Fin 100)))))
  = JS.NaN.
Proof.
  intros Hp Ha. apply Qeq_bool_iff in Hp.
  assert (E0 : (amount =? 0) = false).
  { destruct (amount =? 0) eqn:E; [|reflexivity]. apply Qeq_bool_iff in E. lra. }
  assert (E1 : (amount <? 0) = false) by (apply Qltb_ge; lra).
  assert (Ed : JS.div (JS.Fin amount) (JS.Fin pay) = JS.Inf false).
  { unfold JS.div. now rewrite Hp, E0, E1. }
  rewrite Ed. cbn. now rewrite Hp.
Qed.


(** The test of line 313. *)
Local Abbreviation rounds s :=
  (JS.ltb (App.recommended401kDollar_sum s) (JS.Fin (App.employeeCapDollar s))
   && JS.gtb (App.recommended401kDollar_sum s) (JS.Fin 0)).

Section Step4Cases.
Context `{FracPow} `{Rounding}.
Variable s : Fields.


(** An employee amount that is a number makes the other two numbers. *)
Lemma sum_finite (v : Q) :
  App.recommended401kDollar_sum s = JS.Fin v ->
  exists r3, App.remainingNeed_step3 s = JS.Fin r3 /\ 0 <= r3.
Proof.
  unfold App.remainingNeed_step3, App.recommended401kDollar_sum, App.emp401kDollarExtraRec.
  destruct (ToNumber (four01kLimit s)) as [f|[|]|];
    cbn [JS.sub JS.add JS.neg JS.min JS.max]; intros E; try discriminate E.
  - eexists. split; [reflexivity | apply Q.le_max_l].
  - cbn. eexists. split; [reflexivity | apply Q.le_max_l].
Qed.

Lemma rounds_finite :
  rounds s = true ->
  exists v, App.recommended401kDollar_sum s = JS.Fin v
            /\ 0 < v /\ v < App.employeeCapDollar s.
Proof.
  intros G. apply andb_prop in G as [Gc G0].
  destruct (App.recommended401kDollar_sum s) as [v|[|]|]; cbn in Gc, G0; try discriminate.
  exists v. apply Qltb_lt in Gc, G0. repeat split; assumption.
Qed.

(** Step 4 rounds when the employee amount is positive and below the
    limit. *)
Lemma step4_not_rounded :
  rounds s = false ->
  App.step4 s
  = {| App.recommended401kDollar := App.recommended401kDollar_sum s;
       App.recommendedIra := JS.Fin (App.recommendedIra_step2 s) |}.
Proof.
  intros G. unfold App.step4. cbv zeta. now rewrite G.
Qed.

(** With a gross pay of 0 the rounding of step 4 gives [NaN]. *)
Lemma step4_no_pay :
  App.grossPay s == 0 -> rounds s = true ->
  App.step4 s = {| App.recommended401kDollar := JS.NaN; App.recommendedIra := JS.NaN |}.
Proof.
  intros Hgp G. destruct (rounds_finite G) as (v & Ev & Hv0 & Hvc).
  unfold App.step4. cbv zeta. rewrite G. rewrite Ev.
  rewrite (rounding_no_pay _ _ _ Hgp Hv0). reflexivity.
Qed.


(** Without a number for the employee amount nothing is credited against
    the bridge saving. *)
Lemma credited_no_employee :
  App.rec401kDollarUsed s = JS.NaN ->
  App.recEmployerMatchDollarUsed s = JS.NaN
  /\ App.neededNonretAnnual_credited s = JS.Fin (App.neededNonretAnnual_bridge s).
Proof.
  intros Er.
  assert (Em : App.recEmployerMatchDollarUsed s = JS.NaN)
    by (unfold App.recEmployerMatchDollarUsed; now rewrite Er).
  split; [exact Em|].
  unfold App.neededNonretAnnual_credited, App.totalDeltaRet, App.deltaEmployee,
    App.deltaMatch. rewrite Em, Er. reflexivity.
Qed.

(** When step 4 gives [NaN] for the employee amount of a number, nothing
    is credited against the bridge saving and the other three amounts
    count as 0 in the total shown. *)
Lemma neededNonretAnnual_not_a_number (r3 : Q) :
  App.step4 s = {| App.recommended401kDollar := JS.NaN; App.recommendedIra := JS.NaN |} ->
  App.remainingNeed_step3 s = JS.Fin r3 -> 0 <= r3 ->
  App.rec401kDollarUsed s = JS.NaN
  /\ App.recEmployerMatchDollarUsed s = JS.NaN
  /\ exists n,
       App.neededNonretAnnual s = JS.Fin n
       /\ App.neededNonretAnnual_bridge s + r3 == n
       /\ exists t, App.neededAnnualSavingsShown s = JS.Fin t /\ t == n.
Proof.
  intros E4 E3 Hr3.
  assert (Er : App.rec401kDollarUsed s = JS.NaN)
    by (unfold App.rec401kDollarUsed; now rewrite E4).
  destruct (credited_no_employee Er) as [Em Ec].
  split; [exact Er|]. split; [exact Em|].
  assert (En : exists n, App.neededNonretAnnual s = JS.Fin n
                         /\ App.neededNonretAnnual_bridge s + r3 == n).
  { unfold App.neededNonretAnnual. rewrite Ec, E3. cbn [JS.gtb].
    destruct (0 <? r3) eqn:Er3.
    - destruct (or0_Fin (App.neededNonretAnnual_bridge s)) as (b' & -> & Eb).
      cbn [JS.add]. eexists. split; [reflexivity|]. lra.
    - apply Qltb_ge in Er3. eexists. split; [reflexivity|]. lra. }
  destruct En as (n & En & Hn). exists n. split; [exact En|]. split; [exact Hn|].
  unfold App.neededAnnualSavingsShown. rewrite En, Er, Em, E4.
  cbn [App.recommendedIra]. destruct (or0_Fin n) as (n' & -> & En').
  cbn [JS.or0 JS.add]. eexists. split; [reflexivity|]. lra.
Qed.


End Step4Cases.

(** X13.  With a gross pay of 0 (the salary field empty and no bonus),
    exactly when the employee amount before rounding is positive and below
    the limit, the employee amount, the individual-account amount and the
    employer match are all [NaN]; the non-retirement saving is still a
    number, and the total shown as "Needed annual savings" is that number
    alone, the three [NaN] counting as 0.  Otherwise the employee and
    individual-account amounts are those of steps 1 to 3.  This holds
    whatever the rounding. *)
Theorem no_pay_not_a_number `{FracPow} `{Rounding} (s : Fields) :
  App.grossPay s == 0 ->
  (JS.gtb (App.recommended401kDollar_sum s) (JS.Fin 0) = true
   /\ JS.ltb (App.recommended401kDollar_sum s) (JS.Fin (App.employeeCapDollar s)) = true ->
   App.rec401kDollarUsed s = JS.NaN
   /\ App.recommendedIra (App.step4 s) = JS.NaN
   /\ App.recEmployerMatchDollarUsed s = JS.NaN
   /\ exists n t,
        App.neededNonretAnnual s = JS.Fin n
        /\ App.neededAnnualSavingsShown s = JS.Fin t /\ t == n)
  /\ (~ (JS.gtb (App.recommended401kDollar_sum s) (JS.Fin 0) = true
         /\ JS.ltb (App.recommended401kDollar_sum s) (JS.Fin (App.employeeCapDollar s))
            = true) ->
      App.rec401kDollarUsed s = App.recommended401kDollar_sum s
      /\ App.recommendedIra (App.step4 s) = JS.Fin (App.recommendedIra_step2 s)).
Proof.
  intros Hgp. split.
  - intros [Hpos Hc].
    assert (G : rounds s = true) by (now rewrite Hpos, Hc).
    pose proof (step4_no_pay s Hgp G) as E4.
    destruct (rounds_finite s G) as (v & Ev & _).
    destruct (sum_finite s v Ev) as (r3 & E3 & Hr3).
    destruct (neededNonretAnnual_not_a_number s r3 E4 E3 Hr3)
      as (Er & Em & n & En & _ & t & Et & Htn).
    split; [exact Er|]. split; [now rewrite E4|]. split; [exact Em|].
    exists n, t. repeat split; assumption.
  - intros Hn.
    assert (G : rounds s = false).
    { destruct (rounds s) eqn:G; [|reflexivity].
      apply andb_prop in G as [Gc G0].
      exfalso. apply Hn. split; assumption. }
    unfold App.rec401kDollarUsed. rewrite (step4_not_rounded s G). split; reflexivity.
Qed.

Lemma no_pay_not_a_number_witness :
  (App.grossPay salary_cleared == 0
   /\ JS.gtb (@App.recommended401kDollar_sum no_frac binary64 salary_cleared) (JS.Fin 0)
      = true
   /\ JS.ltb (@App.recommended401kDollar_sum no_frac binary64 salary_cleared)
        (JS.Fin (App.employeeCapDollar salary_cleared)) = true
   /\ @App.rec401kDollarUsed no_frac binary64 salary_cleared = JS.NaN
   /\ App.recommendedIra (@App.step4 no_frac binary64 salary_cleared) = JS.NaN
   /\ @App.recEmployerMatchDollarUsed no_frac binary64 salary_cleared = JS.NaN)
  /\ (App.grossPay salary_cleared_at_limit == 0
      /\ JS.ltb (@App.recommended401kDollar_sum no_frac binary64 salary_cleared_at_limit)
           (JS.Fin (App.employeeCapDollar salary_cleared_at_limit)) = false
      /\ @App.rec401kDollarUsed no_frac binary64 salary_cleared_at_limit
         = @App.recommended401kDollar_sum no_frac binary64 salary_cleared_at_limit
      /\ App.recommendedIra (@App.step4 no_frac binary64 salary_cleared_at_limit)
         = JS.Fin (@App.recommendedIra_step2 no_frac binary64 salary_cleared_at_limit)).
Proof.
  assert (H0 : JS.gtb (@App.recommended401kDollar_sum no_frac binary64 salary_cleared)
                 (JS.Fin 0) = true)
    by (vm_compute; reflexivity).
  assert (Hc : JS.ltb (@App.recommended401kDollar_sum no_frac binary64 salary_cleared)
                 (JS.Fin (App.employeeCapDollar salary_cleared)) = true)
    by (vm_compute; reflexivity).
  assert (Hl : JS.ltb (@App.recommended401kDollar_sum no_frac binary64 salary_cleared_at_limit)
                 (JS.Fin (App.employeeCapDollar salary_cleared_at_limit)) = false)
    by (vm_compute; reflexivity).
  split.
  - split; [reflexivity|]. split; [exact H0|]. split; [exact Hc|].
    destruct (proj1 (@no_pay_not_a_number no_frac binary64 salary_cleared (Qeq_refl 0))
                (conj H0 Hc))
      as (Er & Ei & Em & _).
    split; [exact Er|]. split; [exact Ei | exact Em].
  - split; [reflexivity|]. split; [exact Hl|].
    refine (proj2 (@no_pay_not_a_number no_frac binary64 salary_cleared_at_limit
                     (Qeq_refl 0)) _).
    intros [_ E]. rewrite Hl in E. discriminate E.
Defined.





(** ** The balance simulators, continued *)

(** Two loops over the same ages whose bodies preserve a relation between
    their states end in related states. *)
Lemma for_age_related {A B : Type} (R : A -> B -> Prop) (targetAge : Q)
    (bodyA : Q -> A -> A) (bodyB : Q -> B -> B) :
  (forall age a b, R a b -> R (bodyA age a) (bodyB age b)) ->
  forall fuel age a b,
    R a b -> R (for_age fuel age targetAge bodyA a) (for_age fuel age targetAge bodyB b).
Proof.
  intros Hbody. induction fuel as [|fuel IH]; intros age a b Hab; simpl.
  - exact Hab.
  - destruct (age <? targetAge); [apply IH, Hbody, Hab | exact Hab].
Qed.

(** A loop over the ages below [targetAge] and a loop over the counters
    below [max(0, targetAge - from)] run in step. *)
Lemma for_age_for_lt {A B : Type} (R : A -> B -> Prop) (from targetAge : Q)
    (bodyA : Q -> A -> A) (bodyB : nat -> B -> B) :
  (forall age t a b, age < targetAge -> R a b -> R (bodyA age a) (bodyB t b)) ->
  forall fuel t age a b,
    age == from + of_nat t -> R a b ->
    R (for_age fuel age targetAge bodyA a)
      (for_lt fuel t (Qmax 0 (targetAge - from)) bodyB b).
Proof.
  intros Hbody. induction fuel as [|fuel IH]; intros t age a b Hage Hab; simpl.
  - exact Hab.
  - pose proof (of_nat_nonneg t) as Ht.
    destruct (age <? targetAge) eqn:E.
    + apply Qltb_lt in E.
      rewrite (proj2 (Qltb_lt (of_nat t) (Qmax 0 (targetAge - from)))).
      * apply IH; [rewrite of_nat_S, Hage; ring | now apply Hbody].
      * apply Qlt_le_trans with (targetAge - from); [lra | apply Q.le_max_r].
    + apply Qltb_ge in E.
      rewrite (proj2 (Qltb_ge (of_nat t) (Qmax 0 (targetAge - from)))); [exact Hab|].
      apply Q.max_lub; lra.
Qed.

Lemma iterations_max0 (N : Q) : iterations (Qmax 0 N) = iterations N.
Proof.
  destruct (Qlt_le_dec 0 N) as [HN|HN].
  - now rewrite Qmax_0_pos.
  - rewrite (iterations_nonpos N HN). apply iterations_nonpos.
    rewrite Q.max_l by exact HN. apply Qle_refl.
Qed.

(** X16.  With a retirement-age field that holds a number, the balances
    [simulateToAge] reports at the retirement age are those of the
    projection to retirement with the same additional non-retirement
    saving: the two loops of the accumulation years agree, for whole and
    for fractional years to retirement. *)
Theorem simulateToAge_at_retirement `{FracPow} (s : Fields) (additional : Q) :
  retirementAge s <> None ->
  App.simulateToAge s (App.retirementAgeNum s) additional
  = {| App.retBal := App.ret (App.projectBalancesWithAdditionalNonRet s additional);
       App.nonretBal := App.nonret (App.projectBalancesWithAdditionalNonRet s additional) |}.
Proof.
  intros Hfield. pose proof (retirementAge_field s Hfield) as Eraw.
  assert (R : App.retBal (App.simulateToAge s (App.retirementAgeNum s) additional)
              = App.ret (App.projectBalancesWithAdditionalNonRet s additional)
              /\ App.nonretBal (App.simulateToAge s (App.retirementAgeNum s) additional)
                 = App.nonret (App.projectBalancesWithAdditionalNonRet s additional)).
  { unfold App.simulateToAge, App.projectBalancesWithAdditionalNonRet, App.yearsToRetire.
    cbv zeta. rewrite iterations_max0.
    apply (for_age_for_lt
             (fun a b => App.retBal a = App.ret b /\ App.nonretBal a = App.nonret b)
             (App.curAgeNum s) (App.retirementAgeNum s)).
    - intros age t a b Hage [Er En].
      rewrite simulateToAge_body_accumulation by (try rewrite Eraw; exact Hage).
      cbn [App.retBal App.nonretBal App.ret App.nonret]. now rewrite Er, En.
    - unfold of_nat. simpl. ring.
    - split; reflexivity. }
  destruct (App.simulateToAge s (App.retirementAgeNum s) additional) as [r n].
  cbn [App.retBal App.nonretBal] in R. destruct R as [-> ->]. reflexivity.
Qed.

Lemma simulateToAge_at_retirement_witness :
  retirementAge early_retirement <> None
  /\ @App.simulateToAge no_frac early_retirement (App.retirementAgeNum early_retirement) 20000
     = {| App.retBal :=
            App.ret (App.projectBalancesWithAdditionalNonRet early_retirement 20000);
          App.nonretBal :=
            App.nonret (App.projectBalancesWithAdditionalNonRet early_retirement 20000) |}.
Proof.
  split; [discriminate|].
  apply (@simulateToAge_at_retirement no_frac early_retirement 20000). discriminate.
Defined.

(** X17.  With a retirement-age field that holds a number, [simulateToAge]
    of the component and [simulateToAgeLocal] of the chart, given the props
    the component passes and the same additional non-retirement saving,
    return the same balances at every target age. *)
Theorem simulateToAge_agrees_with_chart `{FracPow} (s : Fields) (targetAge additional : Q) :
  retirementAge s <> None ->
  let c := {| TimelineChart.annualRetContrib := App.annualRetirementContrib;
              TimelineChart.annualNonRetContrib := App.annualNonRetContrib + additional |} in
  App.retBal (App.simulateToAge s targetAge additional)
  = TimelineChart.totalRetBal (TimelineChart.simulateToAgeLocal (chartProps s) c targetAge)
  /\ App.nonretBal (App.simulateToAge s targetAge additional)
     = TimelineChart.totalNonretBal (TimelineChart.simulateToAgeLocal (chartProps s) c targetAge).
Proof.
  intros Hfield c. pose proof (retirementAge_field s Hfield) as Eraw.
  unfold App.simulateToAge, TimelineChart.simulateToAgeLocal.
  apply (for_age_related
           (fun a b => App.retBal a = TimelineChart.totalRetBal b
                       /\ App.nonretBal a = TimelineChart.totalNonretBal b)).
  - intros age a b [Er En].
    unfold App.simulateToAge_body, TimelineChart.simulateToAgeLocal_body,
      App.simulateToAge_toWithdraw.
    rewrite Eraw, Er, En. cbn [chartProps TimelineChart.rPre TimelineChart.rPost
      TimelineChart.retirementAge TimelineChart.withdrawal TimelineChart.inflation
      TimelineChart.pensionAnnual TimelineChart.ssAnnual TimelineChart.ssStartAge
      TimelineChart.fixedIncomeInflation TimelineChart.annualRetContrib
      TimelineChart.annualNonRetContrib c].
    destruct (age <? App.retirementAgeNum s).
    + split; reflexivity.
    + destruct (_ <=? _); destruct (0 <? _); split; reflexivity.
  - split; reflexivity.
Qed.

Lemma simulateToAge_agrees_with_chart_witness :
  retirementAge early_retirement <> None
  /\ App.retBal (@App.simulateToAge no_frac early_retirement 60 20000)
     = TimelineChart.totalRetBal
         (@TimelineChart.simulateToAgeLocal no_frac (@chartProps no_frac early_retirement)
            {| TimelineChart.annualRetContrib := App.annualRetirementContrib;
               TimelineChart.annualNonRetContrib := App.annualNonRetContrib + 20000 |} 60)
  /\ App.nonretBal (@App.simulateToAge no_frac early_retirement 60 20000)
     = TimelineChart.totalNonretBal
         (@TimelineChart.simulateToAgeLocal no_frac (@chartProps no_frac early_retirement)
            {| TimelineChart.annualRetContrib := App.annualRetirementContrib;
               TimelineChart.annualNonRetContrib := App.annualNonRetContrib + 20000 |} 60).
Proof.
  split; [discriminate|].
  apply (@simulateToAge_agrees_with_chart no_frac early_retirement 60 20000). discriminate.
Defined.

(** *** Splitting the loop over the ages *)

(** The age after [j] increments. *)
Lemma age_after (j : nat) (age : Q) : Nat.iter j (fun a => a + 1) age == age + of_nat j.
Proof.
  induction j as [|j IH].
  - simpl. unfold of_nat. simpl. ring.
  - rewrite Nat.iter_succ, IH, of_nat_S. ring.
Qed.

(** The loop only compares its target age. *)
Lemma for_age_target {A : Type} (T T' : Q) (body : Q -> A -> A) :
  T == T' -> forall fuel age acc, for_age fuel age T body acc = for_age fuel age T' body acc.
Proof.
  intros HT. induction fuel as [|fuel IH]; intros age acc; simpl.
  - reflexivity.
  - assert (E : (age <? T) = (age <? T')).
    { destruct (age <? T') eqn:E'.
      - apply Qltb_lt in E'. apply Qltb_lt. lra.
      - apply Qltb_ge in E'. apply Qltb_ge. lra. }
    rewrite E. destruct (age <? T'); [apply IH | reflexivity].
Qed.

(** A loop of [j + k] whole years is the loop of the first [j] years
    followed by the loop of the other [k]. *)
Lemma for_age_split {A : Type} (body : Q -> A -> A) (T : Q) (k : nat) :
  forall j age acc,
    T == age + of_nat (j + k) ->
    for_age (j + k) age T body acc
    = for_age k (Nat.iter j (fun a => a + 1) age) T body
        (for_age j age (age + of_nat j) body acc).
Proof.
  induction j as [|j IH]; intros age acc HT.
  - reflexivity.
  - pose proof (of_nat_nonneg (j + k)) as Hjk. pose proof (of_nat_nonneg j) as Hj.
    change (S j + k)%nat with (S (j + k)) in *.
    cbn [for_age].
    rewrite (proj2 (Qltb_lt age T)) by (rewrite HT, of_nat_S; lra).
    rewrite (proj2 (Qltb_lt age (age + of_nat (S j)))) by (rewrite of_nat_S; lra).
    rewrite IH by (rewrite HT, of_nat_S; ring).
    rewrite Nat.iter_succ_r.
    f_equal. apply for_age_target. rewrite of_nat_S. ring.
Qed.

Section SimulateToAgeSplit.
Context `{FracPow}.
Variable s : Fields.

(** [simulateToAge] only compares its target age. *)
Lemma simulateToAge_target (T T' additional : Q) :
  T == T' -> App.simulateToAge s T additional = App.simulateToAge s T' additional.
Proof.
  intros HT. unfold App.simulateToAge.
  assert (Ei : iterations (T - App.curAgeNum s) = iterations (T' - App.curAgeNum s)).
  { unfold iterations. now rewrite HT. }
  rewrite Ei. now apply for_age_target.
Qed.

Lemma simulateToAge_whole (j : nat) (additional : Q) :
  App.simulateToAge s (App.curAgeNum s + of_nat j) additional
  = for_age j (App.curAgeNum s) (App.curAgeNum s + of_nat j)
      (App.simulateToAge_body s additional)
      {| App.retBal := parseNumber (retirementAccounts s) 0;
         App.nonretBal := parseNumber (nonRetirement s) 0 |}.
Proof.
  unfold App.simulateToAge.
  assert (Ei : iterations (App.curAgeNum s + of_nat j - App.curAgeNum s) = j).
  { apply iterations_eq_whole. ring. }
  now rewrite Ei.
Qed.

(** The balances [k] whole years after the age [curAge + j] are those of
    the loop continued from the balances at that age. *)
Lemma simulateToAge_continue (j k : nat) (additional : Q) :
  App.simulateToAge s (App.curAgeNum s + of_nat (j + k)) additional
  = for_age k (Nat.iter j (fun a => a + 1) (App.curAgeNum s))
      (App.curAgeNum s + of_nat (j + k))
      (App.simulateToAge_body s additional)
      (App.simulateToAge s (App.curAgeNum s + of_nat j) additional).
Proof.
  rewrite (simulateToAge_whole (j + k)), (simulateToAge_whole j).
  apply for_age_split. reflexivity.
Qed.

(** A retirement year that starts with both balances at 0 ends with both
    balances at 0. *)
Lemma simulateToAge_body_depleted (additional age : Q) (b : App.Totals) :
  Number (retirementAge s) <= age ->
  App.retBal b == 0 -> App.nonretBal b == 0 ->
  App.retBal (App.simulateToAge_body s additional age b) == 0
  /\ App.nonretBal (App.simulateToAge_body s additional age b) == 0.
Proof.
  intros Hage Hr Hn.
  assert (Hw : 0 <= App.simulateToAge_toWithdraw s age) by apply Q.le_max_l.
  apply simulateToAge_body_shortfall; [exact Hage | |]; cbv zeta; rewrite ?Hr, ?Hn; lra.
Qed.

Lemma for_age_depleted (additional T : Q) :
  forall fuel age b,
    Number (retirementAge s) <= age ->
    App.retBal b == 0 -> App.nonretBal b == 0 ->
    App.retBal (for_age fuel age T (App.simulateToAge_body s additional) b) == 0
    /\ App.nonretBal (for_age fuel age T (App.simulateToAge_body s additional) b) == 0.
Proof.
  induction fuel as [|fuel IH]; intros age b Hage Hr Hn; simpl.
  - split; assumption.
  - destruct (age <? T); [|split; assumption].
    destruct (simulateToAge_body_depleted additional age b Hage Hr Hn) as [Hr' Hn'].
    apply IH; [lra | assumption | assumption].
Qed.

End SimulateToAgeSplit.

(** X18.  Depletion is final: when the balances [simulateToAge] reports
    at a whole number of years from the current age, at or after the
    retirement age, are both 0, the balances it reports at every later
    whole year are both 0. *)
Theorem depleted_stays_depleted `{FracPow} (s : Fields) (j k : nat) (additional : Q) :
  Number (retirementAge s) <= App.curAgeNum s + of_nat j ->
  App.retBal (App.simulateToAge s (App.curAgeNum s + of_nat j) additional) == 0 ->
  App.nonretBal (App.simulateToAge s (App.curAgeNum s + of_nat j) additional) == 0 ->
  App.retBal (App.simulateToAge s (App.curAgeNum s + of_nat (j + k)) additional) == 0
  /\ App.nonretBal (App.simulateToAge s (App.curAgeNum s + of_nat (j + k)) additional) == 0.
Proof.
  intros Hage Hr Hn. rewrite simulateToAge_continue.
  apply for_age_depleted; [|exact Hr | exact Hn].
  rewrite age_after. exact Hage.
Qed.

Lemma depleted_stays_depleted_witness :
  Number (retirementAge early_retirement) <= App.curAgeNum early_retirement + of_nat 6
  /\ App.retBal (@App.simulateToAge no_frac early_retirement
                   (App.curAgeNum early_retirement + of_nat 6) 10000) == 0
  /\ App.nonretBal (@App.simulateToAge no_frac early_retirement
                      (App.curAgeNum early_retirement + of_nat 6) 10000) == 0
  /\ App.retBal (@App.simulateToAge no_frac early_retirement
                   (App.curAgeNum early_retirement + of_nat (6 + 2)) 10000) == 0
  /\ App.nonretBal (@App.simulateToAge no_frac early_retirement
                      (App.curAgeNum early_retirement + of_nat (6 + 2)) 10000) == 0.
Proof.
  assert (Hr : App.retBal (@App.simulateToAge no_frac early_retirement
                             (App.curAgeNum early_retirement + of_nat 6) 10000) == 0)
    by (vm_compute; reflexivity).
  assert (Hn : App.nonretBal (@App.simulateToAge no_frac early_retirement
                                (App.curAgeNum early_retirement + of_nat 6) 10000) == 0)
    by (vm_compute; reflexivity).
  split; [discriminate|]. split; [exact Hr|]. split; [exact Hn|].
  exact (@depleted_stays_depleted no_frac early_retirement 6 2 10000 ltac:(discriminate) Hr Hn).
Defined.

(** *** Spending the corpus *)

(** A loop of [k + 1] whole years is the loop of the first [k] years
    followed by the body at the age reached. *)
Lemma for_age_last {A : Type} (body : Q -> A -> A) (T : Q) (k : nat) (age : Q) (acc : A) :
  T == age + of_nat (S k) ->
  for_age (S k) age T body acc
  = body (Nat.iter k (fun a => a + 1) age) (for_age k age (age + of_nat k) body acc).
Proof.
  intros HT. replace (S k) with (k + 1)%nat in * by lia.
  rewrite for_age_split by exact HT.
  cbn [for_age].
  rewrite (proj2 (Qltb_lt _ T)); [reflexivity|].
  rewrite age_after, HT. replace (k + 1)%nat with (S k) by lia. rewrite of_nat_S. lra.
Qed.

Section Decumulation.
Context `{FracPow}.
Variable s : Fields.
Variable m : nat.
Hypothesis Hfield : retirementAge s <> None.
Hypothesis Hss : App.ssStartAgeNum s - App.retirementAgeNum s == of_nat m.
Hypothesis Hr : 0 < 1 + App.rPostPct s.

(** The net withdrawal of the year [t] of retirement and its present
    value. *)
Local Abbreviation net :=
  (Spec.net (App.withdrawalVal s) (App.inflationPct s) (App.pensionAnnual s)
     (App.ssAnnual s) (App.ssOffset s) (App.fixedIncomeInflationPct s)).
Local Abbreviation pv k :=
  (Spec.sum_upto k (fun t => net t / (1 + App.rPostPct s) ^ (Z.of_nat t + 1))).

(** The withdrawal the simulator takes [k] whole years into retirement is
    the net withdrawal of the series of the corpus sizer. *)
Lemma simulateToAge_toWithdraw_at (k : nat) (age : Q) :
  age == App.retirementAgeNum s + of_nat k ->
  App.simulateToAge_toWithdraw s age = net k.
Proof.
  intros Hage.
  pose proof (of_nat_nonneg m) as Hm. pose proof (of_nat_nonneg k) as Hk.
  assert (Eoff : App.ssOffset s == of_nat m).
  { unfold App.ssOffset. rewrite Hss. apply Q.max_r. exact Hm. }
  rewrite simulateToAge_toWithdraw_formula by lra.
  unfold Spec.net, Spec.base, Spec.pension, Spec.ss.
  assert (Ek : age - App.retirementAgeNum s == inject_Z (Z.of_nat k))
    by (rewrite Hage; unfold of_nat; ring).
  rewrite !(Math_pow_whole_eq _ _ _ Ek).
  assert (Es : age - App.ssStartAgeNum s == inject_Z (Z.of_nat k - Z.of_nat m)).
  { unfold Z.sub. rewrite inject_Z_plus, inject_Z_opp. fold (of_nat k) (of_nat m). lra. }
  assert (Eo : of_nat k - App.ssOffset s == inject_Z (Z.of_nat k - Z.of_nat m)).
  { unfold Z.sub. rewrite inject_Z_plus, inject_Z_opp. fold (of_nat k) (of_nat m). lra. }
  rewrite (Math_pow_whole_eq _ _ _ Es), (Math_pow_whole_eq _ _ _ Eo).
  destruct (App.ssOffset s <=? of_nat k) eqn:E.
  - apply Qleb_le in E.
    rewrite (proj2 (Qleb_le (App.ssStartAgeNum s) age)) by lra. reflexivity.
  - apply Qleb_gt in E.
    rewrite (proj2 (Qleb_gt (App.ssStartAgeNum s) age)) by lra. reflexivity.
Qed.

Lemma pv_step (k : nat) :
  pv (S k) == pv k + net k / (1 + App.rPostPct s) ^ (Z.of_nat k + 1).
Proof. reflexivity. Qed.

Lemma pv_le (k : nat) : pv k <= pv (S k).
Proof.
  rewrite pv_step.
  pose proof (presentValue_term_nonneg (App.withdrawalVal s) (App.inflationPct s)
                (App.pensionAnnual s) (App.ssAnnual s) (App.ssOffset s)
                (App.fixedIncomeInflationPct s) (App.rPostPct s) k Hr) as Ht.
  lra.
Qed.

(** A retirement year with funds for its withdrawal takes the whole
    withdrawal from the two balances. *)
Lemma simulateToAge_body_paid (additional age : Q) (b : App.Totals) :
  App.retirementAgeNum s <= age ->
  App.simulateToAge_toWithdraw s age
  <= (App.retBal b + App.nonretBal b) * (1 + App.rPostPct s) ->
  App.retBal (App.simulateToAge_body s additional age b)
  + App.nonretBal (App.simulateToAge_body s additional age b)
  == (App.retBal b + App.nonretBal b) * (1 + App.rPostPct s)
     - App.simulateToAge_toWithdraw s age.
Proof.
  intros Hage Hfunds.
  rewrite simulateToAge_body_decumulation;
    [|rewrite (retirementAge_field s Hfield); exact Hage | exact Hage].
  cbv zeta.
  destruct (_ <=? _) eqn:E; cbn [App.retBal App.nonretBal].
  - ring.
  - apply Qleb_gt in E. rewrite Q.max_r by lra. ring.
Qed.

(** The balances after [k] whole years of retirement, started with funds
    for the withdrawals of those years. *)
Lemma decumulation_closed (additional : Q) (age0 : Q) (b0 : App.Totals) :
  age0 == App.retirementAgeNum s ->
  forall k,
    pv k <= App.retBal b0 + App.nonretBal b0 ->
    let b := for_age k age0 (age0 + of_nat k) (App.simulateToAge_body s additional) b0 in
    App.retBal b + App.nonretBal b
    == (1 + App.rPostPct s) ^ Z.of_nat k * (App.retBal b0 + App.nonretBal b0 - pv k).
Proof.
  intros Hage0. induction k as [|k IH]; intros Hpv b; subst b.
  - cbn [for_age]. simpl. ring.
  - rewrite for_age_last by reflexivity.
    pose proof (pv_le k) as Hle.
    specialize (IH ltac:(lra)). cbv zeta in IH.
    set (b := for_age k age0 (age0 + of_nat k) (App.simulateToAge_body s additional) b0) in *.
    assert (Hage : Nat.iter k (fun a => a + 1) age0 == App.retirementAgeNum s + of_nat k)
      by (rewrite age_after, Hage0; reflexivity).
    pose proof (simulateToAge_toWithdraw_at k _ Hage) as Ew.
    pose proof (of_nat_nonneg k) as Hk.
    assert (Hp : 0 < (1 + App.rPostPct s) ^ Z.of_nat k) by (apply Qpower_0_lt, Hr).
    assert (Hp1 : (1 + App.rPostPct s) ^ (Z.of_nat k + 1)
                  == (1 + App.rPostPct s) ^ Z.of_nat k * (1 + App.rPostPct s))
      by apply Qpower_succ.
    assert (En : net k == net k / (1 + App.rPostPct s) ^ (Z.of_nat k + 1)
                          * ((1 + App.rPostPct s) ^ Z.of_nat k * (1 + App.rPostPct s))).
    { rewrite Hp1. field. split; lra. }
    rewrite pv_step in Hpv |- *.
    set (term := net k / (1 + App.rPostPct s) ^ (Z.of_nat k + 1)) in *.
    rewrite simulateToAge_body_paid.
    + rewrite Ew, IH, Qpower_of_nat_S, En. ring.
    + rewrite Hage. lra.
    + rewrite Ew, IH, En.
      set (P := (1 + App.rPostPct s) ^ Z.of_nat k) in *.
      set (B := App.retBal b0 + App.nonretBal b0) in *.
      assert (Hd : 0 <= P * (1 + App.rPostPct s) * (B - pv k - term)).
      { apply Qmult_le_0_compat; [|lra].
        apply Qlt_le_weak, Qmult_lt_0_compat; assumption. }
      assert (Ed : P * (B - pv k) * (1 + App.rPostPct s) - term * (P * (1 + App.rPostPct s))
                   == P * (1 + App.rPostPct s) * (B - pv k - term)) by ring.
      lra.
Qed.

End Decumulation.

(** X19.  A funded retirement is paid in full.  With a retirement-age
    field that holds a number, a retirement age a whole number of years
    from the current age, social security starting a whole number of years
    at or after retirement and a positive discount factor: when the
    balances at retirement add up to at least the present value of the
    first [k] net withdrawals, the balances [k] years later add up to
    [(1 + rPost)^k] times the excess; so balances that add up to the target
    corpus are exactly spent at the end of the horizon, and any excess
    over the target corpus is left, with its growth. *)
Theorem funded_retirement_is_paid `{FracPow} (s : Fields) (j m : nat) (additional : Q) :
  retirementAge s <> None ->
  App.retirementAgeNum s == App.curAgeNum s + of_nat j ->
  App.ssStartAgeNum s - App.retirementAgeNum s == of_nat m ->
  0 < 1 + App.rPostPct s ->
  let atRet := App.simulateToAge s (App.retirementAgeNum s) additional in
  let funds := App.retBal atRet + App.nonretBal atRet in
  (forall k,
     let pv :=
       Spec.sum_upto k
         (fun t =>
            Spec.net (App.withdrawalVal s) (App.inflationPct s) (App.pensionAnnual s)
              (App.ssAnnual s) (App.ssOffset s) (App.fixedIncomeInflationPct s) t
            / (1 + App.rPostPct s) ^ (Z.of_nat t + 1)) in
     let b := App.simulateToAge s (App.retirementAgeNum s + of_nat k) additional in
     pv <= funds ->
     App.retBal b + App.nonretBal b == (1 + App.rPostPct s) ^ Z.of_nat k * (funds - pv))
  /\ (0 < App.yearsInRetirement s ->
      App.targetCorpus s <= funds ->
      let n := iterations (App.yearsInRetirement s) in
      let b := App.simulateToAge s (App.retirementAgeNum s + of_nat n) additional in
      App.retBal b + App.nonretBal b
      == (1 + App.rPostPct s) ^ Z.of_nat n * (funds - App.targetCorpus s)).
Proof.
  intros Hfield Hj Hss Hr atRet funds.
  assert (Hk : forall k,
             Spec.sum_upto k
               (fun t =>
                  Spec.net (App.withdrawalVal s) (App.inflationPct s) (App.pensionAnnual s)
                    (App.ssAnnual s) (App.ssOffset s) (App.fixedIncomeInflationPct s) t
                  / (1 + App.rPostPct s) ^ (Z.of_nat t + 1)) <= funds ->
             App.retBal (App.simulateToAge s (App.retirementAgeNum s + of_nat k) additional)
             + App.nonretBal (App.simulateToAge s (App.retirementAgeNum s + of_nat k) additional)
             == (1 + App.rPostPct s) ^ Z.of_nat k
                * (funds
                   - Spec.sum_upto k
                       (fun t =>
                          Spec.net (App.withdrawalVal s) (App.inflationPct s)
                            (App.pensionAnnual s) (App.ssAnnual s) (App.ssOffset s)
                            (App.fixedIncomeInflationPct s) t
                          / (1 + App.rPostPct s) ^ (Z.of_nat t + 1)))).
  { intros k Hpv.
    assert (ET : App.retirementAgeNum s + of_nat k == App.curAgeNum s + of_nat (j + k)).
    { rewrite Hj. unfold of_nat. rewrite Nat2Z.inj_add, inject_Z_plus. ring. }
    rewrite (simulateToAge_target s _ _ additional ET), simulateToAge_continue.
    assert (Eat : App.simulateToAge s (App.curAgeNum s + of_nat j) additional = atRet).
    { subst atRet. apply simulateToAge_target. now symmetry. }
    rewrite Eat.
    rewrite (for_age_target _ (Nat.iter j (fun a => a + 1) (App.curAgeNum s) + of_nat k));
      [|rewrite age_after; unfold of_nat; rewrite Nat2Z.inj_add, inject_Z_plus; ring].
    apply (decumulation_closed s m Hfield Hss Hr additional); [|exact Hpv].
    rewrite age_after. now symmetry. }
  split; [exact Hk|].
  intros HN Htc n b. subst n b.
  assert (Etc : App.targetCorpus s
                = Spec.sum_upto (iterations (App.yearsInRetirement s))
                    (fun t =>
                       Spec.net (App.withdrawalVal s) (App.inflationPct s)
                         (App.pensionAnnual s) (App.ssAnnual s) (App.ssOffset s)
                         (App.fixedIncomeInflationPct s) t
                       / (1 + App.rPostPct s) ^ (Z.of_nat t + 1))).
  { unfold App.targetCorpus, App.calculated.
    now rewrite calculate_targetCorpus by exact HN. }
  rewrite Etc in Htc |- *. now apply Hk.
Qed.

Lemma funded_retirement_is_paid_witness :
  retirementAge early_retirement <> None
  /\ App.retirementAgeNum early_retirement == App.curAgeNum early_retirement + of_nat 5
  /\ App.ssStartAgeNum early_retirement - App.retirementAgeNum early_retirement == of_nat 9
  /\ 0 < 1 + App.rPostPct early_retirement
  /\ 0 < App.yearsInRetirement early_retirement
  /\ @App.targetCorpus no_frac early_retirement
     <= App.retBal (@App.simulateToAge no_frac early_retirement
                      (App.retirementAgeNum early_retirement) 50000)
        + App.nonretBal (@App.simulateToAge no_frac early_retirement
                           (App.retirementAgeNum early_retirement) 50000)
  /\ App.retBal (@App.simulateToAge no_frac early_retirement
                   (App.retirementAgeNum early_retirement + of_nat 5) 50000)
     + App.nonretBal (@App.simulateToAge no_frac early_retirement
                        (App.retirementAgeNum early_retirement + of_nat 5) 50000)
     == 0.
Proof.
  assert (Hf : retirementAge early_retirement <> None) by discriminate.
  split; [exact Hf|]. split; [reflexivity|]. split; [reflexivity|].
  split; [reflexivity|]. split; [reflexivity|].
  split; [vm_compute; discriminate|].
  rewrite (proj2 (@funded_retirement_is_paid no_frac early_retirement 5 9 50000
                    Hf eq_refl eq_refl eq_refl) eq_refl).
  - vm_compute. reflexivity.
  - vm_compute. discriminate.
Defined.

(** *** The snapshots of the chart *)

Lemma Qltb_compat_l (a a' b : Q) : a == a' -> (a <? b) = (a' <? b).
Proof.
  intros Ha. destruct (a' <? b) eqn:E.
  - apply Qltb_lt in E. apply Qltb_lt. lra.
  - apply Qltb_ge in E. apply Qltb_ge. lra.
Qed.

Lemma Qleb_compat_r (a a' b : Q) : a == a' -> (b <=? a) = (b <=? a').
Proof.
  intros Ha. destruct (b <=? a') eqn:E.
  - apply Qleb_le in E. apply Qleb_le. lra.
  - apply Qleb_gt in E. apply Qleb_gt. lra.
Qed.

Section PowCompat.
Context `{FracPow}.

(** [Math.pow] is a function of the number its exponent denotes, whatever
    the fraction that writes it. *)
Hypothesis pow_frac_compat : forall b e e', e == e' -> pow_frac b e = pow_frac b e'.

Lemma Math_pow_compat (b e e' : Q) : e == e' -> Math_pow b e = Math_pow b e'.
Proof.
  intros He. unfold Math_pow, is_whole.
  assert (Ef : Qfloor e = Qfloor e') by now rewrite He.
  rewrite Ef.
  assert (Eb : (inject_Z (Qfloor e') =? e) = (inject_Z (Qfloor e') =? e')).
  { destruct (inject_Z (Qfloor e') =? e') eqn:E.
    - apply Qeq_bool_iff in E. apply Qeq_bool_iff. now rewrite He.
    - destruct (inject_Z (Qfloor e') =? e) eqn:E'; [|reflexivity].
      apply Qeq_bool_iff in E'. rewrite He in E'. apply Qeq_bool_iff in E'. congruence. }
  rewrite Eb. clear Eb.
  destruct (inject_Z (Qfloor e') =? e'); [reflexivity | now apply pow_frac_compat].
Qed.

Variable p : TimelineChart.Props.
Variable c : TimelineChart.Contribs.

Lemma simulateToAgeLocal_body_compat (age age' : Q) (b : TimelineChart.Totals) :
  age == age' ->
  TimelineChart.simulateToAgeLocal_body p c age b
  = TimelineChart.simulateToAgeLocal_body p c age' b.
Proof.
  intros Ha. unfold TimelineChart.simulateToAgeLocal_body. cbv zeta.
  rewrite (Qltb_compat_l age age' _ Ha).
  rewrite (Qleb_compat_r age age' _ Ha).
  assert (E1 : Qmax 0 (age - TimelineChart.retirementAge p)
               == Qmax 0 (age' - TimelineChart.retirementAge p)) by now rewrite Ha.
  assert (E2 : Qmax 0 (age - TimelineChart.ssStartAge p)
               == Qmax 0 (age' - TimelineChart.ssStartAge p)) by now rewrite Ha.
  rewrite !(Math_pow_compat _ _ _ E1), (Math_pow_compat _ _ _ E2).
  reflexivity.
Qed.

(** The body of [simulateToAgeLocal] is the year of [simulatePoints]. *)
Lemma simulateToAgeLocal_body_year (age : Q) (b : TimelineChart.Totals) :
  TimelineChart.simulateToAgeLocal_body p c age b
  = let '(retBal, nonretBal) :=
      TimelineChart.simulatePoints_year p (TimelineChart.annualRetContrib c)
        (TimelineChart.annualNonRetContrib c) age
        (TimelineChart.totalRetBal b) (TimelineChart.totalNonretBal b) in
    {| TimelineChart.totalRetBal := retBal; TimelineChart.totalNonretBal := nonretBal |}.
Proof.
  unfold TimelineChart.simulateToAgeLocal_body, TimelineChart.simulatePoints_year,
    TimelineChart.simulatePoints_toWithdraw.
  cbv zeta.
  destruct (age <? TimelineChart.retirementAge p); [reflexivity|].
  destruct (_ <=? _); destruct (0 <? _); reflexivity.
Qed.

Lemma simulateToAgeLocal_whole (k : nat) :
  TimelineChart.simulateToAgeLocal p c (TimelineChart.currentAge p + of_nat k)
  = for_age k (TimelineChart.currentAge p) (TimelineChart.currentAge p + of_nat k)
      (TimelineChart.simulateToAgeLocal_body p c)
      {| TimelineChart.totalRetBal := TimelineChart.initialRet p;
         TimelineChart.totalNonretBal := TimelineChart.initialNonRet p |}.
Proof.
  unfold TimelineChart.simulateToAgeLocal.
  assert (Ei : iterations (TimelineChart.currentAge p + of_nat k - TimelineChart.currentAge p)
               = k) by (apply iterations_eq_whole; ring).
  now rewrite Ei.
Qed.

Lemma simulateToAgeLocal_step (k : nat) :
  TimelineChart.simulateToAgeLocal p c (TimelineChart.currentAge p + of_nat (S k))
  = TimelineChart.simulateToAgeLocal_body p c (TimelineChart.currentAge p + of_nat k)
      (TimelineChart.simulateToAgeLocal p c (TimelineChart.currentAge p + of_nat k)).
Proof.
  rewrite !simulateToAgeLocal_whole, for_age_last by reflexivity.
  apply simulateToAgeLocal_body_compat, age_after.
Qed.

(** The snapshot the chart is to hold for the year [k]. *)
Local Abbreviation snapshot k :=
  {| TimelineChart.age := TimelineChart.currentAge p + of_nat k;
     TimelineChart.retBal :=
       TimelineChart.totalRetBal
         (TimelineChart.simulateToAgeLocal p c (TimelineChart.currentAge p + of_nat k));
     TimelineChart.nonretBal :=
       TimelineChart.totalNonretBal
         (TimelineChart.simulateToAgeLocal p c (TimelineChart.currentAge p + of_nat k)) |}.

Lemma simulatePoints_loop_nth :
  forall fuel i pts retBal nonretBal,
    (i + fuel = S (Z.to_nat (Qfloor (TimelineChart.years p))))%nat ->
    length pts = i ->
    (forall k, (k < i)%nat -> nth_error pts k = Some (snapshot k)) ->
    retBal = TimelineChart.totalRetBal
               (TimelineChart.simulateToAgeLocal p c (TimelineChart.currentAge p + of_nat i)) ->
    nonretBal = TimelineChart.totalNonretBal
                  (TimelineChart.simulateToAgeLocal p c (TimelineChart.currentAge p + of_nat i)) ->
    forall k, (k <= Z.to_nat (Qfloor (TimelineChart.years p)))%nat ->
      nth_error (TimelineChart.simulatePoints_loop p (TimelineChart.annualRetContrib c)
                   (TimelineChart.annualNonRetContrib c) fuel i pts retBal nonretBal) k
      = Some (snapshot k).
Proof.
  assert (Hy : 0 <= TimelineChart.years p) by apply Q.le_max_l.
  assert (Hf : (0 <= Qfloor (TimelineChart.years p))%Z).
  { change 0%Z with (Qfloor 0). now apply Qfloor_resp_le. }
  induction fuel as [|fuel IH]; intros i pts retBal nonretBal Hi Hlen Hpts Er En k Hk.
  - apply Hpts. lia.
  - cbn [TimelineChart.simulatePoints_loop].
    assert (Hle : of_nat i <= TimelineChart.years p).
    { apply Qle_trans with (inject_Z (Qfloor (TimelineChart.years p))); [|apply Qfloor_le].
      unfold of_nat. rewrite <- Zle_Qle. lia. }
    rewrite (proj2 (Qleb_le _ _) Hle).
    assert (Hpts' : forall k, (k < S i)%nat ->
                      nth_error (pts ++ [{| TimelineChart.age := TimelineChart.currentAge p + of_nat i;
                                            TimelineChart.retBal := retBal;
                                            TimelineChart.nonretBal := nonretBal |}]) k
                      = Some (snapshot k)).
    { intros k' Hk'. destruct (Nat.eq_dec k' i) as [->|Hne].
      - rewrite nth_error_app2 by lia. rewrite Hlen, Nat.sub_diag. simpl.
        now rewrite Er, En.
      - rewrite nth_error_app1 by lia. apply Hpts. lia. }
    destruct (of_nat i =? TimelineChart.years p) eqn:E.
    + apply Qeq_bool_iff in E.
      assert (Ef : Qfloor (TimelineChart.years p) = Z.of_nat i).
      { rewrite <- E. apply Qfloor_Z. }
      apply Hpts'. lia.
    + pose proof (simulateToAgeLocal_step i) as Es.
      rewrite simulateToAgeLocal_body_year in Es.
      rewrite <- Er, <- En in Es.
      destruct (TimelineChart.simulatePoints_year p _ _ _ retBal nonretBal) as [r' n'].
      apply IH; try assumption.
      * lia.
      * rewrite length_app. simpl. lia.
      * now rewrite Es.
      * now rewrite Es.
Qed.

End PowCompat.

(** X20.  The chart draws the totals of [simulateToAgeLocal]: when
    [Math.pow] depends only on the number its exponent denotes, the
    snapshots of [simulatePoints] are one for each whole year from the
    current age to the end age, and the snapshot of the year [k] holds the
    age [currentAge + k] and the balances [simulateToAgeLocal] returns at
    that age with the same contributions. *)
Theorem chart_snapshots_are_yearly_totals `{FracPow}
    (p : TimelineChart.Props) (c : TimelineChart.Contribs) :
  (forall b e e', e == e' -> pow_frac b e = pow_frac b e') ->
  let pts := TimelineChart.simulatePoints p (TimelineChart.annualRetContrib c)
               (TimelineChart.annualNonRetContrib c) in
  length pts = S (Z.to_nat (Qfloor (TimelineChart.years p)))
  /\ forall k, (k < length pts)%nat ->
       nth_error pts k
       = Some {| TimelineChart.age := TimelineChart.currentAge p + of_nat k;
                 TimelineChart.retBal :=
                   TimelineChart.totalRetBal
                     (TimelineChart.simulateToAgeLocal p c
                        (TimelineChart.currentAge p + of_nat k));
                 TimelineChart.nonretBal :=
                   TimelineChart.totalNonretBal
                     (TimelineChart.simulateToAgeLocal p c
                        (TimelineChart.currentAge p + of_nat k)) |}.
Proof.
  intros Hpow pts. subst pts.
  split; [apply simulatePoints_length|].
  intros k Hk. rewrite simulatePoints_length in Hk.
  unfold TimelineChart.simulatePoints.
  apply (simulatePoints_loop_nth Hpow p c); try reflexivity; try lia.
  - rewrite simulateToAgeLocal_whole. reflexivity.
  - rewrite simulateToAgeLocal_whole. reflexivity.
Qed.

Lemma chart_snapshots_are_yearly_totals_witness :
  (forall b e e', e == e' -> @pow_frac no_frac b e = @pow_frac no_frac b e')
  /\ length (@TimelineChart.simulatePoints no_frac early_retirement_chart 0 20000) = 10%nat
  /\ nth_error (@TimelineChart.simulatePoints no_frac early_retirement_chart 0 20000) 6
     = Some {| TimelineChart.age := 53 + of_nat 6;
               TimelineChart.retBal :=
                 TimelineChart.totalRetBal
                   (@TimelineChart.simulateToAgeLocal no_frac early_retirement_chart
                      {| TimelineChart.annualRetContrib := 0;
                         TimelineChart.annualNonRetContrib := 20000 |} (53 + of_nat 6));
               TimelineChart.nonretBal :=
                 TimelineChart.totalNonretBal
                   (@TimelineChart.simulateToAgeLocal no_frac early_retirement_chart
                      {| TimelineChart.annualRetContrib := 0;
                         TimelineChart.annualNonRetContrib := 20000 |} (53 + of_nat 6)) |}.
Proof.
  assert (Hpow : forall b e e', e == e' -> @pow_frac no_frac b e = @pow_frac no_frac b e')
    by reflexivity.
  split; [exact Hpow|].
  destruct (@chart_snapshots_are_yearly_totals no_frac early_retirement_chart
              {| TimelineChart.annualRetContrib := 0;
                 TimelineChart.annualNonRetContrib := 20000 |} Hpow) as [Hlen Hnth].
  split.
  - exact Hlen.
  - apply Hnth. rewrite Hlen. vm_compute. lia.
Defined.

(** ** Rounding in the waterfall *)



Section Overshoot.
Context `{FracPow}.
Variable s : Fields.
Hypothesis Hpay : 0 < App.grossPay s.
Hypothesis Hneed : 0 <= App.additionalRetAnnual s.
Hypothesis Hmatch : 0 <= App.employerMatchPctNum s.
Hypothesis Hmatch100 : App.employerMatchPctNum s <= 100.




Hypothesis Hlim : 0 <= parseNumber (parsed (four01kLimit s)) 0.
Hypothesis Hraw :
  ToNumber (four01kLimit s) = JS.Fin (parseNumber (parsed (four01kLimit s)) 0).
Hypothesis Hira : 0 <= parseNumber (iraLimit s) 7500.
Hypothesis Hbridge : 0 <= App.neededNonretAnnual_bridge s.


End Overshoot.



(** ** The geometry of the chart *)

Lemma plotWidth_pos (width : Q) : 240 <= ChartGeometry.plotWidth width.
Proof.
  unfold ChartGeometry.plotWidth, ChartGeometry.pad.
  pose proof (Q.le_max_l 320 width) as Hw.
  set (w := Qmax 320 width) in *. clearbody w. lra.
Qed.

(** X23.  The pointer always selects a snapshot: for a chart with at least
    one snapshot, whatever the position of the pointer and the width, the
    index computed by the mouse and touch handlers is a whole number from
    0 to [points.length - 1]. *)
Theorem pointerIndex_in_range (width mx : Q) (n : nat) :
  (0 < n)%nat ->
  exists k, (k < n)%nat /\ ChartGeometry.pointerIndex width mx n = of_nat k.
Proof.
  intros Hn. unfold ChartGeometry.pointerIndex, ChartGeometry.Math_round. cbv zeta.
  set (ratio := Qmin 1 (Qmax 0 _)).
  assert (Hr : 0 <= ratio /\ ratio <= 1).
  { subst ratio. split; [apply Q.min_glb; [lra | apply Q.le_max_l] | apply Q.le_min_l]. }
  clearbody ratio.
  assert (Hn1 : of_nat n - 1 == of_nat (n - 1)).
  { destruct n as [|n]; [lia|]. rewrite of_nat_S. simpl. rewrite Nat.sub_0_r. ring. }
  pose proof (of_nat_nonneg (n - 1)) as Hn0.
  set (m := of_nat (n - 1)) in *.
  assert (Hp : 0 <= ratio * (of_nat n - 1) /\ ratio * (of_nat n - 1) <= m).
  { rewrite Hn1. split.
    - apply Qmult_le_0_compat; lra.
    - rewrite <- (Qmult_1_l m) at 2. apply Qmult_le_compat_r; lra. }
  set (v := ratio * (of_nat n - 1)) in *. clearbody v.
  assert (Hlo : (0 <= Qfloor (v + (1 # 2)))%Z).
  { change 0%Z with (Qfloor 0). apply Qfloor_resp_le. lra. }
  assert (Hhi : (Qfloor (v + (1 # 2)) <= Z.of_nat (n - 1))%Z).
  { apply Z.lt_succ_r. rewrite Zlt_Qlt.
    apply Qle_lt_trans with (v + (1 # 2)); [apply Qfloor_le|].
    unfold Z.succ. rewrite inject_Z_plus. fold (of_nat (n - 1)). fold m.
    change (inject_Z 1) with 1. lra. }
  exists (Z.to_nat (Qfloor (v + (1 # 2)))). split; [lia|].
  unfold of_nat. now rewrite Z2Nat.id.
Qed.

Lemma pointerIndex_in_range_witness :
  (0 < 10)%nat
  /\ exists k, (k < 10)%nat /\ ChartGeometry.pointerIndex 720 1000 10 = of_nat k.
Proof.
  split; [lia|]. apply (pointerIndex_in_range 720 1000 10). lia.
Defined.

(** X24.  The snapshots are drawn inside the plot: for an index between 0
    and [years], the horizontal position is between the left padding and
    the width of the view box less the right padding; the first snapshot
    is at the left padding, and a later snapshot is never to the left of
    an earlier one. *)
Theorem x_within_plot (width years : Q) :
  ChartGeometry.x width years 0 == ChartGeometry.pad
  /\ (forall i, 0 <= i -> i <= years ->
        ChartGeometry.pad <= ChartGeometry.x width years i
        /\ ChartGeometry.x width years i <= Qmax 320 width - ChartGeometry.pad)
  /\ (forall i j, i <= j ->
        ChartGeometry.x width years i <= ChartGeometry.x width years j).
Proof.
  pose proof (plotWidth_pos width) as Hw.
  assert (Hy : 1 <= Qmax 1 years) by apply Q.le_max_l.
  assert (Hy' : years <= Qmax 1 years) by apply Q.le_max_r.
  unfold ChartGeometry.x.
  assert (Ew : Qmax 320 width - ChartGeometry.pad
               == ChartGeometry.pad + ChartGeometry.plotWidth width)
    by (unfold ChartGeometry.plotWidth; ring).
  set (pw := ChartGeometry.plotWidth width) in *.
  set (Y := Qmax 1 years) in *. clearbody pw Y.
  split; [unfold Qdiv; ring|]. split.
  - intros i Hi0 Hiy.
    assert (Hq : 0 <= i / Y /\ i / Y <= 1).
    { split; [apply Qle_shift_div_l; lra | apply Qle_shift_div_r; lra]. }
    set (q := i / Y) in *. clearbody q.
    assert (H1 : 0 <= q * pw) by (apply Qmult_le_0_compat; lra).
    assert (H2 : q * pw <= 1 * pw) by (apply Qmult_le_compat_r; lra).
    split; lra.
  - intros i j Hij.
    assert (Hq : i / Y <= j / Y) by (apply Qdiv_le_compat_pos; lra).
    set (qi := i / Y) in *. set (qj := j / Y) in *. clearbody qi qj.
    assert (H2 : qi * pw <= qj * pw) by (apply Qmult_le_compat_r; lra).
    lra.
Qed.

Lemma x_within_plot_witness :
  0 <= 3 /\ 3 <= 9
  /\ ChartGeometry.pad <= ChartGeometry.x 720 9 3
  /\ ChartGeometry.x 720 9 3 <= Qmax 320 720 - ChartGeometry.pad.
Proof.
  split; [discriminate|]. split; [discriminate|].
  apply (proj1 (proj2 (x_within_plot 720 9)) 3); discriminate.
Defined.

(** *** The vertical axis *)

Lemma Math_ceil_ge (v : Q) : v <= Math_ceil v.
Proof. apply Qle_ceiling. Qed.

Lemma Math_ceil_lt (v : Q) : Math_ceil v < v + 1.
Proof.
  unfold Math_ceil. pose proof (Qceiling_lt v) as Hc.
  unfold Z.sub in Hc. rewrite inject_Z_plus in Hc.
  change (inject_Z (- (1))) with (- (1)) in Hc. lra.
Qed.

(** The number of intervals of the axis for a maximum [max] and a step
    [s]. *)
Lemma ticks_between (max s : Q) :
  0 < s -> 2 * s < max -> max <= 8 * s ->
  3 <= Math_ceil (max / s) /\ Math_ceil (max / s) <= 8.
Proof.
  intros Hs Hlo Hhi.
  assert (H2 : 2 < max / s) by (apply Qlt_shift_div_l; lra).
  assert (H8 : max / s <= 8) by (apply Qle_shift_div_r; lra).
  unfold Math_ceil. set (v := max / s) in *. clearbody v.
  split.
  - change 3 with (inject_Z 3). rewrite <- Zle_Qle.
    assert (Hc : (2 < Qceiling v)%Z).
    { rewrite Zlt_Qlt. apply Qlt_le_trans with v; [exact H2 | apply Qle_ceiling]. }
    lia.
  - change 8 with (inject_Z 8). rewrite <- Zle_Qle.
    change 8%Z with (Qceiling 8). now apply Qceiling_resp_le.
Qed.

Section Axis.
Context `{ChartGeometry.Log10Step}.

(** The test of the loop of [chooseStep] for a maximum and a candidate
    that are numbers. *)
Lemma chooseStep_test (max s : Q) :
  0 < s ->
  (ChartGeometry.geb (JS.ceil (JS.div (JS.Fin max) (JS.Fin s))) (JS.Fin 3)
   && ChartGeometry.leb (JS.ceil (JS.div (JS.Fin max) (JS.Fin s))) (JS.Fin 8)) = true
  <-> 3 <= Math_ceil (max / s) /\ Math_ceil (max / s) <= 8.
Proof.
  intros Hs. rewrite JS_div_fin by lra.
  cbn [JS.ceil ChartGeometry.geb ChartGeometry.leb].
  rewrite andb_true_iff, !Qleb_le. reflexivity.
Qed.

(** The loop returns the first candidate that passes the test. *)
Lemma chooseStep_loop_found (max : Q) (l : list Q) :
  Forall (fun s => 0 < s) l ->
  (exists s, In s l /\ 3 <= Math_ceil (max / s) /\ Math_ceil (max / s) <= 8) ->
  exists s, In s l /\ 3 <= Math_ceil (max / s) /\ Math_ceil (max / s) <= 8
            /\ ChartGeometry.chooseStep_loop (JS.Fin max) l = JS.Fin s.
Proof.
  induction l as [|s0 l IH]; intros Hpos (s & Hin & Hok).
  - destruct Hin.
  - inversion Hpos as [|? ? Hs0 Hl]; subst.
    cbn [ChartGeometry.chooseStep_loop].
    destruct (ChartGeometry.geb _ _ && ChartGeometry.leb _ _) eqn:E.
    + apply (chooseStep_test max s0 Hs0) in E.
      exists s0. split; [now left|]. split; [apply E|]. split; [apply E | reflexivity].
    + destruct Hin as [->|Hin].
      * apply (chooseStep_test max s Hs0) in Hok. congruence.
      * destruct (IH Hl (ex_intro _ s (conj Hin Hok))) as (s' & Hin' & H3 & H8 & Es).
        exists s'. split; [now right|]. repeat split; assumption.
Qed.

(** The loop returns a candidate or the fallback. *)
Lemma chooseStep_loop_cases (max : JS.num) (l : list Q) :
  (exists s, In s l /\ ChartGeometry.chooseStep_loop max l = JS.Fin s)
  \/ ChartGeometry.chooseStep_loop max l = ChartGeometry.fallbackStep max.
Proof.
  induction l as [|s0 l IH]; cbn [ChartGeometry.chooseStep_loop].
  - now right.
  - destruct (_ && _).
    + left. exists s0. split; [now left | reflexivity].
    + destruct IH as [(s & Hin & Es)|Ef]; [left | now right].
      exists s. split; [now right | exact Es].
Qed.

Lemma candidates_pos : Forall (fun s => 0 < s) ChartGeometry.candidates.
Proof. repeat constructor. Qed.

End Axis.

(** X25.  For every maximum above 10,000 and up to 8,000,000 the axis has
    between 3 and 8 intervals: [chooseStep] returns one of its candidates,
    never the fallback, and the maximum divided by that step, rounded up,
    is at least 3 and at most 8. *)
Theorem chooseStep_ticks `{ChartGeometry.Log10Step} (max : Q) :
  10000 < max -> max <= 8000000 ->
  exists s,
    ChartGeometry.chooseStep (JS.Fin max) = JS.Fin s
    /\ In s ChartGeometry.candidates
    /\ 3 <= Math_ceil (max / s) /\ Math_ceil (max / s) <= 8.
Proof.
  intros Hlo Hhi.
  assert (Hex : exists s, In s ChartGeometry.candidates
                          /\ 3 <= Math_ceil (max / s) /\ Math_ceil (max / s) <= 8).
  { destruct (Qlt_le_dec 40000 max) as [H1|H1].
    - destruct (Qlt_le_dec 200000 max) as [H2|H2].
      + destruct (Qlt_le_dec 800000 max) as [H3|H3].
        * destruct (Qlt_le_dec 2000000 max) as [H4|H4].
          -- exists 1000000. split; [cbn; tauto | apply ticks_between; lra].
          -- exists 250000. split; [cbn; tauto | apply ticks_between; lra].
        * exists 100000. split; [cbn; tauto | apply ticks_between; lra].
      + destruct (Qlt_le_dec 80000 max) as [H3|H3].
        * exists 25000. split; [cbn; tauto | apply ticks_between; lra].
        * exists 10000. split; [cbn; tauto | apply ticks_between; lra].
    - exists 5000. split; [cbn; tauto | apply ticks_between; lra]. }
  destruct (chooseStep_loop_found max ChartGeometry.candidates candidates_pos Hex)
    as (s & Hin & H3 & H8 & Es).
  exists s. split; [|repeat split; assumption].
  unfold ChartGeometry.chooseStep.
  cbn [ChartGeometry.falsy ChartGeometry.leb ChartGeometry.geb].
  assert (E0 : (max =? 0) = false).
  { destruct (max =? 0) eqn:E; [|reflexivity]. apply Qeq_bool_iff in E. lra. }
  rewrite E0, (proj2 (Qleb_gt max 0)) by lra. exact Es.
Qed.

Lemma chooseStep_ticks_witness :
  10000 < 250000 /\ 250000 <= 8000000
  /\ exists s,
       @ChartGeometry.chooseStep unit_step (JS.Fin 250000) = JS.Fin s
       /\ In s ChartGeometry.candidates
       /\ 3 <= Math_ceil (250000 / s) /\ Math_ceil (250000 / s) <= 8.
Proof.
  split; [reflexivity|]. split; [discriminate|].
  apply (@chooseStep_ticks unit_step 250000); [reflexivity | discriminate].
Defined.

(** [Math.max] of numbers, the first of them given. *)
Lemma Math_max_from (l : list Q) :
  forall a,
    exists m,
      fold_left JS.max (map JS.Fin l) (JS.Fin a) = JS.Fin m
      /\ a <= m /\ Forall (fun v => v <= m) l.
Proof.
  induction l as [|v l IH]; intros a.
  - exists a. split; [reflexivity|]. split; [apply Qle_refl | constructor].
  - cbn [map fold_left JS.max].
    destruct (IH (Qmax a v)) as (m & Em & Ham & Hall).
    exists m. split; [exact Em|].
    pose proof (Q.le_max_l a v). pose proof (Q.le_max_r a v).
    split; [lra|]. constructor; [lra | exact Hall].
Qed.

Lemma Math_max_spread_fin (l : list Q) :
  l <> [] ->
  exists m,
    ChartGeometry.Math_max_spread (map JS.Fin l) = JS.Fin m
    /\ Forall (fun v => v <= m) l.
Proof.
  destruct l as [|v l]; [congruence|]. intros _.
  unfold ChartGeometry.Math_max_spread. cbn [map fold_left JS.max].
  destruct (Math_max_from l v) as (m & Em & Hvm & Hall).
  exists m. split; [exact Em|]. constructor; assumption.
Qed.

Section AxisOfPoints.
Context `{ChartGeometry.Log10Step}.
Variable points : list TimelineChart.Point.
Hypothesis Hpoints : points <> [].
Hypothesis Hnonneg :
  Forall (fun p => 0 <= TimelineChart.retBal p + TimelineChart.nonretBal p) points.
Hypothesis Hfallback :
  forall m, 0 < m -> exists st, ChartGeometry.fallbackStep (JS.Fin m) = JS.Fin st /\ 0 < st.

Lemma maxVal_fin :
  exists M,
    ChartGeometry.maxVal points = JS.Fin M /\ 0 < M
    /\ Forall (fun p => TimelineChart.retBal p + TimelineChart.nonretBal p <= M) points.
Proof.
  unfold ChartGeometry.maxVal.
  rewrite <- (map_map (fun p => TimelineChart.retBal p + TimelineChart.nonretBal p) JS.Fin).
  destruct (Math_max_spread_fin
              (map (fun p => TimelineChart.retBal p + TimelineChart.nonretBal p) points))
    as (m & -> & Hall).
  { destruct points; [congruence | discriminate]. }
  rewrite Forall_map in Hall.
  assert (Hm : 0 <= m).
  { destruct points as [|p ps]; [congruence|].
    inversion Hall; subst. inversion Hnonneg; subst. lra. }
  unfold ChartGeometry.or1, ChartGeometry.falsy.
  destruct (m =? 0) eqn:E.
  - apply Qeq_bool_iff in E. exists 1. split; [reflexivity|]. split; [reflexivity|].
    eapply Forall_impl; [|exact Hall]. intros p Hp. cbv beta in Hp. lra.
  - exists m. split; [reflexivity|]. split; [|exact Hall].
    destruct (Qlt_le_dec 0 m) as [Hp|Hn]; [exact Hp|].
    exfalso. assert (Em : m == 0) by lra. apply Qeq_bool_iff in Em. congruence.
Qed.

Lemma chooseStep_pos (M : Q) :
  0 < M -> exists st, ChartGeometry.chooseStep (JS.Fin M) = JS.Fin st /\ 0 < st.
Proof.
  intros HM. unfold ChartGeometry.chooseStep.
  cbn [ChartGeometry.falsy ChartGeometry.leb ChartGeometry.geb].
  assert (E0 : (M =? 0) = false).
  { destruct (M =? 0) eqn:E; [|reflexivity]. apply Qeq_bool_iff in E. lra. }
  rewrite E0, (proj2 (Qleb_gt M 0)) by lra. cbn [orb].
  destruct (chooseStep_loop_cases (JS.Fin M) ChartGeometry.candidates)
    as [(s & Hin & Es)|Ef].
  - exists s. split; [exact Es|].
    pose proof candidates_pos as Hp. rewrite Forall_forall in Hp. now apply Hp.
  - rewrite Ef. now apply Hfallback.
Qed.

End AxisOfPoints.

(** X26.  The vertical axis covers the data: for a chart with at least
    one snapshot, totals that are not negative and a fallback step that is
    a positive number, the maximum, the step and the top of the axis are
    positive numbers, no total exceeds the maximum, the top is the
    maximum rounded up to a whole number of steps, less than one step above
    it, and every value between 0 and the maximum is drawn between the top
    and the bottom padding of the chart. *)
Theorem y_axis_covers_data `{ChartGeometry.Log10Step} (points : list TimelineChart.Point) :
  points <> [] ->
  Forall (fun p => 0 <= TimelineChart.retBal p + TimelineChart.nonretBal p) points ->
  (forall m, 0 < m ->
     exists st, ChartGeometry.fallbackStep (JS.Fin m) = JS.Fin st /\ 0 < st) ->
  exists M st top,
    ChartGeometry.maxVal points = JS.Fin M
    /\ ChartGeometry.step points = JS.Fin st
    /\ ChartGeometry.yMaxRounded points = JS.Fin top
    /\ 0 < M /\ 0 < st
    /\ Forall (fun p => TimelineChart.retBal p + TimelineChart.nonretBal p <= M) points
    /\ top == Math_ceil (M / st) * st /\ M <= top /\ top < M + st
    /\ forall v, 0 <= v -> v <= M ->
         exists pos,
           ChartGeometry.y points v = JS.Fin pos
           /\ ChartGeometry.pad <= pos
           /\ pos <= ChartGeometry.height - ChartGeometry.pad.
Proof.
  intros Hpoints Hnonneg Hfallback.
  destruct (maxVal_fin points Hpoints Hnonneg) as (M & EM & HM & Hall).
  destruct (chooseStep_pos Hfallback M HM) as (st & Est & Hst).
  assert (Estep : ChartGeometry.step points = JS.Fin st)
    by (unfold ChartGeometry.step; now rewrite EM).
  assert (Etop : ChartGeometry.yMaxRounded points = JS.Fin (Math_ceil (M / st) * st)).
  { unfold ChartGeometry.yMaxRounded. rewrite Estep, EM.
    rewrite JS_div_fin by lra. reflexivity. }
  pose proof (Math_ceil_ge (M / st)) as Hge. pose proof (Math_ceil_lt (M / st)) as Hlt.
  assert (EMs : M == M / st * st) by (field; lra).
  assert (Htop : M <= Math_ceil (M / st) * st /\ Math_ceil (M / st) * st < M + st).
  { set (q := M / st) in *. set (c := Math_ceil q) in *. clearbody c q.
    assert (H1 : q * st <= c * st) by (apply Qmult_le_compat_r; lra).
    assert (H2 : c * st < (q + 1) * st) by (apply Qmult_lt_compat_r; lra).
    split; [lra|]. rewrite EMs at 1.
    assert (E2 : (q + 1) * st == q * st + st) by ring. lra. }
  exists M, st, (Math_ceil (M / st) * st).
  split; [exact EM|]. split; [exact Estep|]. split; [exact Etop|].
  split; [exact HM|]. split; [exact Hst|]. split; [exact Hall|].
  split; [reflexivity|]. split; [apply Htop|]. split; [apply Htop|].
  intros v Hv0 HvM. unfold ChartGeometry.y. rewrite Etop.
  set (top := Math_ceil (M / st) * st) in *.
  rewrite JS_div_fin by lra. cbn [JS.mul JS.sub JS.add JS.neg].
  eexists. split; [reflexivity|].
  assert (Hq : 0 <= v / top /\ v / top <= 1).
  { split; [apply Qle_shift_div_l; lra | apply Qle_shift_div_r; lra]. }
  set (q := v / top) in *. clearbody q.
  unfold ChartGeometry.height, ChartGeometry.pad. lra.
Qed.

Lemma y_axis_covers_data_witness :
  @TimelineChart.simulatePoints no_frac early_retirement_chart 0 20000 <> []
  /\ exists M st top,
       @ChartGeometry.maxVal
         (@TimelineChart.simulatePoints no_frac early_retirement_chart 0 20000) = JS.Fin M
       /\ @ChartGeometry.step unit_step
            (@TimelineChart.simulatePoints no_frac early_retirement_chart 0 20000) = JS.Fin st
       /\ @ChartGeometry.yMaxRounded unit_step
            (@TimelineChart.simulatePoints no_frac early_retirement_chart 0 20000) = JS.Fin top
       /\ 0 < M /\ 0 < st /\ M <= top /\ top < M + st.
Proof.
  assert (Hp : @TimelineChart.simulatePoints no_frac early_retirement_chart 0 20000 <> [])
    by (vm_compute; discriminate).
  split; [exact Hp|].
  destruct (@y_axis_covers_data unit_step
              (@TimelineChart.simulatePoints no_frac early_retirement_chart 0 20000) Hp)
    as (M & st & top & EM & Est & Etop & HM & Hst & _ & _ & Hle & Hlt & _).
  - apply Forall_impl with (P := Spec.nonneg_point).
    + intros p [Hr Hn]. lra.
    + apply (@simulatePoints_nonneg no_frac early_retirement_chart 0 20000); discriminate.
  - intros m _. exists 1. split; reflexivity.
  - exists M, st, top. repeat split; assumption.
Defined.

(** ** The chart and the balance shown *)

(** A balance after [t] years at the rate [r] with the yearly
    contribution [c]. *)
Local Abbreviation accumulated b0 r c t :=
  (b0 * (1 + r) ^ Z.of_nat t + c * Spec.sum_upto t (fun j => (1 + r) ^ Z.of_nat j)).


Section ChartAccumulation.
Context `{FracPow}.
Variable p : TimelineChart.Props.
Variables (cR cN : Q).
Variable k : nat.
Hypothesis Hacc :
  forall i, (i < k)%nat -> TimelineChart.currentAge p + of_nat i < TimelineChart.retirementAge p.
Hypothesis Hk : (k <= Z.to_nat (Qfloor (TimelineChart.years p)))%nat.




End ChartAccumulation.

Section ShownBalance.
Context `{FracPow} `{Rounding}.
Variable s : Fields.


Variable k : nat.
Hypothesis Hyears : App.yearsToRetire s == of_nat k.


End ShownBalance.



(** ** Monotonicity of the corpus sizer, continued *)

Lemma Qpower_base_le (a b : Q) (k : nat) :
  0 <= a -> a <= b -> a ^ Z.of_nat k <= b ^ Z.of_nat k.
Proof.
  intros Ha Hab. induction k as [|k IH].
  - apply Qle_refl.
  - rewrite !Qpower_of_nat_S.
    apply Qmult_le_compat_nonneg; split; try assumption.
    now apply Qpower_0_le.
Qed.

(** A larger positive divisor gives a smaller quotient of a number that
    is not negative. *)
Lemma Qdiv_le_divisor (v a b : Q) : 0 <= v -> 0 < a -> a <= b -> v / b <= v / a.
Proof.
  intros Hv Ha Hab.
  apply Qle_shift_div_l; [exact Ha|].
  assert (E : v / b * a == v * (a / b)) by (field; lra).
  rewrite E.
  assert (Hq : a / b <= 1) by (apply Qle_shift_div_r; lra).
  assert (Hq0 : 0 <= a / b) by (apply Qle_shift_div_l; lra).
  set (q := a / b) in *. clearbody q.
  assert (H1 : q * v <= 1 * v) by (apply Qmult_le_compat_r; assumption).
  lra.
Qed.

Section ReturnMonotone.
Context `{FracPow}.

Lemma presentValue_return_le (w g p ssA off f N r1 r2 : Q) :
  0 < 1 + r1 -> r1 <= r2 ->
  Spec.presentValue w g p ssA off f N r2 <= Spec.presentValue w g p ssA off f N r1.
Proof.
  intros Hr Hle. unfold Spec.presentValue. apply sum_upto_le. intros t.
  apply Qdiv_le_divisor.
  - apply net_nonneg.
  - apply Qpower_0_lt, Hr.
  - replace (Z.of_nat t + 1)%Z with (Z.of_nat (S t)) by lia.
    apply Qpower_base_le; lra.
Qed.

End ReturnMonotone.

(** X28.  A higher return during retirement never raises the target
    corpus: for discount factors that are positive, the target corpus at
    the larger rate is at most the target corpus at the smaller one. *)
Theorem targetCorpus_decreasing_in_return `{FracPow}
    (a n N w rPre r1 r2 g p ssA off f : Q) :
  0 < 1 + r1 -> r1 <= r2 ->
  Result.targetCorpus (calculate a n N w rPre r2 g p ssA off f)
  <= Result.targetCorpus (calculate a n N w rPre r1 g p ssA off f).
Proof.
  intros Hr Hle. destruct (Qlt_le_dec 0 N) as [HN|HN].
  - rewrite !calculate_targetCorpus by exact HN. now apply presentValue_return_le.
  - rewrite !calculate_no_horizon by exact HN. apply Qle_refl.
Qed.

Lemma targetCorpus_decreasing_in_return_witness :
  0 < 1 + (2 / 100) /\ 2 / 100 <= 6 / 100
  /\ Result.targetCorpus
       (@calculate no_frac 1000 2 3 50000 (6 / 100) (6 / 100) (2 / 100) 12000 0 1 0)
     <= Result.targetCorpus
          (@calculate no_frac 1000 2 3 50000 (6 / 100) (2 / 100) (2 / 100) 12000 0 1 0).
Proof.
  split; [reflexivity|]. split; [discriminate|].
  apply (@targetCorpus_decreasing_in_return no_frac 1000 2 3 50000 (6 / 100) (2 / 100)
           (6 / 100) (2 / 100) 12000 0 1 0).
  - reflexivity.
  - discriminate.
Defined.

(** X29.  More assets never raise the annual saving: for whole years to
    retirement and a pre-retirement return of at least -100%, the annual
    saving the corpus sizer returns for the larger current assets is at
    most the one it returns for the smaller. *)
Theorem annual_decreasing_in_assets `{FracPow}
    (a1 a2 N w rPre r g p ssA off f : Q) (k : nat) :
  0 <= 1 + rPre -> a1 <= a2 ->
  Result.annual (calculate a2 (of_nat k) N w rPre r g p ssA off f)
  <= Result.annual (calculate a1 (of_nat k) N w rPre r g p ssA off f).
Proof.
  intros Hr Ha. destruct (Qlt_le_dec 0 N) as [HN|HN].
  - destruct k as [|k].
    + unfold calculate. rewrite (proj2 (Qleb_gt _ _) HN).
      change (of_nat 0 =? 0) with true. cbn. apply Qle_refl.
    + pose proof (of_nat_pos (S k) ltac:(lia)) as Hk.
      rewrite !calculate_annual by (try exact HN; lra). cbv zeta.
      rewrite !calculate_targetCorpus by exact HN.
      rewrite !Math_pow_of_nat.
      set (tc := Spec.presentValue w g p ssA off f N r).
      set (P := (1 + rPre) ^ Z.of_nat (S k)).
      assert (HP : 0 <= P) by (subst P; now apply Qpower_0_le).
      assert (Hgap : Qmax 0 (tc - a2 * P) <= Qmax 0 (tc - a1 * P)).
      { apply Q.max_le_compat_l.
        assert (Hm : a1 * P <= a2 * P) by (apply Qmult_le_compat_r; assumption).
        lra. }
      destruct (0 <? rPre) eqn:E.
      * apply Qltb_lt in E.
        apply Qdiv_le_compat_pos; [|exact Hgap].
        apply annuity_factor_pos; [exact E | lia].
      * apply Qdiv_le_compat_pos; assumption.
  - rewrite !calculate_no_horizon by exact HN. apply Qle_refl.
Qed.

Lemma annual_decreasing_in_assets_witness :
  0 <= 1 + 6 / 100 /\ 1000 <= 20000
  /\ Result.annual
       (@calculate no_frac 20000 (of_nat 2) 3 50000 (6 / 100) (4 / 100) (2 / 100) 0 0 0 0)
     <= Result.annual
          (@calculate no_frac 1000 (of_nat 2) 3 50000 (6 / 100) (4 / 100) (2 / 100) 0 0 0 0).
Proof.
  split; [discriminate|]. split; [discriminate|].
  apply (@annual_decreasing_in_assets no_frac 1000 20000 3 50000 (6 / 100) (4 / 100)
           (2 / 100) 0 0 0 0 2); discriminate.
Defined.

(** ** The order of the waterfall *)


Section ExactOrder.
Context `{FracPow} `{Rounding}.
Hypothesis Hexact : forall x, fl x = x.
Variable s : Fields.
Hypothesis Hpay : 0 < App.grossPay s.
Hypothesis Hmatch : 0 <= App.employerMatchPctNum s.
Hypothesis Hmatch100 : App.employerMatchPctNum s <= 100.


End ExactOrder.

Section Order.
Context `{FracPow} `{Rounding}.
Variable s : Fields.



End Order.

(** The rounding of the machine can leave the employee amount of step 1
    below the tentative amount.  With a pay of 38920, a match of 50 percent
    and a need of [27244 + 2^-38], half the need is [13622 + 2^-39]; its
    percentage of the pay comes out as 35 exactly, and 35 percent of the pay
    is 13622.  The need left is [2^-38], which step 2 gives to the IRA,
    while the match applied, 13622, is below the match cap of 19460 and the
    employee amount is below the limit. *)
Example priority_rounding_noise `{FracPow} :
  let s := half_need_above_whole_percent in
  App.additionalRetAnnual s == 27244 + (1 # 274877906944)
  /\ App.employerMatchCap s == 19460
  /\ App.emp401kPctForMatch (App.step1 s) == 35
  /\ App.emp401kDollarForMatch (App.step1 s) == 13622
  /\ App.employerMatchDollarApplied (App.step1 s) == 13622
  /\ App.recommendedIra_step2 s == 1 # 274877906944
  /\ 0 < App.recommendedIra_step2 s
  /\ ~ App.employerMatchDollarApplied (App.step1 s) == App.employerMatchCap s
  /\ ~ App.emp401kDollarForMatch (App.step1 s) == App.employeeCapDollar s.
Proof.
  vm_compute. repeat split; intros E; discriminate E.
Qed.


